(** * sim_web_visualizer.parser.urdf : [load_urdf_with_yourdfpy]

    A shallow embedding of the URDF loader of sim-web-visualizer
    (src/sim_web_visualizer/parser/urdf.py) and the properties of its
    fixed-joint collapse and of its asset addressing.

    - Python dictionaries that are only read and written by key
      ([link_root_map], [link_pose_map], [link_mesh_count], the two output
      dictionaries) are [gmap]s; dictionaries that are iterated
      ([joint_map], [link_map], the geometry table of a trimesh scene) are
      association lists in insertion order.
    - Exceptions are an error monad; the only loop that can run for ever,
      the [while] of the joint sort, takes fuel and answers [None] when the
      fuel is gone.
    - numpy, trimesh and meshcat are interfaces: nothing is assumed about
      the floating-point operations, so every statement holds for whatever
      [@] computes. *)

From Stdlib Require Import Ascii.
From stdpp Require Import gmap strings list fin_maps pretty.

Local Open Scope Z_scope.

(** ** Exceptions *)

Inductive exn : Type :=
  | KeyError
  | AssertionError
  | NotImplementedError
  | AttributeError
  | LoaderError.

Inductive result (A : Type) : Type :=
  | Ok (a : A)
  | Raise (e : exn).
Arguments Ok {A} a.
Arguments Raise {A} e.

#[global] Instance result_ret : MRet result := fun A a => Ok a.
#[global] Instance result_bind : MBind result := fun A B f m =>
  match m with
  | Ok a => f a
  | Raise e => Raise e
  end.

(** [d[k]] on an insertion-ordered dictionary and on a [gmap]. *)
Fixpoint dict_get {V} (d : list (string * V)) (k : string) : option V :=
  match d with
  | [] => None
  | (k', v) :: d' => if bool_decide (k' = k) then Some v else dict_get d' k
  end.

Definition getitem {V} (d : list (string * V)) (k : string) : result V :=
  match dict_get d k with
  | Some v => Ok v
  | None => Raise KeyError
  end.

Definition lookup_or_raise `{Countable K} {V} (m : gmap K V) (k : K) : result V :=
  match m !! k with
  | Some v => Ok v
  | None => Raise KeyError
  end.

(** [for x in xs: st = body(st, x)], leaving at the first exception. *)
Fixpoint for_each {S A} (body : S → A → result S) (xs : list A) (st : S)
  : result S :=
  match xs with
  | [] => Ok st
  | x :: xs' => st' ← body st x; for_each body xs' st'
  end.

(** ** The libraries the loader calls *)

(** numpy: 4x4 pose arrays, colours, 3-vectors and scalars. [rot_block a]
    is the value of [a] after the slice assignment
    [a[:3, :3] = a[:3, :3] @ euler2mat(pi / 2, 0, 0)]. *)
Class Numpy : Type := {
  ndarray : Type;
  eye4 : ndarray;
  matmul : ndarray → ndarray → ndarray;
  rot_block : ndarray → ndarray;
  rgba : Type;
  clip01 : rgba → rgba;
  vec3 : Type;
  ones3 : vec3;
  float : Type
}.

(** ** Strings: [str.lower] and [str.endswith] on ASCII file names

    [endswith s "obj"] is the test of line 83: the last three characters,
    with or without a dot before them. *)

Definition ascii_lower (c : Ascii.ascii) : Ascii.ascii :=
  let n := Ascii.nat_of_ascii c in
  if (Nat.leb 65 n && Nat.leb n 90)%bool then Ascii.ascii_of_nat (n + 32)
  else c.

Fixpoint lower (s : string) : string :=
  match s with
  | EmptyString => EmptyString
  | String c s' => String (ascii_lower c) (lower s')
  end.

Definition endswith (s suffix : string) : bool :=
  let n := String.length s in
  let k := String.length suffix in
  bool_decide (k ≤ n)%nat
  && bool_decide (String.substring (n - k) k s = suffix).

(** trimesh: a loaded file is one mesh or a scene; a scene has a table of
    named geometries and a graph whose nodes carry a transform and,
    possibly, the name of the geometry they show. [tm_mesh] stands for the
    vertex and face arrays of one mesh. *)
Section Trimesh.
Context `{np : Numpy} {tm_mesh : Type}.

Record Scene : Type := {
  scene_geometry : list (string * tm_mesh);
  scene_graph : list (string * (ndarray * option string))
}.

Inductive loaded : Type :=
  | Trimesh (m : tm_mesh)
  | TScene (s : Scene).
End Trimesh.
Arguments Scene {np} tm_mesh.
Arguments loaded {np} tm_mesh.

(** [trimesh_load f] is [trimesh.load(f, ignore_broken=True)] and
    [trimesh_load_scene f] the same call with [force='scene']. *)
Class TrimeshLib `{np : Numpy} : Type := {
  tm_mesh : Type;
  trimesh_load : string → result (loaded tm_mesh);
  trimesh_load_scene : string → result (Scene tm_mesh)
}.

(** A string without the separator of the asset keys. *)
Fixpoint slash_free (s : string) : Prop :=
  match s with
  | EmptyString => True
  | String c s' => c ≠ "/"%char ∧ slash_free s'
  end.

Section Model.
Context `{np : Numpy} {tm : TrimeshLib}.

(** ** The parsed document (yourdfpy)

    The fields the loader reads. The origin of a joint is an array: line 52
    multiplies by it without a test, unlike the origin of a visual, which
    line 61 tests for [None]. *)

Record Joint : Type := {
  joint_parent : string;
  joint_child : string;
  joint_type : string;
  joint_origin : ndarray
}.

Record Color : Type := { color_rgba : rgba }.

Record Material : Type := {
  material_name : option string;
  material_color : option Color
}.

Record Mesh : Type := { mesh_filename : string; mesh_scale : option vec3 }.
Record SphereG : Type := { sphere_radius : float }.
Record BoxG : Type := { box_size : vec3 }.
Record CylinderG : Type := { cylinder_radius : float; cylinder_length : float }.

Record Geometry : Type := {
  geom_mesh : option Mesh;
  geom_sphere : option SphereG;
  geom_box : option BoxG;
  geom_cylinder : option CylinderG
}.

Record Visual : Type := {
  visual_geometry : Geometry;
  visual_origin : option ndarray;
  visual_material : option Material
}.

Record Link : Type := { link_visuals : list Visual }.

Record URDF : Type := {
  base_link : string;
  joint_map : list (string * Joint);
  link_map : list (string * Link);
  _material_map : list (string * Material);
  filename_handler : string → string
}.

(** ** Lines 28-55: the collapse maps *)

Section Collapse.
Variable robot : URDF.

(** Lines 37-41, the body of the [for] of the sort; the state is
    [(_link_cache, _joint_sorted)]. *)
Definition sort_visit (st : list string * list string) (joint_name : string)
  : result (list string * list string) :=
  let '(_link_cache, _joint_sorted) := st in
  if bool_decide (joint_name ∈ _joint_sorted) then Ok st
  else
    j ← getitem (joint_map robot) joint_name;
    if bool_decide (joint_parent j ∈ _link_cache) then
      Ok (_link_cache ++ [joint_child j], _joint_sorted ++ [joint_name])
    else Ok st.

(** Lines 35-41. *)
Fixpoint sort_while (fuel : nat) (_joint_unsorted : list string)
    (st : list string * list string)
  : option (result (list string * list string)) :=
  if bool_decide (length st.2 < length _joint_unsorted)%nat then
    match fuel with
    | O => None
    | S fuel' =>
        match for_each sort_visit _joint_unsorted st with
        | Ok st' => sort_while fuel' _joint_unsorted st'
        | Raise e => Some (Raise e)
        end
    end
  else Some (Ok st).

(** Lines 32-41: [_joint_sorted]. *)
Definition sort_joints (fuel : nat) : option (result (list string)) :=
  match sort_while fuel (joint_map robot).*1 ([base_link robot], []) with
  | None => None
  | Some (Raise e) => Some (Raise e)
  | Some (Ok st) => Some (Ok st.2)
  end.

(** Lines 45-55, the body of the [for] that builds the two maps. *)
Definition build_visit (maps : gmap string string * gmap string ndarray)
    (joint_name : string)
  : result (gmap string string * gmap string ndarray) :=
  let '(link_root_map, link_pose_map) := maps in
  joint_info ← getitem (joint_map robot) joint_name;
  let parent := joint_parent joint_info in
  let child := joint_child joint_info in
  if bool_decide (joint_type joint_info = "fixed") then
    if bool_decide (is_Some (link_root_map !! parent)) then
      r ← lookup_or_raise link_root_map parent;
      p ← lookup_or_raise link_pose_map parent;
      Ok (<[child := r]> link_root_map,
          <[child := matmul p (joint_origin joint_info)]> link_pose_map)
    else Raise AssertionError
  else
    Ok (<[child := child]> link_root_map, <[child := eye4]> link_pose_map).

(** Lines 28-29. *)
Definition initial_maps : gmap string string * gmap string ndarray :=
  ({[ base_link robot := base_link robot ]}, {[ base_link robot := eye4 ]}).

(** Lines 28-55 with [collapse_fixed_joints] set:
    [(link_root_map, link_pose_map)]. *)
Definition collapse_maps (fuel : nat)
  : option (result (gmap string string * gmap string ndarray)) :=
  match sort_joints fuel with
  | None => None
  | Some (Raise e) => Some (Raise e)
  | Some (Ok _joint_sorted) =>
      Some (for_each build_visit _joint_sorted initial_maps)
  end.
End Collapse.


(** ** What the loader hands to meshcat *)

Inductive meshcat_geometry : Type :=
  | TriangularMeshGeometry (mesh : tm_mesh) (mesh_scale : vec3)
  | ObjMeshGeometry (mesh_filename : string) (mesh_scale : vec3) (mesh : tm_mesh)
  | DaeMeshGeometry (mesh_filename : string)
  | Sphere (radius : float)
  | Box (size : vec3)
  | Cylinder (length radius : float)
  | Capsule (radius length : float).

(** [get_trimesh_geometry_material(geometry, urdf_rgba)] of mesh_parser and
    the [MeshPhongMaterial] built from [urdf_rgba] are kept as terms. *)
Inductive meshcat_material : Type :=
  | TrimeshGeometryMaterial (mesh : tm_mesh) (urdf_rgba : option rgba)
  | MeshPhongMaterial (urdf_rgba : rgba).

(** One write [offline_*_dict[f"{meshcat_link_name}/{geom_id}"] = ...]. *)
Record Emitted : Type := {
  em_link : string;
  em_id : Z;
  em_geometry : meshcat_geometry;
  em_material : option meshcat_material;
  em_pose : ndarray
}.

Definition asset_key (meshcat_link_name : string) (geom_id : Z) : string :=
  meshcat_link_name +:+ "/" +:+ pretty geom_id.

Record AssetResource : Type := {
  filename : string;
  visual_data : gmap string (meshcat_geometry * option meshcat_material);
  pose_data : gmap string ndarray
}.

(** What a call leaves behind: the returned resource, the writes to the
    two dictionaries in the order they were made, and the link table of
    the parsed document as it is after the call. *)
Record Outcome : Type := {
  resource : AssetResource;
  emitted : list Emitted;
  links_after : list (string * Link)
}.

(** ** Lines 57-170: the visuals *)

(** [visual_pose] is a name for an array object: either the very array
    held in [visual.origin] (line 61, when it is not [None]) or an array
    made during the call ([np.eye(4)], the result of [@]). A slice
    assignment through the name writes the object it names. Every visual
    of a parsed document holds an array of its own, so the only names of
    an origin array are the visual and this variable, and a pose put in
    [poses] keeps the value it has when it is appended. *)
Inductive pose_var : Type :=
  | OriginOf
  | Local (a : ndarray).

Definition pose_read (visual : Visual) (visual_pose : pose_var) : ndarray :=
  match visual_pose with
  | OriginOf => default eye4 (visual_origin visual)
  | Local a => a
  end.

Definition pose_assign_block (visual : Visual) (visual_pose : pose_var)
  : Visual * pose_var :=
  match visual_pose with
  | OriginOf =>
      ({| visual_geometry := visual_geometry visual;
          visual_origin := rot_block <$> visual_origin visual;
          visual_material := visual_material visual |}, OriginOf)
  | Local a => (visual, Local (rot_block a))
  end.

(** Lines 65-74: [urdf_rgba]. *)
Definition resolve_rgba (material_map : list (string * Material))
    (visual : Visual) : result (option rgba) :=
  match visual_material visual with
  | None => Ok None
  | Some material =>
      match material_color material with
      | Some c => Ok (Some (clip01 (color_rgba c)))
      | None =>
          match material_name material with
          | None => Ok None
          | Some name =>
              match dict_get material_map name with
              | None => Ok None
              | Some named =>
                  match material_color named with
                  | Some urdf_color => Ok (Some (clip01 (color_rgba urdf_color)))
                  | None => Raise AttributeError
                  end
              end
          end
      end
  end.

(** [graph.get(node)] and [graph[node]]: the transform of a node and the
    geometry it shows. For a node the graph lacks the exception is the
    library's own; [KeyError] stands for it here, and no statement below
    rests on its class. *)
Definition graph_get (s : Scene tm_mesh) (node : string)
  : result (ndarray * option string) :=
  getitem (scene_graph s) node.

Abbreviation batch :=
  (list meshcat_geometry * list (option meshcat_material) * list ndarray)%type.

(** Lines 88-94. *)
Definition obj_scene_visit (s : Scene tm_mesh) (mesh_scale : vec3)
    (urdf_rgba : option rgba) (visual_pose : ndarray)
    (acc : batch) (item : string * tm_mesh) : result batch :=
  let '(geometries, mats, poses) := acc in
  let '(name, mesh) := item in
  node ← graph_get s name;
  let local_pose := matmul visual_pose node.1 in
  Ok (geometries ++ [TriangularMeshGeometry mesh mesh_scale],
      mats ++ [Some (TrimeshGeometryMaterial mesh urdf_rgba)],
      poses ++ [local_pose]).

(** Lines 107-113. *)
Definition dae_scene_visit (s : Scene tm_mesh) (mesh_filename : string)
    (urdf_rgba : option rgba) (visual_pose : ndarray)
    (acc : batch) (item : string * tm_mesh) : result batch :=
  let '(geometries, mats, poses) := acc in
  let '(name, mesh) := item in
  node ← graph_get s name;
  let local_pose := matmul visual_pose node.1 in
  Ok (geometries ++ [DaeMeshGeometry mesh_filename],
      mats ++ [Some (TrimeshGeometryMaterial mesh urdf_rgba)],
      poses ++ [visual_pose]).

(** Line 122: [{scene.graph[n][1]: n for n in scene.graph.nodes}]. *)
Definition geom_name_map_of (s : Scene tm_mesh) : result (gmap (option string) string) :=
  for_each
    (fun (m : gmap (option string) string) node_name =>
       node ← graph_get s node_name;
       Ok (<[node.2 := node_name]> m))
    (scene_graph s).*1 ∅.

(** Lines 123-128. *)
Definition glb_scene_visit (s : Scene tm_mesh)
    (geom_name_map : gmap (option string) string) (mesh_scale : vec3)
    (urdf_rgba : option rgba) (visual_pose : ndarray)
    (acc : batch) (item : string * tm_mesh) : result batch :=
  let '(geometries, mats, poses) := acc in
  let '(name, mesh) := item in
  node_name ← lookup_or_raise geom_name_map (Some name);
  node ← graph_get s node_name;
  Ok (geometries ++ [TriangularMeshGeometry mesh mesh_scale],
      mats ++ [Some (TrimeshGeometryMaterial mesh urdf_rgba)],
      poses ++ [matmul visual_pose node.1]).

(** Lines 80-130: a mesh visual. No branch writes through [visual_pose]. *)
Definition mesh_batch (robot : URDF) (mesh : Mesh) (urdf_rgba : option rgba)
    (visual_pose : ndarray) : result batch :=
  let mesh_scale := default ones3 (mesh_scale mesh) in
  let mesh_filename := filename_handler robot (mesh_filename mesh) in
  if endswith (lower mesh_filename) "obj" then
    trimesh_geom ← trimesh_load mesh_filename;
    match trimesh_geom with
    | TScene s =>
        for_each (obj_scene_visit s mesh_scale urdf_rgba visual_pose)
          (scene_geometry s) ([], [], [])
    | Trimesh m =>
        Ok ([ObjMeshGeometry mesh_filename mesh_scale m],
            [Some (TrimeshGeometryMaterial m urdf_rgba)],
            [visual_pose])
    end
  else if endswith (lower mesh_filename) "dae" then
    trimesh_geom ← trimesh_load mesh_filename;
    match trimesh_geom with
    | TScene s =>
        for_each (dae_scene_visit s mesh_filename urdf_rgba visual_pose)
          (scene_geometry s) ([], [], [])
    | Trimesh _ => Raise AssertionError
    end
  else if endswith (lower mesh_filename) "stl" then
    loaded_mesh ← trimesh_load mesh_filename;
    match loaded_mesh with
    | Trimesh m =>
        Ok ([TriangularMeshGeometry m mesh_scale],
            [Some (TrimeshGeometryMaterial m urdf_rgba)],
            [visual_pose])
    | TScene _ => Raise AttributeError
    end
  else if endswith (lower mesh_filename) "glb" then
    scene ← trimesh_load_scene mesh_filename;
    geom_name_map ← geom_name_map_of scene;
    for_each (glb_scene_visit scene geom_name_map mesh_scale urdf_rgba visual_pose)
      (scene_geometry scene) ([], [], [])
  else Raise NotImplementedError.

(** Lines 133-151: a primitive. The two cylinder branches assign to a
    slice of [visual_pose]; the visual comes back as that leaves it. *)
Definition primitive_batch (replace_cylinder_with_capsule : bool)
    (urdf_rgba : option rgba) (visual : Visual) (visual_pose : pose_var)
  : result (Visual * batch) :=
  let geom := visual_geometry visual in
  let mat := MeshPhongMaterial <$> urdf_rgba in
  match geom_sphere geom, geom_box geom, geom_cylinder geom with
  | Some sphere, _, _ =>
      Ok (visual,
          ([Sphere (sphere_radius sphere)], [mat], [pose_read visual visual_pose]))
  | None, Some box, _ =>
      Ok (visual, ([Box (box_size box)], [mat], [pose_read visual visual_pose]))
  | None, None, Some cylinder =>
      let g :=
        if replace_cylinder_with_capsule
        then Capsule (cylinder_radius cylinder) (cylinder_length cylinder)
        else Cylinder (cylinder_length cylinder) (cylinder_radius cylinder) in
      let '(visual', visual_pose') := pose_assign_block visual visual_pose in
      Ok (visual', ([g], [mat], [pose_read visual' visual_pose']))
  | None, None, None => Raise NotImplementedError
  end.

(** Lines 166-169. *)
Fixpoint emit (meshcat_link_name : string) (geom_id : Z)
    (items : list (meshcat_geometry * (option meshcat_material * ndarray)))
  : list Emitted * Z :=
  match items with
  | [] => ([], geom_id)
  | (each_geometry, (each_mat, each_pose)) :: items' =>
      let '(rest, last) := emit meshcat_link_name (geom_id + 1) items' in
      ({| em_link := meshcat_link_name; em_id := geom_id;
          em_geometry := each_geometry; em_material := each_mat;
          em_pose := each_pose |} :: rest, last)
  end.

Section Visuals.
Variable robot : URDF.
Variables collapse_fixed_joints replace_cylinder_with_capsule : bool.
Variable material_map : list (string * Material).
Variable link_root_map : gmap string string.
Variable link_pose_map : gmap string ndarray.

(** Lines 60-151: the three lists of one visual, and the visual after. *)
Definition visual_batch (link_name : string) (visual : Visual)
  : result (Visual * batch) :=
  let geom := visual_geometry visual in
  let visual_pose :=
    match visual_origin visual with
    | Some _ => OriginOf
    | None => Local eye4
    end in
  urdf_rgba ← resolve_rgba material_map visual;
  visual_pose ←
    (if collapse_fixed_joints then
       link_pose ← lookup_or_raise link_pose_map link_name;
       Ok (Local (matmul link_pose (pose_read visual visual_pose)))
     else Ok visual_pose);
  match geom_mesh geom with
  | Some mesh =>
      b ← mesh_batch robot mesh urdf_rgba (pose_read visual visual_pose);
      Ok (visual, b)
  | None =>
      primitive_batch replace_cylinder_with_capsule urdf_rgba visual visual_pose
  end.

(** Lines 59-170, the body of the inner [for]; the state is
    [(link_mesh_count, writes so far)]. *)
Definition visual_visit (link_name : string)
    (st : gmap string Z * list Emitted) (visual : Visual)
  : result (Visual * (gmap string Z * list Emitted)) :=
  let '(link_mesh_count, log) := st in
  '(visual', (geometries, mats, poses)) ← visual_batch link_name visual;
  meshcat_link_name ←
    (if collapse_fixed_joints then lookup_or_raise link_root_map link_name
     else Ok link_name);
  let link_mesh_count :=
    match link_mesh_count !! meshcat_link_name with
    | None => <[meshcat_link_name := 0]> link_mesh_count
    | Some c => <[meshcat_link_name := c + 1]> link_mesh_count
    end in
  geom_id ← lookup_or_raise link_mesh_count meshcat_link_name;
  let '(written, geom_id) :=
    emit meshcat_link_name geom_id (zip geometries (zip mats poses)) in
  Ok (visual',
      (<[meshcat_link_name := geom_id - 1]> link_mesh_count, log ++ written)).

(** Lines 59-170. *)
Fixpoint visuals_loop (link_name : string) (visuals : list Visual)
    (st : gmap string Z * list Emitted)
  : result (list Visual * (gmap string Z * list Emitted)) :=
  match visuals with
  | [] => Ok ([], st)
  | visual :: visuals' =>
      '(visual', st') ← visual_visit link_name st visual;
      '(rest, st'') ← visuals_loop link_name visuals' st';
      Ok (visual' :: rest, st'')
  end.

(** Lines 58-170. *)
Fixpoint links_loop (links : list (string * Link))
    (st : gmap string Z * list Emitted)
  : result (list (string * Link) * (gmap string Z * list Emitted)) :=
  match links with
  | [] => Ok ([], st)
  | (link_name, link_info) :: links' =>
      '(visuals', st') ← visuals_loop link_name (link_visuals link_info) st;
      '(rest, st'') ← links_loop links' st';
      Ok ((link_name, {| link_visuals := visuals' |}) :: rest, st'')
  end.
End Visuals.

(** The two output dictionaries after the writes of a log; a later write
    to a key replaces an earlier one. *)
Definition visual_data_of (log : list Emitted)
  : gmap string (meshcat_geometry * option meshcat_material) :=
  foldl (fun d e => <[asset_key (em_link e) (em_id e)
                      := (em_geometry e, em_material e)]> d) ∅ log.

Definition pose_data_of (log : list Emitted) : gmap string ndarray :=
  foldl (fun d e => <[asset_key (em_link e) (em_id e) := em_pose e]> d) ∅ log.

(** ** Lines 21-177: the loader, from the parsed document on *)
Definition load_robot (robot : URDF) (urdf_path : string)
    (collapse_fixed_joints replace_cylinder_with_capsule use_mesh_materials : bool)
    (fuel : nat) : option (result Outcome) :=
  let material_map := if use_mesh_materials then [] else _material_map robot in
  let maps :=
    if collapse_fixed_joints then collapse_maps robot fuel
    else Some (Ok (initial_maps robot)) in
  match maps with
  | None => None
  | Some (Raise e) => Some (Raise e)
  | Some (Ok (link_root_map, link_pose_map)) =>
      Some ('(links', (_, log)) ←
              links_loop robot collapse_fixed_joints replace_cylinder_with_capsule
                material_map link_root_map link_pose_map (link_map robot) (∅, []);
            Ok {| resource := {| filename := urdf_path;
                                 visual_data := visual_data_of log;
                                 pose_data := pose_data_of log |};
                  emitted := log;
                  links_after := links' |})
  end.

(** Lines 18-177, with [urdf.URDF.load] as a parameter. *)
Definition load_urdf_with_yourdfpy (URDF_load : string → result URDF)
    (urdf_path : string)
    (collapse_fixed_joints replace_cylinder_with_capsule use_mesh_materials : bool)
    (fuel : nat) : option (result Outcome) :=
  match URDF_load urdf_path with
  | Raise e => Some (Raise e)
  | Ok robot =>
      load_robot robot urdf_path collapse_fixed_joints
        replace_cylinder_with_capsule use_mesh_materials fuel
  end.

End Model.

(** ** The vocabulary of the asset claims *)

Section Assets.
Context `{np : Numpy} {tm : TrimeshLib}.

(** *** What a call shows *)

(** The call returned a resource. *)
Definition returned (r : option (result Outcome)) : bool :=
  match r with
  | Some (Ok _) => true
  | _ => false
  end.

(** The exception of a call that raised. *)
Definition raised (r : option (result Outcome)) : option exn :=
  match r with
  | Some (Raise e) => Some e
  | _ => None
  end.

(** The writes of a call that returned: their keys and their poses. *)
Definition written (r : option (result Outcome)) : list (string * ndarray) :=
  match r with
  | Some (Ok out) =>
      (fun e => (asset_key (em_link e) (em_id e), em_pose e)) <$> emitted out
  | _ => []
  end.

(** [pose_data[key]] of the returned resource. *)
Definition pose_at (key : string) (r : option (result Outcome)) : option ndarray :=
  match r with
  | Some (Ok out) => pose_data (resource out) !! key
  | _ => None
  end.

(** The origins of the visuals of a link table, link by link. *)
Definition origins_of (links : list (string * Link))
  : list (string * list (option ndarray)) :=
  (fun l => (l.1, visual_origin <$> link_visuals l.2)) <$> links.

(** The indices written under one canonical link, in the order of the
    writes. *)
Definition ids_of (link : string) (log : list Emitted) : list Z :=
  em_id <$> filter (fun e => em_link e = link) log.

(** The invariant of [link_mesh_count]: a link without an entry has no
    write yet, and the entry of a link is the last index written under
    it, [-1] when its visuals gave no geometry so far. *)
Definition count_inv (link_mesh_count : gmap string Z) (log : list Emitted)
  : Prop :=
  ∀ link,
    match link_mesh_count !! link with
    | None => ids_of link log = []
    | Some c => -1 ≤ c ∧ ids_of link log = seqZ 0 (c + 1)
    end.

(** The visuals of a link table, each with the name of the link that owns
    it, in the order of the loops of lines 58-59. *)
Definition scanned (links : list (string * Link)) : list (string * Visual) :=
  links ≫= (fun l => (fun visual => (l.1, visual)) <$> link_visuals l.2).

(** One entry of the three lists of a visual: a geometry with its material
    and its pose (the [zip] of line 166). *)
Abbreviation entry :=
  (meshcat_geometry * (option meshcat_material * ndarray))%type.

(** What a write holds besides its index: the canonical link and the
    entry. *)
Definition entry_of (e : Emitted) : string * entry :=
  (em_link e, (em_geometry e, (em_material e, em_pose e))).

(** [yields ... item group]: lines 60-151 give, for the visual [item.2] of
    the link [item.1], as many materials and poses as geometries, the
    entries [group.2] (one per geometry, the sub-meshes of a mesh file
    included), and lines 154-157 give [group.1] as the canonical link to
    write them under. *)
Definition yields (robot : URDF)
    (collapse_fixed_joints replace_cylinder_with_capsule : bool)
    (material_map : list (string * Material))
    (link_root_map : gmap string string) (link_pose_map : gmap string ndarray)
    (item : string * Visual) (group : string * list entry) : Prop :=
  ∃ visual' geometries mats poses,
    visual_batch robot collapse_fixed_joints replace_cylinder_with_capsule
      material_map link_pose_map item.1 item.2
      = Ok (visual', (geometries, mats, poses)) ∧
    length mats = length geometries ∧
    length poses = length geometries ∧
    group.2 = zip geometries (zip mats poses) ∧
    (if collapse_fixed_joints then link_root_map !! item.1 = Some group.1
     else group.1 = item.1).

(** The entries of the visuals of a scan, each with its canonical link, in
    order. *)
Definition entries_of (groups : list (string * list entry))
  : list (string * entry) :=
  groups ≫= (fun group => (fun en => (group.1, en)) <$> group.2).

(** The mesh files the loader has a branch for (lines 83, 100, 114, 120). *)
Definition supported_extension (mesh_filename : string) : bool :=
  endswith (lower mesh_filename) "obj" || endswith (lower mesh_filename) "dae"
  || endswith (lower mesh_filename) "stl" || endswith (lower mesh_filename) "glb".

(** A visual the dispatch has no branch for: a mesh file of another
    extension, or a geometry that is no mesh, sphere, box or cylinder. *)
Definition unsupported_visual (robot : URDF) (visual : Visual) : bool :=
  let geom := visual_geometry visual in
  match geom_mesh geom with
  | Some mesh =>
      negb (supported_extension (filename_handler robot (mesh_filename mesh)))
  | None =>
      match geom_sphere geom, geom_box geom, geom_cylinder geom with
      | None, None, None => true
      | _, _, _ => false
      end
  end.

(** [t] is the transform of a node of the scene graph of the mesh file of
    the visual. *)
Definition scene_transform_of (robot : URDF) (visual : Visual) (t : ndarray)
  : Prop :=
  ∃ mesh s node_name node,
    geom_mesh (visual_geometry visual) = Some mesh ∧
    (trimesh_load (filename_handler robot (mesh_filename mesh)) = Ok (TScene s) ∨
     trimesh_load_scene (filename_handler robot (mesh_filename mesh)) = Ok s) ∧
    (node_name, node) ∈ scene_graph s ∧ t = node.1.

(** A pose made from the origin [o] of a visual alone, by kind of emitted
    geometry: [o] itself, [o] after the cylinder axis rotation, or [o]
    times the transform of a node of the mesh file. *)
Definition local_pose (robot : URDF) (visual : Visual) (o : ndarray)
    (g : meshcat_geometry) (p : ndarray) : Prop :=
  match g with
  | Sphere _ | Box _ | ObjMeshGeometry _ _ _ | DaeMeshGeometry _ => p = o
  | Cylinder _ _ | Capsule _ _ => p = rot_block o
  | TriangularMeshGeometry _ _ =>
      p = o ∨ ∃ t, scene_transform_of robot visual t ∧ p = matmul o t
  end.



End Assets.

(** ** Well-formed and malformed trees *)

Section Tree.
Context `{np : Numpy}.
Variable robot : URDF.

(** The links the base link leads to along joints. *)
Inductive reachable : string → Prop :=
  | reachable_base : reachable (base_link robot)
  | reachable_child name j :
      (name, j) ∈ joint_map robot →
      reachable (joint_parent j) →
      reachable (joint_child j).

Definition children : list string := (fun nj => joint_child nj.2) <$> joint_map robot.

(** A tree rooted at the base link: joint names are the keys of a
    dictionary, no link is the child of two joints, the base link is the
    child of none, and every joint hangs from a link the base leads to. *)
Record well_formed : Prop := {
  wf_names : NoDup (joint_map robot).*1;
  wf_children : NoDup (base_link robot :: children);
  wf_reachable :
    Forall (fun nj => reachable (joint_parent nj.2)) (joint_map robot)
}.

(** A joint whose parent is never resolved: a cycle away from the base or
    a parent that is no link of the tree. *)
Definition malformed : Prop :=
  NoDup (joint_map robot).*1 ∧
  Exists (fun nj => ¬ reachable (joint_parent nj.2)) (joint_map robot).

(** The states [(_link_cache, _joint_sorted)] the sort goes through. *)
Inductive resolved : list string * list string → Prop :=
  | resolved_init : resolved ([base_link robot], [])
  | resolved_joint cache sorted name j :
      resolved (cache, sorted) →
      name ∉ sorted →
      (name, j) ∈ joint_map robot →
      joint_parent j ∈ cache →
      resolved (cache ++ [joint_child j], sorted ++ [name]).

(** The equations of §4.1 step 3 for one joint, read in the two maps. *)
Definition joint_resolved_in (link_root_map : gmap string string)
    (link_pose_map : gmap string ndarray) (j : Joint) : Prop :=
  if bool_decide (joint_type j = "fixed") then
    is_Some (link_root_map !! joint_parent j) ∧
    link_root_map !! joint_child j = link_root_map !! joint_parent j ∧
    link_pose_map !! joint_child j
      = (fun p => matmul p (joint_origin j)) <$> link_pose_map !! joint_parent j
  else
    link_root_map !! joint_child j = Some (joint_child j) ∧
    link_pose_map !! joint_child j = Some eye4.

(** What the two maps are once the joints of [sorted] have been folded
    in, [cache] being the links met so far. *)
Record collapse_inv (cache sorted : list string)
    (link_root_map : gmap string string) (link_pose_map : gmap string ndarray)
  : Prop := {
  ci_root_dom : ∀ x, is_Some (link_root_map !! x) ↔ x ∈ cache;
  ci_pose_dom : ∀ x, is_Some (link_pose_map !! x) ↔ x ∈ cache;
  ci_base_root : link_root_map !! base_link robot = Some (base_link robot);
  ci_base_pose : link_pose_map !! base_link robot = Some eye4;
  ci_joints : ∀ name j,
    name ∈ sorted → (name, j) ∈ joint_map robot →
    joint_resolved_in link_root_map link_pose_map j;
  ci_roots : ∀ x r,
    link_root_map !! x = Some r →
    link_root_map !! r = Some r ∧ link_pose_map !! r = Some eye4
}.

(** Each joint of [sorted] comes after the joint that brings its parent,
    unless it hangs from the base link. *)
Definition parent_before_child (sorted : list string) : Prop :=
  ∀ i name j,
    sorted !! i = Some name → (name, j) ∈ joint_map robot →
    joint_parent j = base_link robot ∨
    ∃ i' name' j',
      (i' < i)%nat ∧ sorted !! i' = Some name' ∧
      (name', j') ∈ joint_map robot ∧ joint_child j' = joint_parent j.
End Tree.

(** ** Treating every joint as movable *)

Section Movable.
Context `{np : Numpy} {tm : TrimeshLib}.

(** The document with every joint treated as movable. *)
Definition all_movable (robot : URDF) : URDF :=
  {| base_link := base_link robot;
     joint_map :=
       (fun nj : string * Joint =>
          (nj.1, {| joint_parent := joint_parent nj.2;
                    joint_child := joint_child nj.2;
                    joint_type := "revolute";
                    joint_origin := joint_origin nj.2 |})) <$> joint_map robot;
     link_map := link_map robot;
     _material_map := _material_map robot;
     filename_handler := filename_handler robot |}.



End Movable.


(** ** The vocabulary of the further properties *)

Section Further.
Context `{np : Numpy} {tm : TrimeshLib}.

(** A visual that reaches one of the cylinder branches (lines 137-142): no
    mesh, no sphere, no box, a cylinder. *)
Definition is_cylinder_visual (visual : Visual) : bool :=
  let geom := visual_geometry visual in
  match geom_mesh geom, geom_sphere geom, geom_box geom, geom_cylinder geom with
  | None, None, None, Some _ => true
  | _, _, _, _ => false
  end.

(** A visual as a load with the collapse disabled leaves it. *)
Definition visual_after_disabled (visual : Visual) : Visual :=
  if is_cylinder_visual visual then
    {| visual_geometry := visual_geometry visual;
       visual_origin := rot_block <$> visual_origin visual;
       visual_material := visual_material visual |}
  else visual.

Definition links_after_disabled (links : list (string * Link))
  : list (string * Link) :=
  (fun l => (l.1, {| link_visuals := visual_after_disabled <$> link_visuals l.2 |}))
    <$> links.

(** A write made for a visual of a link of the document, under the root
    recorded for that link and with a pose made from the pose recorded for
    the link times the origin of the visual. *)
Definition written_under_root (robot : URDF) (link_root_map : gmap string string)
    (link_pose_map : gmap string ndarray) (e : Emitted) : Prop :=
  ∃ link_name link_info visual root link_pose,
    (link_name, link_info) ∈ link_map robot ∧
    visual ∈ link_visuals link_info ∧
    link_root_map !! link_name = Some root ∧
    link_pose_map !! link_name = Some link_pose ∧
    em_link e = root ∧
    local_pose robot visual
      (matmul link_pose (default eye4 (visual_origin visual)))
      (em_geometry e) (em_pose e).

(** A visual whose material has no colour of its own and names an entry of
    the material table that has none either (line 73 finds [None], line 74
    reads [.rgba] of it). *)
Definition names_colourless_material (material_map : list (string * Material))
    (visual : Visual) : bool :=
  match visual_material visual with
  | Some material =>
      match material_color material, material_name material with
      | None, Some name =>
          match dict_get material_map name with
          | Some named =>
              match material_color named with
              | None => true
              | Some _ => false
              end
          | None => false
          end
      | _, _ => false
      end
  | None => false
  end.

(** A sphere, a box or a cylinder, without material or with a colour of
    its own. *)
Definition plain_primitive (visual : Visual) : bool :=
  let geom := visual_geometry visual in
  match geom_mesh geom with
  | Some _ => false
  | None =>
      match geom_sphere geom, geom_box geom, geom_cylinder geom with
      | None, None, None => false
      | _, _, _ =>
          match visual_material visual with
          | None => true
          | Some material =>
              match material_color material with
              | Some _ => true
              | None => false
              end
          end
      end
  end.

(** The link names of a link table, each once per visual, in the order of
    the loops of lines 58-59. *)
Definition owners (links : list (string * Link)) : list string :=
  links ≫= (fun l => replicate (length (link_visuals l.2)) l.1).

(** The visuals of a link table, in the same order. *)
Definition all_visuals (links : list (string * Link)) : list Visual :=
  links ≫= (fun l => link_visuals l.2).

(** The material line 149 makes from the colour of the visual itself;
    [None] (line 151) without one. *)
Definition own_colour_material (visual : Visual) : option meshcat_material :=
  material ← visual_material visual;
  c ← material_color material;
  Some (MeshPhongMaterial (clip01 (color_rgba c))).
(** The node line 122 keeps for a geometry name: the dictionary
    comprehension runs over the nodes in the order the graph lists them
    ([scene_graph] is in that order), so the last node that shows the
    geometry wins. *)
Definition node_showing (s : Scene tm_mesh) (name : string)
  : option (string * (ndarray * option string)) :=
  last (filter (fun nd => nd.2.2 = Some name) (scene_graph s)).

(** The nodes named like the geometries of a scene (lines 90 and 109). *)
Definition nodes_named (s : Scene tm_mesh)
  : option (list (ndarray * option string)) :=
  mapM (fun item : string * tm_mesh => dict_get (scene_graph s) item.1)
    (scene_geometry s).

(** The nodes that show the geometries of a scene (lines 124-125). *)
Definition nodes_showing (s : Scene tm_mesh)
  : option (list (ndarray * option string)) :=
  mapM (fun item : string * tm_mesh => snd <$> node_showing s item.1)
    (scene_geometry s).
End Further.

(** * [load_urdf_into_viewer_pin] (lines 180-265)

    The second loader draws straight into a meshcat viewer. The model
    starts from what pinocchio built (the frames of the model and the
    geometry objects of the visual model, lines 184-192) and keeps the
    viewer as the list of the calls made on it: an exception leaves the
    calls made before it in place. *)
Module Pin.

Inductive error : Type :=
  | KeyError | IndexError | TypeError | AttributeError | LibraryError.

Inductive attempt (A : Type) : Type :=
  | Done (a : A)
  | Fail (e : error).
Arguments Done {A} a.
Arguments Fail {A} e.

#[global] Instance attempt_ret : MRet attempt := fun A a => Done a.
#[global] Instance attempt_fmap : FMap attempt := fun A B f m =>
  match m with
  | Done a => Done (f a)
  | Fail e => Fail e
  end.
#[global] Instance attempt_bind : MBind attempt := fun A B f m =>
  match m with
  | Done a => f a
  | Fail e => Fail e
  end.

(** pinocchio, hpp-fcl, numpy, collada and the mesh helpers: the values
    the loader passes around and the calls that read files. *)
Class Libraries : Type := {
  SE3 : Type;
  se3_inverse : SE3 → SE3;
  se3_mul : SE3 → SE3 → SE3;
  matrix : Type;
  homogeneous : SE3 → matrix;
  scalar : Type;
  vector : Type;
  twice : scalar → scalar;
  twice_vector : vector → vector;
  colour : Type;
  opacity_of : colour → scalar;
  is_default_colour : colour → bool;
  hex : Type;
  colour_hex : colour → attempt hex;
  scale : Type;
  dae : Type;
  dae_from_file : string → attempt dae;
  image_data : Type;
  collada_images : string → attempt (list (option string * image_data));
  png : Type;
  png_of_data : image_data → png;
  png_from_file : string → attempt png;
  stream : Type;
  load_mesh : string → scale → attempt stream
}.

Section Loader.
Context `{lib : Libraries}.

Inductive FrameType : Type := OP_FRAME | JOINT | FIXED_JOINT | BODY | SENSOR.

#[global] Instance FrameType_eq_dec : EqDecision FrameType.
Proof. solve_decision. Defined.

Record Frame : Type := {
  frame_name : string;
  frame_type : FrameType;
  frame_parent : nat;
  frame_placement : SE3
}.

(** [geom.geometry]: the hpp-fcl shape behind a geometry object. Reading
    an attribute the shape does not have ([halfSide] of a sphere, say) is
    an [AttributeError]. *)
Inductive Shape : Type :=
  | BoxShape (halfSide : vector)
  | SphereShape (radius : scalar)
  | CylinderShape (radius halfLength : scalar)
  | MeshShape.

Record GeometryObject : Type := {
  meshPath : string;
  meshColor : colour;
  meshScale : scale;
  meshTexturePath : string;
  geometry : Shape;
  parentFrame : nat;
  parentJoint : nat;
  placement : SE3
}.

(** meshcat geometries and materials, as this loader builds them. *)
Inductive viewer_geometry : Type :=
  | Box (lengths : vector)
  | Sphere (radius : scalar)
  | Cylinder (height radius : scalar)
  | DaeMeshGeometry (contents : dae)
  | ObjMeshGeometry (contents : stream).

Inductive viewer_material : Type :=
  | MeshLambertMap (texture : png) (opacity : scalar)
  | MeshLambertColor (color : hex) (opacity : scalar).

(** The two calls made on the viewer (lines 264-265). *)
Inductive call : Type :=
  | set_object (path : string) (g : viewer_geometry) (material : option viewer_material)
  | set_transform (path : string) (m : matrix).

(** [enumerate(xs)]. *)
Definition enumerate {A} (xs : list A) : list (nat * A) :=
  zip (seq 0 (length xs)) xs.

(** Line 189: [{i: frame.name for i, frame in enumerate(robot.frames)}]. *)
Definition frame_id_map_of (frames : list Frame) : gmap nat string :=
  foldl (fun m item => <[item.1 := frame_name item.2]> m) ∅ (enumerate frames).

(** Lines 204-208, the body of the loop over the frames. *)
Definition parent_frame_visit (collapsed_link_names : list string)
    (parent_frame_map : gmap nat nat) (item : nat * Frame) : gmap nat nat :=
  let '(frame_id, link_info) := item in
  if bool_decide (frame_type link_info ≠ BODY) then parent_frame_map
  else
    let name := frame_name link_info in
    if bool_decide (name ∈ collapsed_link_names)
    then <[frame_parent link_info := frame_id]> parent_frame_map
    else parent_frame_map.

(** Lines 201-208. *)
Definition parent_frame_map_of (frames : list Frame)
    (collapsed_link_names : list string) : gmap nat nat :=
  foldl (parent_frame_visit collapsed_link_names) ∅ (enumerate frames).

(** The value of [frame_id] (line 251): an index of a frame when the
    collapse is on, the name of a frame when it is off. *)
Inductive pyval : Type :=
  | PyInt (i : nat)
  | PyStr (s : string).

Definition lookup_or_fail {V} (m : gmap nat V) (k : nat) : attempt V :=
  match m !! k with
  | Some v => Done v
  | None => Fail KeyError
  end.

(** [frame_id_map[frame_id]] (line 252): the keys are integers, a string
    is never one of them. *)
Definition frame_id_map_get (frame_id_map : gmap nat string) (key : pyval)
  : attempt string :=
  match key with
  | PyInt i => lookup_or_fail frame_id_map i
  | PyStr _ => Fail KeyError
  end.

(** [robot.frames[frame_id]] (line 253). *)
Definition frames_get (frames : list Frame) (key : pyval) : attempt Frame :=
  match key with
  | PyInt i =>
      match frames !! i with
      | Some f => Done f
      | None => Fail IndexError
      end
  | PyStr _ => Fail TypeError
  end.

(** Lines 213-240: the geometry and the texture material. *)
Definition object_of (geom : GeometryObject)
  : attempt (viewer_geometry * option viewer_material) :=
  let opacity := opacity_of (meshColor geom) in
  if bool_decide (meshPath geom = "BOX") then
    match geometry geom with
    | BoxShape halfSide => Done (Box (twice_vector halfSide), None)
    | _ => Fail AttributeError
    end
  else if bool_decide (meshPath geom = "SPHERE") then
    match geometry geom with
    | SphereShape radius => Done (Sphere radius, None)
    | CylinderShape radius _ => Done (Sphere radius, None)
    | _ => Fail AttributeError
    end
  else if bool_decide (meshPath geom = "CYLINDER") then
    match geometry geom with
    | CylinderShape radius halfLength =>
        Done (Cylinder (twice halfLength) radius, None)
    | _ => Fail AttributeError
    end
  else
    let path := meshPath geom in
    if endswith path "dae" then
      contents ← dae_from_file path;
      images ← collada_images (meshPath geom);
      let img_info := filter (fun im => is_Some im.1) images in
      match img_info with
      | im :: _ =>
          Done (DaeMeshGeometry contents,
                Some (MeshLambertMap (png_of_data im.2) opacity))
      | [] => Done (DaeMeshGeometry contents, None)
      end
    else
      exp_mesh ← load_mesh (meshPath geom) (meshScale geom);
      if bool_decide (meshTexturePath geom ≠ "") then
        texture ← png_from_file (meshTexturePath geom);
        Done (ObjMeshGeometry exp_mesh, Some (MeshLambertMap texture opacity))
      else Done (ObjMeshGeometry exp_mesh, None).

(** Lines 243-247: a colour that is not the default replaces the
    material. *)
Definition material_of (geom : GeometryObject) (mat : option viewer_material)
  : attempt (option viewer_material) :=
  if negb (is_default_colour (meshColor geom)) then
    color ← colour_hex (meshColor geom);
    Done (Some (MeshLambertColor color (opacity_of (meshColor geom))))
  else Done mat.

(** Lines 212-265, the body of the loop over the geometry objects. The
    state is [(link_mesh_count, calls made on the viewer)];
    [parent_frame_map] is [None] when the collapse is off, where the name
    is not bound. *)
Definition geometry_visit (frames : list Frame) (frame_id_map : gmap nat string)
    (parent_frame_map : option (gmap nat nat))
    (st : gmap string Z * list call) (geom : GeometryObject)
  : attempt (gmap string Z * list call) :=
  let '(link_mesh_count, viewer) := st in
  '(g, mat) ← object_of geom;
  mat ← material_of geom mat;
  let geom_frame_id := parentFrame geom in
  frame_id ←
    match parent_frame_map with
    | None => PyStr <$> lookup_or_fail frame_id_map geom_frame_id
    | Some parent_frame_map =>
        PyInt <$> lookup_or_fail parent_frame_map (parentJoint geom)
    end;
  link_name ← frame_id_map_get frame_id_map frame_id;
  link_info ← frames_get frames frame_id;
  let link_pose := frame_placement link_info in
  let link_mesh_count :=
    match link_mesh_count !! link_name with
    | None => <[link_name := 0]> link_mesh_count
    | Some c => <[link_name := c + 1]> link_mesh_count
    end in
  geom_id ←
    match link_mesh_count !! link_name with
    | Some c => Done c
    | None => Fail KeyError
    end;
  let relative_pose :=
    homogeneous (se3_mul (se3_inverse link_pose) (placement geom)) in
  Done (link_mesh_count,
        viewer ++ [set_object (asset_key link_name geom_id) g mat;
                   set_transform (asset_key link_name geom_id) relative_pose]).

(** [for geom in geometryObjects], the state kept when an exception
    leaves the loop. *)
Fixpoint geometry_loop (frames : list Frame) (frame_id_map : gmap nat string)
    (parent_frame_map : option (gmap nat nat))
    (geoms : list GeometryObject) (st : gmap string Z * list call)
  : (gmap string Z * list call) * option error :=
  match geoms with
  | [] => (st, None)
  | geom :: geoms' =>
      match geometry_visit frames frame_id_map parent_frame_map st geom with
      | Done st' => geometry_loop frames frame_id_map parent_frame_map geoms' st'
      | Fail e => (st, Some e)
      end
  end.

(** Lines 189-265: the calls the loader makes on the viewer, and the
    exception that ended the call if one did. *)
Definition load_urdf_into_viewer_pin (frames : list Frame)
    (geometryObjects : list GeometryObject) (collapsed_link_names : list string)
  : list call * option error :=
  let frame_id_map := frame_id_map_of frames in
  let collapse_fixed_joints := bool_decide (0 < length collapsed_link_names)%nat in
  let parent_frame_map :=
    if collapse_fixed_joints
    then Some (parent_frame_map_of frames collapsed_link_names)
    else None in
  let '((_, viewer), raised) :=
    geometry_loop frames frame_id_map parent_frame_map geometryObjects (∅, []) in
  (viewer, raised).

(** *** Vocabulary *)

(** The frame a geometry is drawn under when the collapse is on: the last
    body frame named in [collapsed_link_names] whose parent is the parent
    joint of the geometry. *)
Definition target_frame (frames : list Frame) (collapsed_link_names : list string)
    (joint : nat) : option (nat * Frame) :=
  last (filter (fun item : nat * Frame =>
                  frame_type item.2 = BODY ∧
                  frame_name item.2 ∈ collapsed_link_names ∧
                  frame_parent item.2 = joint)
          (enumerate frames)).

(** One object drawn: the two calls of lines 264-265 with their common
    path. *)
Record Drawn : Type := {
  dr_link : string;
  dr_id : Z;
  dr_geometry : viewer_geometry;
  dr_material : option viewer_material;
  dr_pose : matrix
}.

Definition calls_of (d : Drawn) : list call :=
  [set_object (asset_key (dr_link d) (dr_id d)) (dr_geometry d) (dr_material d);
   set_transform (asset_key (dr_link d) (dr_id d)) (dr_pose d)].

(** The indices drawn under a link name, in order. *)
Definition ids_under (link_name : string) (ds : list Drawn) : list Z :=
  dr_id <$> filter (fun d => dr_link d = link_name) ds.

(** The counter against the objects drawn so far. *)
Definition counted (link_mesh_count : gmap string Z) (ds : list Drawn) : Prop :=
  ∀ link_name,
    match link_mesh_count !! link_name with
    | None => ids_under link_name ds = []
    | Some c => 0 ≤ c ∧ ids_under link_name ds = seqZ 0 (c + 1)
    end.

(** An object drawn for a geometry with the collapse on: under the name
    of the target frame of its parent joint, at the placement of the
    geometry seen from that frame. *)
Definition drawn_under_target (frames : list Frame)
    (collapsed_link_names : list string) (geom : GeometryObject) (d : Drawn)
  : Prop :=
  ∃ frame_id link_info,
    target_frame frames collapsed_link_names (parentJoint geom)
      = Some (frame_id, link_info) ∧
    dr_link d = frame_name link_info ∧
    dr_link d ∈ collapsed_link_names ∧
    dr_pose d
      = homogeneous (se3_mul (se3_inverse (frame_placement link_info))
                       (placement geom)).

(** What lines 213-247 give for a geometry, or the exception they end
    with. *)
Definition built (geom : GeometryObject)
  : attempt (viewer_geometry * option viewer_material) :=
  '(g, mat) ← object_of geom;
  mat ← material_of geom mat;
  Done (g, mat).
End Loader.
End Pin.

(** ** An exact backend and some documents

    Integer matrices with the exact product stand for the arrays, and a
    handful of mesh files for the file system; the examples and scenarios
    below are evaluated on them. *)

Module Exact.

Definition dot (row col : list Z) : Z := foldr Z.add 0 (zip_with Z.mul row col).

Definition column (k : nat) (b : list (list Z)) : list Z :=
  (fun r => nth k r 0) <$> b.

Definition mat_mul (a b : list (list Z)) : list (list Z) :=
  (fun row => (fun k => dot row (column k b)) <$> seq 0 4) <$> a.

Definition identity : list (list Z) :=
  [[1; 0; 0; 0]; [0; 1; 0; 0]; [0; 0; 1; 0]; [0; 0; 0; 1]].

(** [euler2mat(pi / 2, 0, 0)] is the quarter turn about x,
    [[1,0,0],[0,0,-1],[0,1,0]]; a row [a b c] of the block times it is
    [a c (-b)]. *)
Definition rot_row (row : list Z) : list Z :=
  match row with
  | [a; b; c; d] => [a; c; - b; d]
  | _ => row
  end.

Definition rot (a : list (list Z)) : list (list Z) :=
  match a with
  | [r0; r1; r2; r3] => [rot_row r0; rot_row r1; rot_row r2; r3]
  | _ => a
  end.

Definition numpy : Numpy := {|
  ndarray := list (list Z);
  eye4 := identity;
  matmul := mat_mul;
  rot_block := rot;
  rgba := list Z;
  clip01 := fmap (fun x => Z.max 0 (Z.min 1 x));
  vec3 := list Z;
  ones3 := [1; 1; 1];
  float := Z
|}.

Definition translation (x y z : Z) : @ndarray numpy :=
  [[1; 0; 0; x]; [0; 1; 0; y]; [0; 0; 1; z]; [0; 0; 0; 1]].

(** A quarter turn about z, then a shift. *)
Definition turn_z (x y z : Z) : @ndarray numpy :=
  [[0; -1; 0; x]; [1; 0; 0; y]; [0; 0; 1; z]; [0; 0; 0; 1]].

(** Mesh files: a glb hand of two parts, a dae arm of one part placed
    away from the origin of its file, an stl tool. *)
Definition hand_glb : @Scene numpy string := {|
  scene_geometry := [("palm", "palm mesh"); ("thumb", "thumb mesh")];
  scene_graph := [("world", (eye4, None));
                  ("palm_node", (translation 0 0 1, Some "palm"));
                  ("thumb_node", (translation 0 2 1, Some "thumb"))]
|}.

Definition arm_dae : @Scene numpy string := {|
  scene_geometry := [("upper", "upper mesh")];
  scene_graph := [("world", (eye4, None));
                  ("upper", (translation 0 0 7, Some "upper"))]
|}.

Definition trimesh : @TrimeshLib numpy := {|
  tm_mesh := string;
  trimesh_load := fun f =>
    if bool_decide (f = "arm.dae") then Ok (TScene arm_dae)
    else if bool_decide (f = "tool.stl") then Ok (Trimesh "tool mesh")
    else Raise LoaderError;
  trimesh_load_scene := fun f =>
    if bool_decide (f = "hand.glb") then Ok hand_glb
    else Raise LoaderError
|}.

Definition joint (parent child type : string) (origin : @ndarray numpy)
  : @Joint numpy :=
  {| joint_parent := parent; joint_child := child;
     joint_type := type; joint_origin := origin |}.

Definition no_geometry : @Geometry numpy :=
  {| geom_mesh := None; geom_sphere := None; geom_box := None;
     geom_cylinder := None |}.

Definition sphere (r : Z) (origin : option (@ndarray numpy)) : @Visual numpy :=
  {| visual_geometry :=
       {| geom_mesh := None; geom_sphere := Some {| sphere_radius := r : @float numpy |};
          geom_box := None; geom_cylinder := None |};
     visual_origin := origin; visual_material := None |}.

Definition cylinder (r l : Z) (origin : option (@ndarray numpy)) : @Visual numpy :=
  {| visual_geometry :=
       {| geom_mesh := None; geom_sphere := None; geom_box := None;
          geom_cylinder :=
            Some {| cylinder_radius := r : @float numpy; cylinder_length := l |} |};
     visual_origin := origin; visual_material := None |}.

Definition mesh (file : string) (origin : option (@ndarray numpy)) : @Visual numpy :=
  {| visual_geometry :=
       {| geom_mesh := Some {| mesh_filename := file; mesh_scale := None |};
          geom_sphere := None; geom_box := None; geom_cylinder := None |};
     visual_origin := origin; visual_material := None |}.

Definition link (visuals : list (@Visual numpy)) : @Link numpy :=
  {| link_visuals := visuals |}.

Definition document (base : string) (joints : list (string * @Joint numpy))
    (links : list (string * @Link numpy)) : @URDF numpy :=
  {| base_link := base; joint_map := joints; link_map := links;
     _material_map := []; filename_handler := fun fname => fname |}.

(** Scenario A of the specification, B -fixed-> L1 -fixed-> L2 -movable->
    L3, with the joints listed leaf first so that the sort needs one pass
    per joint. *)
Definition scenario_A_joints : list (string * @Joint numpy) :=
  [("j3", joint "L2" "L3" "revolute" (translation 0 0 5));
   ("j2", joint "L1" "L2" "fixed" (turn_z 0 2 0));
   ("j1", joint "B" "L1" "fixed" (translation 1 0 0))].

Definition scenario_A_links : list (string * @Link numpy) :=
  [("B", link [sphere 1 None; sphere 2 (Some (translation 0 0 3))]);
   ("L1", link [mesh "hand.glb" (Some (translation 4 0 0))]);
   ("L2", link [sphere 3 None]);
   ("L3", link [cylinder 1 2 (Some (translation 0 6 0))])].

Definition scenario_A : @URDF numpy :=
  document "B" scenario_A_joints scenario_A_links.

(** The same tree with the joints listed root first. *)
Definition scenario_A_root_first : @URDF numpy :=
  document "B" (reverse scenario_A_joints) scenario_A_links.

(** Scenario D: a joint whose parent is neither the base link nor the
    child of a joint. *)
Definition scenario_D : @URDF numpy :=
  document "B" [("j1", joint "X" "Y" "fixed" eye4)]
    [("B", link [sphere 1 None])].


(** A link whose mesh is the dae arm, placed at (1, 0, 0). *)
Definition scenario_dae : @URDF numpy :=
  document "B" [] [("arm", link [mesh "arm.dae" (Some (translation 1 0 0))])].

(** Scenario C: a link with one cylinder, placed at (0, 6, 0). *)
Definition scenario_C : @URDF numpy :=
  document "B" [] [("B", link [cylinder 1 2 (Some (translation 0 6 0))])].

(** A mesh file with no branch in the loader, and a visual whose geometry
    is of no known kind; each comes after a sphere. *)
Definition scenario_ply : @URDF numpy :=
  document "B" [] [("B", link [sphere 1 None; mesh "wheel.ply" None])].

Definition scenario_no_kind : @URDF numpy :=
  document "B" []
    [("B", link [sphere 1 None;
                 {| visual_geometry := no_geometry; visual_origin := None;
                    visual_material := None |}])].

End Exact.


(** ** Further documents, mesh files and a model for the second loader *)

Module Samples.

(** An obj crate of two parts, each with a node of its name, and a glb
    axle whose one wheel is shown by two nodes. *)
Definition crate_obj : @Scene Exact.numpy string := {|
  scene_geometry := [("lid", "lid mesh"); ("body", "body mesh")];
  scene_graph := [("world", (eye4, None));
                  ("body", (Exact.translation 0 0 1, Some "body"));
                  ("lid", (Exact.translation 0 0 2, Some "lid"))]
|}.

Definition axle_glb : @Scene Exact.numpy string := {|
  scene_geometry := [("wheel", "wheel mesh")];
  scene_graph := [("front", (Exact.translation 3 0 0, Some "wheel"));
                  ("rear", (Exact.translation (-3) 0 0, Some "wheel"))]
|}.

Definition files : @TrimeshLib Exact.numpy := {|
  tm_mesh := string;
  trimesh_load := fun f =>
    if bool_decide (f = "crate.OBJ") then Ok (TScene crate_obj)
    else if bool_decide (f = "arm.dae") then Ok (TScene Exact.arm_dae)
    else Raise LoaderError;
  trimesh_load_scene := fun f =>
    if bool_decide (f = "axle.glb") then Ok axle_glb
    else Raise LoaderError
|}.

Definition crate : @Mesh Exact.numpy :=
  {| mesh_filename := "crate.OBJ"; mesh_scale := None |}.
Definition arm : @Mesh Exact.numpy :=
  {| mesh_filename := "arm.dae"; mesh_scale := None |}.
Definition axle : @Mesh Exact.numpy :=
  {| mesh_filename := "axle.glb"; mesh_scale := None |}.

(** A link that no joint leads to. *)
Definition stray : @URDF Exact.numpy :=
  Exact.document "B" []
    [("B", Exact.link [Exact.sphere 1 None]);
     ("floating", Exact.link [Exact.sphere 2 None])].

(** A sphere whose material names an entry of the material table that has
    no colour. *)
Definition steel : @Material Exact.numpy :=
  {| material_name := Some "steel"; material_color := None |}.

Definition steel_sphere : @Visual Exact.numpy :=
  {| visual_geometry := visual_geometry (Exact.sphere 1 None);
     visual_origin := None; visual_material := Some steel |}.

Definition colourless : @URDF Exact.numpy :=
  {| base_link := "B"; joint_map := [];
     link_map := [("B", Exact.link [steel_sphere])];
     _material_map := [("steel", steel)];
     filename_handler := fun fname => fname |}.

(** Primitives only: a red sphere and a cylinder under two links. *)
Definition red_sphere : @Visual Exact.numpy :=
  {| visual_geometry := visual_geometry (Exact.sphere 1 None);
     visual_origin := Some (Exact.translation 0 0 3);
     visual_material :=
       Some {| material_name := None;
               material_color := Some {| color_rgba := ([1; 0; 0; 1] : @rgba Exact.numpy) |} |} |}.

Definition primitives : @URDF Exact.numpy :=
  Exact.document "B" [("j1", Exact.joint "B" "L1" "fixed" (Exact.translation 1 0 0))]
    [("B", Exact.link [red_sphere; Exact.sphere 2 None]);
     ("L1", Exact.link [Exact.cylinder 1 2 (Some (Exact.translation 0 6 0))])].

(** The links of scenario A under a joint that hangs from nothing. *)
Definition scenario_A_broken : @URDF Exact.numpy :=
  Exact.document "B" [("j1", Exact.joint "X" "Y" "fixed" eye4)]
    Exact.scenario_A_links.

(** The second loader: placements along one axis, colours as lists of
    tenths, files that load as their names. *)
Definition pin_lib : Pin.Libraries := {|
  Pin.SE3 := Z;
  Pin.se3_inverse := Z.opp;
  Pin.se3_mul := Z.add;
  Pin.matrix := Z;
  Pin.homogeneous := fun x => x;
  Pin.scalar := Z;
  Pin.vector := list Z;
  Pin.twice := Z.mul 2;
  Pin.twice_vector := fmap (Z.mul 2);
  Pin.colour := list Z;
  Pin.opacity_of := fun c => nth 3 c 0;
  Pin.is_default_colour := fun c => bool_decide (c = [9; 9; 9; 10]);
  Pin.hex := list Z;
  Pin.colour_hex := fun c => Pin.Done (take 3 c);
  Pin.scale := Z;
  Pin.dae := string;
  Pin.dae_from_file := fun f => Pin.Done f;
  Pin.image_data := string;
  Pin.collada_images := fun f => Pin.Done [];
  Pin.png := string;
  Pin.png_of_data := fun d => d;
  Pin.png_from_file := fun f => Pin.Done f;
  Pin.stream := string;
  Pin.load_mesh := fun f _ =>
    if bool_decide (f = "missing.stl") then Pin.Fail Pin.LibraryError
    else Pin.Done f
|}.

#[local] Existing Instance pin_lib.

Definition frame (name : string) (type : Pin.FrameType) (parent : nat)
    (at_ : @Pin.SE3 pin_lib) : @Pin.Frame pin_lib :=
  {| Pin.frame_name := name; Pin.frame_type := type;
     Pin.frame_parent := parent; Pin.frame_placement := at_ |}.

(** A base with a fixed camera mount (both on joint 0) and an arm on
    joint 1. *)
Definition frames : list (@Pin.Frame pin_lib) :=
  [frame "universe" Pin.OP_FRAME 0 0;
   frame "root_joint" Pin.FIXED_JOINT 0 0;
   frame "base" Pin.BODY 0 0;
   frame "shoulder" Pin.JOINT 0 5;
   frame "arm" Pin.BODY 1 0;
   frame "mount_joint" Pin.FIXED_JOINT 0 2;
   frame "mount" Pin.BODY 0 2].

Definition ball (parent_frame parent_joint : nat)
    (at_ : @Pin.SE3 pin_lib) : @Pin.GeometryObject pin_lib :=
  {| Pin.meshPath := "SPHERE"; Pin.meshColor := ([9; 9; 9; 10] : @Pin.colour pin_lib);
     Pin.meshScale := (1 : @Pin.scale pin_lib); Pin.meshTexturePath := "";
     Pin.geometry := Pin.SphereShape (1 : @Pin.scalar pin_lib);
     Pin.parentFrame := parent_frame; Pin.parentJoint := parent_joint;
     Pin.placement := at_ |}.

Definition geometryObjects : list (@Pin.GeometryObject pin_lib) :=
  [ball 2 0 0; ball 4 1 1; ball 6 0 7].
End Samples.
(** * Proofs *)

Section Proofs.
Context `{np : Numpy} {tm : TrimeshLib}.

(** ** Dictionaries and loops *)

Lemma dict_get_elem {V} (d : list (string * V)) k v :
  dict_get d k = Some v → (k, v) ∈ d.
Proof.
  induction d as [|[k' v'] d IH]; simpl; [done|].
  case_bool_decide as Hk.
  - intros [= ->]. subst. left.
  - intros H. right. auto.
Qed.

Lemma dict_get_NoDup {V} (d : list (string * V)) k v :
  NoDup d.*1 → (k, v) ∈ d → dict_get d k = Some v.
Proof.
  induction d as [|[k' v'] d IH]; simpl.
  - intros _ H. by apply elem_of_nil in H.
  - intros Hnd Hin. apply NoDup_cons in Hnd as [Hk' Hnd].
    apply elem_of_cons in Hin as [[= -> ->]|Hin].
    + by rewrite bool_decide_eq_true_2.
    + rewrite bool_decide_eq_false_2; [by apply IH|].
      intros ->. apply Hk'. apply list_elem_of_fmap. by exists (k, v).
Qed.

Lemma dict_get_key {V} (d : list (string * V)) k :
  k ∈ d.*1 → is_Some (dict_get d k).
Proof.
  induction d as [|[k' v'] d IH]; simpl.
  - intros H. by apply elem_of_nil in H.
  - intros H. case_bool_decide; [by eexists|].
    apply elem_of_cons in H as [?|?]; [congruence|auto].
Qed.

Lemma for_each_app {S A} (body : S → A → result S) xs ys st :
  for_each body (xs ++ ys) st
  = (st' ← for_each body xs st; for_each body ys st').
Proof.
  revert st. induction xs as [|x xs IH]; intros st; simpl; [done|].
  destruct (body st x) as [st'|e]; simpl; [apply IH|done].
Qed.

Lemma NoDup_fmap_inj_on {A B} (f : A → B) (l : list A) x y :
  NoDup (f <$> l) → x ∈ l → y ∈ l → f x = f y → x = y.
Proof.
  induction l as [|a l IH]; simpl.
  - intros _ H. by apply elem_of_nil in H.
  - intros Hnd Hx Hy Hf. apply NoDup_cons in Hnd as [Ha Hnd].
    apply elem_of_cons in Hx as [->|Hx]; apply elem_of_cons in Hy as [->|Hy];
      [done| | |by apply IH].
    + exfalso. apply Ha. rewrite Hf. by apply list_elem_of_fmap_2.
    + exfalso. apply Ha. rewrite <- Hf. by apply list_elem_of_fmap_2.
Qed.

(** ** The joint sort *)

Section Sort.
Variable robot : URDF.
Hypothesis Hnames : NoDup (joint_map robot).*1.

Lemma resolved_sorted_names st :
  resolved robot st → ∀ name, name ∈ st.2 → name ∈ (joint_map robot).*1.
Proof.
  induction 1 as [|cache sorted name j _ IH Hn Hj Hp]; simpl.
  - intros ? H. by apply elem_of_nil in H.
  - intros n Hin. apply elem_of_app in Hin as [Hin|Hin]; [by apply IH|].
    apply list_elem_of_singleton in Hin as ->.
    apply list_elem_of_fmap. by exists (name, j).
Qed.

Lemma resolved_NoDup st : resolved robot st → NoDup st.2.
Proof.
  induction 1 as [|cache sorted name j _ IH Hn Hj Hp]; simpl.
  - constructor.
  - apply NoDup_app. split_and!; [done| |apply NoDup_singleton].
    intros x Hx Hx'. apply list_elem_of_singleton in Hx' as ->. done.
Qed.

Lemma joint_unique name j j' :
  (name, j) ∈ joint_map robot → (name, j') ∈ joint_map robot → j = j'.
Proof.
  intros H H'. apply (dict_get_NoDup _ _ _ Hnames) in H, H'. congruence.
Qed.

(** The cache holds the base link and the children of the sorted joints. *)
Lemma resolved_cache st :
  resolved robot st →
  ∀ x, x ∈ st.1 ↔
    x = base_link robot ∨
    ∃ name j, name ∈ st.2 ∧ (name, j) ∈ joint_map robot ∧ x = joint_child j.
Proof.
  induction 1 as [|cache sorted name j _ IH Hn Hj Hp]; simpl in *; intros x.
  - rewrite list_elem_of_singleton. split; [auto|].
    intros [?|(n & ? & H & _)]; [done|]. by apply elem_of_nil in H.
  - rewrite elem_of_app, list_elem_of_singleton, IH. split.
    + intros [[?|(n & j' & ? & ? & ?)]| ->]; [by left| |].
      * right. exists n, j'. rewrite elem_of_app. auto.
      * right. exists name, j. rewrite elem_of_app, list_elem_of_singleton. auto.
    + intros [?|(n & j' & Hin & Hj' & ->)]; [by left; left|].
      apply elem_of_app in Hin as [Hin|Hin].
      * left. right. eauto.
      * apply list_elem_of_singleton in Hin as ->.
        right. f_equal. eapply joint_unique; eauto.
Qed.

Lemma resolved_reachable st :
  resolved robot st → ∀ x, x ∈ st.1 → reachable robot x.
Proof.
  induction 1 as [|cache sorted name j _ IH Hn Hj Hp]; simpl in *; intros x.
  - rewrite list_elem_of_singleton. intros ->. constructor.
  - rewrite elem_of_app, list_elem_of_singleton. intros [?| ->]; [auto|].
    eapply reachable_child; eauto.
Qed.

(** Every sorted joint hangs from a link the base leads to. *)
Lemma resolved_sorted_reachable st :
  resolved robot st →
  ∀ name j, name ∈ st.2 → (name, j) ∈ joint_map robot →
    reachable robot (joint_parent j).
Proof.
  induction 1 as [|cache sorted name j H IH Hn Hj Hp]; simpl in *; intros n j'.
  - intros Hin. by apply elem_of_nil in Hin.
  - rewrite elem_of_app, list_elem_of_singleton. intros [?| ->] Hj'; [eauto|].
    rewrite <- (joint_unique _ _ _ Hj Hj').
    by apply (resolved_reachable _ H).
Qed.

(** One visit of the [for] of the sort. *)
Lemma sort_visit_resolved st name :
  resolved robot st → name ∈ (joint_map robot).*1 →
  ∃ st', sort_visit robot st name = Ok st' ∧ resolved robot st' ∧
    st.1 ⊆ st'.1 ∧ st.2 ⊆ st'.2 ∧
    (∀ j, (name, j) ∈ joint_map robot → joint_parent j ∈ st.1 → name ∈ st'.2).
Proof.
  destruct st as [cache sorted]. intros Hst Hname. unfold sort_visit.
  case_bool_decide as Hin.
  { exists (cache, sorted). by split_and!. }
  destruct (dict_get_key _ _ Hname) as [j Hj]. unfold getitem. rewrite Hj.
  apply dict_get_elem in Hj as Hj'. simpl.
  case_bool_decide as Hp.
  - eexists. split_and!; [done| |simpl..].
    + by eapply resolved_joint.
    + intros x ?. apply elem_of_app. by left.
    + intros x ?. apply elem_of_app. by left.
    + intros _ _ _. apply elem_of_app. right. by apply list_elem_of_singleton.
  - exists (cache, sorted). split_and!; try done.
    intros j' Hj2. rewrite <- (joint_unique _ _ _ Hj' Hj2). done.
Qed.

(** One pass of the [for] over any part of the joint names. *)
Lemma sort_pass_resolved names st :
  resolved robot st → names ⊆ (joint_map robot).*1 →
  ∃ st', for_each (sort_visit robot) names st = Ok st' ∧ resolved robot st' ∧
    st.1 ⊆ st'.1 ∧ st.2 ⊆ st'.2 ∧
    (∀ name j, name ∈ names → (name, j) ∈ joint_map robot →
       joint_parent j ∈ st.1 → name ∈ st'.2).
Proof.
  revert st. induction names as [|name names IH]; intros st Hst Hsub; simpl.
  - exists st. split_and!; try done. intros ?? H. by apply elem_of_nil in H.
  - destruct (sort_visit_resolved st name Hst) as (st1 & -> & Hst1 & Hc & Hs & Hn);
      [set_solver|].
    simpl. destruct (IH st1 Hst1) as (st2 & -> & Hst2 & Hc2 & Hs2 & Hn2);
      [set_solver|].
    exists st2. split_and!; try done; [set_solver..|].
    intros n j Hin Hj Hp. apply elem_of_cons in Hin as [->|Hin].
    + apply Hs2. by eapply Hn.
    + eapply Hn2; eauto.
Qed.

(** While a joint of a well-formed tree is unsorted, some unsorted joint
    hangs from a link of the cache. *)
Lemma resolved_frontier st x :
  resolved robot st → reachable robot x →
  x ∈ st.1 ∨
  ∃ name j, (name, j) ∈ joint_map robot ∧ (name ∉ st.2) ∧ joint_parent j ∈ st.1.
Proof.
  intros Hst. induction 1 as [|name j Hj Hp IH].
  - left. apply (resolved_cache _ Hst). by left.
  - destruct IH as [Hin|?]; [|by right].
    destruct (decide (name ∈ st.2)) as [Hs|Hs].
    + left. apply (resolved_cache _ Hst). right. eauto.
    + right. eauto.
Qed.

Lemma sort_pass_progress st :
  well_formed robot → resolved robot st →
  (length st.2 < length (joint_map robot).*1)%nat →
  ∃ st', for_each (sort_visit robot) (joint_map robot).*1 st = Ok st' ∧
    resolved robot st' ∧ (length st.2 < length st'.2)%nat.
Proof.
  intros Hwf Hst Hlen.
  destruct (sort_pass_resolved (joint_map robot).*1 st Hst)
    as (st' & Hrun & Hst' & _ & Hs & Hn); [done|].
  exists st'. split_and!; try done.
  (* some name is not sorted yet *)
  assert (∃ name, name ∈ (joint_map robot).*1 ∧ name ∉ st.2) as (name & Hname & Hns).
  { destruct (decide (Forall (.∈ st.2) (joint_map robot).*1)) as [Hall|Hex].
    - exfalso. rewrite Forall_forall in Hall.
      apply (NoDup_submseteq _ _ Hnames) in Hall.
      apply submseteq_length in Hall. lia.
    - apply not_Forall_Exists in Hex; [|apply _].
      apply Exists_exists in Hex as (name & ? & ?). eauto. }
  apply list_elem_of_fmap in Hname as ([n j] & -> & Hj). simpl in *.
  (* hence some unsorted joint hangs from the cache, and the pass sorts it *)
  assert (reachable robot (joint_parent j)) as Hreach.
  { pose proof (wf_reachable _ Hwf) as Hall. rewrite Forall_forall in Hall.
    by apply (Hall (n, j)). }
  assert (∃ n' j', (n', j') ∈ joint_map robot ∧ (n' ∉ st.2) ∧ joint_parent j' ∈ st.1)
    as (n' & j' & Hj' & Hn' & Hp').
  { destruct (resolved_frontier st _ Hst Hreach) as [?|?]; eauto. }
  assert (n' ∈ st'.2) as Hin'.
  { eapply Hn; eauto. apply list_elem_of_fmap. by exists (n', j'). }
  assert (st.2 ++ [n'] ⊆+ st'.2) as Hsub.
  { apply NoDup_submseteq.
    - apply NoDup_app. split_and!; [by apply resolved_NoDup| |apply NoDup_singleton].
      intros y Hy Hy'. apply list_elem_of_singleton in Hy' as ->. done.
    - intros y Hy. apply elem_of_app in Hy as [?|Hy]; [by apply Hs|].
      by apply list_elem_of_singleton in Hy as ->. }
  apply submseteq_length in Hsub. rewrite length_app in Hsub. simpl in Hsub. lia.
Qed.

(** The [while] of the sort of a well-formed tree ends, after at most as
    many passes as there are unsorted joints. *)
Lemma sort_while_terminates fuel st :
  well_formed robot → resolved robot st →
  (length (joint_map robot).*1 - length st.2 ≤ fuel)%nat →
  ∃ st', sort_while robot fuel (joint_map robot).*1 st = Some (Ok st') ∧
    resolved robot st' ∧ st'.2 ≡ₚ (joint_map robot).*1.
Proof.
  intros Hwf. revert st. induction fuel as [|fuel IH]; intros st Hst Hfuel.
  - simpl. rewrite bool_decide_eq_false_2 by lia.
    exists st. split_and!; try done.
    apply submseteq_length_Permutation; [|lia].
    apply NoDup_submseteq; [by apply resolved_NoDup|].
    by apply resolved_sorted_names.
  - simpl. case_bool_decide as Hlen.
    + destruct (sort_pass_progress st Hwf Hst Hlen) as (st1 & -> & Hst1 & Hlt).
      apply IH; [done|lia].
    + exists st. split_and!; try done.
      apply submseteq_length_Permutation; [|lia].
      apply NoDup_submseteq; [by apply resolved_NoDup|].
      by apply resolved_sorted_names.
Qed.

(** The sort of a malformed tree never ends: the joint whose parent the
    base does not lead to is never sorted, and no pass raises. *)
Lemma sort_while_diverges fuel st :
  Exists (fun nj => ¬ reachable robot (joint_parent nj.2)) (joint_map robot) →
  resolved robot st →
  sort_while robot fuel (joint_map robot).*1 st = None.
Proof.
  intros Hbad. revert st. induction fuel as [|fuel IH]; intros st Hst.
  all: assert (length st.2 < length (joint_map robot).*1)%nat as Hlen.
  1,3: apply Exists_exists in Hbad as ([n j] & Hj & Hun); simpl in Hun;
    assert (n ∉ st.2) as Hn by
      (intros Hin; apply Hun; by eapply resolved_sorted_reachable);
    assert (st.2 ++ [n] ⊆+ (joint_map robot).*1) as Hsub by
      (apply NoDup_submseteq;
       [ apply NoDup_app; split_and!;
         [by apply resolved_NoDup| |apply NoDup_singleton];
         intros y Hy Hy'; apply list_elem_of_singleton in Hy' as ->; done
       | intros y Hy; apply elem_of_app in Hy as [?|Hy];
         [by eapply resolved_sorted_names|];
         apply list_elem_of_singleton in Hy as ->;
         apply list_elem_of_fmap; by exists (n, j) ]);
    apply submseteq_length in Hsub; rewrite length_app in Hsub; simpl in Hsub; lia.
  - simpl. by rewrite bool_decide_eq_true_2.
  - simpl. rewrite bool_decide_eq_true_2 by done.
    destruct (sort_pass_resolved (joint_map robot).*1 st Hst)
      as (st' & -> & Hst' & _); [done|].
    by apply IH.
Qed.
End Sort.

(** ** The two maps *)

Section Build.
Variable robot : URDF.
Hypothesis Hnames : NoDup (joint_map robot).*1.
Hypothesis Hchildren : NoDup (base_link robot :: children robot).

(** A joint about to be sorted brings a link the cache does not hold. *)
Lemma resolved_child_fresh cache sorted name j :
  resolved robot (cache, sorted) → name ∉ sorted →
  (name, j) ∈ joint_map robot → joint_child j ∉ cache.
Proof.
  intros Hst Hn Hj Hin.
  apply NoDup_cons in Hchildren as [Hbase Hnd].
  apply (resolved_cache robot Hnames _ Hst) in Hin as [Heq|(n' & j' & Hn' & Hj' & Heq)].
  - apply Hbase. rewrite <- Heq. unfold children.
    apply list_elem_of_fmap. by exists (name, j).
  - simpl in Hn'. assert ((name, j) = (n', j')) as [= -> ->]; [|done].
    by apply (NoDup_fmap_inj_on (fun nj => joint_child nj.2) (joint_map robot)).
Qed.

Lemma joint_resolved_in_insert rm pm j c r p :
  rm !! c = None →
  joint_resolved_in rm pm j →
  is_Some (rm !! joint_child j) →
  joint_resolved_in (<[c := r]> rm) (<[c := p]> pm) j.
Proof.
  unfold joint_resolved_in. intros Hc H [x Hx].
  assert (c ≠ joint_child j) as Hne by congruence.
  case_bool_decide.
  - destruct H as ([y Hy] & Hr & Hp).
    assert (c ≠ joint_parent j) as Hne' by congruence.
    by rewrite !lookup_insert_ne.
  - by rewrite !lookup_insert_ne.
Qed.

Lemma insert_dom_snoc {V} (m : gmap string V) (cache : list string) c v :
  (∀ x, is_Some (m !! x) ↔ x ∈ cache) →
  ∀ x, is_Some (<[c := v]> m !! x) ↔ x ∈ cache ++ [c].
Proof.
  intros Hdom x.
  rewrite lookup_insert_is_Some, elem_of_app, list_elem_of_singleton, Hdom.
  split.
  - intros [->|[_ ?]]; auto.
  - intros [?| ->]; [|by left].
    destruct (decide (c = x)); auto.
Qed.

Lemma build_resolved st :
  resolved robot st →
  ∃ rm pm, for_each (build_visit robot) st.2 (initial_maps robot) = Ok (rm, pm) ∧
    collapse_inv robot st.1 st.2 rm pm.
Proof.
  induction 1 as [|cache sorted name j Hst IH Hn Hj Hp]; simpl in *.
  { eexists _, _. split; [done|]. split.
    - intros x. rewrite list_elem_of_singleton, lookup_singleton_is_Some. by split.
    - intros x. rewrite list_elem_of_singleton, lookup_singleton_is_Some. by split.
    - apply lookup_singleton_eq.
    - apply lookup_singleton_eq.
    - intros ?? H. by apply elem_of_nil in H.
    - intros x r [<- <-]%lookup_singleton_Some.
      by rewrite !lookup_singleton_eq. }
  destruct IH as (rm & pm & Hrun & Hinv).
  pose proof (resolved_child_fresh _ _ _ _ Hst Hn Hj) as Hfresh.
  assert (rm !! joint_child j = None) as Hrc.
  { apply eq_None_not_Some. by rewrite (ci_root_dom _ _ _ _ _ Hinv). }
  assert (pm !! joint_child j = None) as Hpc.
  { apply eq_None_not_Some. by rewrite (ci_pose_dom _ _ _ _ _ Hinv). }
  assert (base_link robot ≠ joint_child j) as Hbase.
  { intros Heq. apply Hfresh. rewrite <- Heq.
    apply (ci_root_dom _ _ _ _ _ Hinv). rewrite (ci_base_root _ _ _ _ _ Hinv). by eexists. }
  assert (joint_parent j ≠ joint_child j) as Hpne by congruence.
  apply (ci_root_dom _ _ _ _ _ Hinv) in Hp as Hpr. destruct Hpr as [r Hr].
  apply (ci_pose_dom _ _ _ _ _ Hinv) in Hp as Hpp. destruct Hpp as [p Hpp].
  destruct (ci_roots _ _ _ _ _ Hinv _ _ Hr) as [Hrr Hre].
  assert (r ≠ joint_child j) as Hrne by congruence.
  rewrite for_each_app, Hrun. simpl.
  unfold getitem. rewrite (dict_get_NoDup _ _ _ Hnames Hj). simpl.
  assert (∀ n' j' r' p', n' ∈ sorted → (n', j') ∈ joint_map robot →
            joint_resolved_in (<[joint_child j := r']> rm) (<[joint_child j := p']> pm) j')
    as Hold.
  { intros n' j' r' p' Hn' Hj'. apply joint_resolved_in_insert; [done|by eapply ci_joints|].
    apply (ci_root_dom _ _ _ _ _ Hinv), (resolved_cache robot Hnames _ Hst).
    right. eauto. }
  case_bool_decide as Hfixed.
  - rewrite bool_decide_eq_true_2 by (by eexists).
    unfold lookup_or_raise. rewrite Hr, Hpp. simpl.
    eexists _, _. split; [done|]. split.
    + apply insert_dom_snoc, Hinv.
    + apply insert_dom_snoc, Hinv.
    + rewrite lookup_insert_ne by done. by eapply ci_base_root.
    + rewrite lookup_insert_ne by done. by eapply ci_base_pose.
    + intros n' j' Hn' Hj'. apply elem_of_app in Hn' as [Hn'|Hn']; [by eapply Hold|].
      apply list_elem_of_singleton in Hn' as ->.
      rewrite <- (joint_unique robot Hnames _ _ _ Hj Hj').
      unfold joint_resolved_in. rewrite bool_decide_eq_true_2 by done.
      rewrite !lookup_insert_eq, !lookup_insert_ne, Hr, Hpp by done. eauto.
    + intros x r'. rewrite lookup_insert_Some.
      intros [[<- <-]|[Hne Hx]].
      * by rewrite !lookup_insert_ne.
      * destruct (ci_roots _ _ _ _ _ Hinv _ _ Hx) as [Hx1 Hx2].
        assert (r' ≠ joint_child j) by congruence.
        by rewrite !lookup_insert_ne.
  - eexists _, _. split; [done|]. split.
    + apply insert_dom_snoc, Hinv.
    + apply insert_dom_snoc, Hinv.
    + rewrite lookup_insert_ne by done. by eapply ci_base_root.
    + rewrite lookup_insert_ne by done. by eapply ci_base_pose.
    + intros n' j' Hn' Hj'. apply elem_of_app in Hn' as [Hn'|Hn']; [by eapply Hold|].
      apply list_elem_of_singleton in Hn' as ->.
      rewrite <- (joint_unique robot Hnames _ _ _ Hj Hj').
      unfold joint_resolved_in. rewrite bool_decide_eq_false_2 by done.
      by rewrite !lookup_insert_eq.
    + intros x r'. rewrite lookup_insert_Some.
      intros [[<- <-]|[Hne Hx]].
      * by rewrite !lookup_insert_eq.
      * destruct (ci_roots _ _ _ _ _ Hinv _ _ Hx) as [Hx1 Hx2].
        assert (r' ≠ joint_child j) by congruence.
        by rewrite !lookup_insert_ne.
Qed.
End Build.

(** ** The collapse of a well-formed tree *)

Lemma resolved_parent_before_child robot st :
  NoDup (joint_map robot).*1 →
  resolved robot st → parent_before_child robot st.2.
Proof.
  intros Hnames. induction 1 as [|cache sorted name j Hst IH Hn Hj Hp]; simpl in *.
  - intros i ? ? H. by rewrite lookup_nil in H.
  - intros i n j' Hi Hj'.
    apply lookup_app_Some in Hi as [Hi|[Hlen Hi]].
    + destruct (IH i n j' Hi Hj') as [?|(i' & n' & j2 & ? & ? & ? & ?)]; [by left|].
      right. exists i', n', j2. split_and!; try done.
      by apply lookup_app_l_Some.
    + apply list_lookup_singleton_Some in Hi as [Hi <-].
      rewrite <- (joint_unique robot Hnames _ _ _ Hj Hj').
      apply (resolved_cache robot Hnames _ Hst) in Hp
        as [?|(n' & j2 & Hn' & Hj2 & Heq)]; [by left|].
      right. simpl in Hn'. apply list_elem_of_lookup in Hn' as [i' Hi'].
      exists i', n', j2. split_and!; try done.
      * apply lookup_lt_Some in Hi'. lia.
      * by apply lookup_app_l_Some.
Qed.

(** With fuel for one pass per joint, the collapse of a well-formed tree
    returns its two maps, built from a sorted list that holds every joint
    once. *)
Lemma collapse_maps_well_formed robot fuel :
  well_formed robot → (length (joint_map robot) ≤ fuel)%nat →
  ∃ cache sorted rm pm,
    sort_joints robot fuel = Some (Ok sorted) ∧
    collapse_maps robot fuel = Some (Ok (rm, pm)) ∧
    resolved robot (cache, sorted) ∧
    sorted ≡ₚ (joint_map robot).*1 ∧
    collapse_inv robot cache sorted rm pm.
Proof.
  intros Hwf Hfuel.
  destruct (sort_while_terminates robot (wf_names _ Hwf) fuel
              ([base_link robot], []) Hwf (resolved_init robot))
    as ([cache sorted] & Hsort & Hst & Hperm).
  { simpl. rewrite length_fmap. lia. }
  destruct (build_resolved robot (wf_names _ Hwf) (wf_children _ Hwf) _ Hst)
    as (rm & pm & Hrun & Hinv).
  exists cache, sorted, rm, pm. unfold collapse_maps, sort_joints.
  rewrite Hsort. simpl in *. by rewrite Hrun.
Qed.

(** The links of the two maps of a well-formed tree. *)
Lemma collapse_inv_links robot cache sorted :
  NoDup (joint_map robot).*1 →
  resolved robot (cache, sorted) → sorted ≡ₚ (joint_map robot).*1 →
  ∀ x, x ∈ cache ↔ x ∈ base_link robot :: children robot.
Proof.
  intros Hnames Hst Hperm x.
  rewrite (resolved_cache robot Hnames _ Hst x), elem_of_cons. simpl.
  unfold children. rewrite list_elem_of_fmap. split.
  - intros [?|(n & j & _ & Hj & ->)]; [by left|]. right. by exists (n, j).
  - intros [?|([n j] & -> & Hj)]; [by left|]. right. exists n, j. split_and!; try done.
    rewrite Hperm. apply list_elem_of_fmap. by exists (n, j).
Qed.


(** ** The collapse maps of a well-formed tree (C1, C2, C3) *)

(** C1. Composition law: with the collapse enabled, the maps of a
    well-formed tree are computed (one pass of fuel per joint is enough),
    and for every fixed joint the pose recorded for the child is the pose
    recorded for the parent times the origin of the joint. *)
Theorem C1_composition_law (robot : URDF) (fuel : nat) :
  well_formed robot → (length (joint_map robot) ≤ fuel)%nat →
  ∃ link_root_map link_pose_map,
    collapse_maps robot fuel = Some (Ok (link_root_map, link_pose_map)) ∧
    ∀ name j, (name, j) ∈ joint_map robot → joint_type j = "fixed" →
      ∃ parent_pose,
        link_pose_map !! joint_parent j = Some parent_pose ∧
        link_pose_map !! joint_child j
          = Some (matmul parent_pose (joint_origin j)).
Proof.
  intros Hwf Hfuel.
  destruct (collapse_maps_well_formed robot fuel Hwf Hfuel)
    as (cache & sorted & rm & pm & _ & Hrun & Hst & Hperm & Hinv).
  exists rm, pm. split; [done|]. intros name j Hj Hfixed.
  assert (name ∈ sorted) as Hn.
  { rewrite Hperm. apply list_elem_of_fmap. by exists (name, j). }
  pose proof (ci_joints _ _ _ _ _ Hinv name j Hn Hj) as H.
  unfold joint_resolved_in in H. rewrite bool_decide_eq_true_2 in H by done.
  destruct H as (Hp & _ & Hpose).
  apply (ci_root_dom _ _ _ _ _ Hinv), (ci_pose_dom _ _ _ _ _ Hinv) in Hp as [p Hp].
  exists p. split; [done|]. by rewrite Hpose, Hp.
Qed.

(** C2. Idempotence: with the collapse enabled, the root map of a
    well-formed tree is computed, it holds exactly the base link and the
    children of the joints, and the root of every link of the map is its
    own root. *)
Theorem C2_root_idempotent (robot : URDF) (fuel : nat) :
  well_formed robot → (length (joint_map robot) ≤ fuel)%nat →
  ∃ link_root_map link_pose_map,
    collapse_maps robot fuel = Some (Ok (link_root_map, link_pose_map)) ∧
    (∀ x, is_Some (link_root_map !! x) ↔ x ∈ base_link robot :: children robot) ∧
    ∀ x root, link_root_map !! x = Some root →
      link_root_map !! root = Some root.
Proof.
  intros Hwf Hfuel.
  destruct (collapse_maps_well_formed robot fuel Hwf Hfuel)
    as (cache & sorted & rm & pm & _ & Hrun & Hst & Hperm & Hinv).
  exists rm, pm. split_and!; [done| |].
  - intros x. rewrite (ci_root_dom _ _ _ _ _ Hinv).
    by apply (collapse_inv_links robot cache sorted (wf_names _ Hwf)).
  - intros x r Hx. by destruct (ci_roots _ _ _ _ _ Hinv x r Hx).
Qed.

(** C3. Identity at root: with the collapse enabled, in the maps of a
    well-formed tree the base link and the child of every joint that is
    not fixed have the identity pose, and so has the root of every link
    of the map. *)
Theorem C3_identity_at_root (robot : URDF) (fuel : nat) :
  well_formed robot → (length (joint_map robot) ≤ fuel)%nat →
  ∃ link_root_map link_pose_map,
    collapse_maps robot fuel = Some (Ok (link_root_map, link_pose_map)) ∧
    link_pose_map !! base_link robot = Some eye4 ∧
    (∀ name j, (name, j) ∈ joint_map robot → joint_type j ≠ "fixed" →
       link_root_map !! joint_child j = Some (joint_child j) ∧
       link_pose_map !! joint_child j = Some eye4) ∧
    ∀ x root, link_root_map !! x = Some root →
      link_pose_map !! root = Some eye4.
Proof.
  intros Hwf Hfuel.
  destruct (collapse_maps_well_formed robot fuel Hwf Hfuel)
    as (cache & sorted & rm & pm & _ & Hrun & Hst & Hperm & Hinv).
  exists rm, pm. split_and!; [done|by eapply ci_base_pose| |].
  - intros name j Hj Hmov.
    assert (name ∈ sorted) as Hn.
    { rewrite Hperm. apply list_elem_of_fmap. by exists (name, j). }
    pose proof (ci_joints _ _ _ _ _ Hinv name j Hn Hj) as H.
    unfold joint_resolved_in in H. by rewrite bool_decide_eq_false_2 in H.
  - intros x r Hx. by destruct (ci_roots _ _ _ _ _ Hinv x r Hx).
Qed.

(** ** Order independence (C5) *)

Lemma reachable_perm (robot robot' : URDF) x :
  base_link robot' = base_link robot →
  joint_map robot' ≡ₚ joint_map robot →
  reachable robot x → reachable robot' x.
Proof.
  intros Hbase Hperm. induction 1 as [|name j Hj _ IH].
  - rewrite <- Hbase. constructor.
  - apply (reachable_child robot' name j); [by rewrite Hperm|done].
Qed.

Lemma well_formed_perm (robot robot' : URDF) :
  base_link robot' = base_link robot →
  joint_map robot' ≡ₚ joint_map robot →
  well_formed robot → well_formed robot'.
Proof.
  intros Hbase Hperm [Hn Hc Hr]. split.
  - by rewrite Hperm.
  - unfold children. by rewrite Hbase, Hperm.
  - rewrite Hperm. eapply Forall_impl; [exact Hr|].
    intros nj. by apply reachable_perm.
Qed.

(** Two pairs of maps that satisfy the equations of every joint agree on
    the links the sort has met. *)
Lemma resolved_maps_agree (robot : URDF) rm pm rm' pm' st :
  resolved robot st →
  rm !! base_link robot = rm' !! base_link robot →
  pm !! base_link robot = pm' !! base_link robot →
  (∀ name j, (name, j) ∈ joint_map robot →
     joint_resolved_in rm pm j ∧ joint_resolved_in rm' pm' j) →
  ∀ x, x ∈ st.1 → rm !! x = rm' !! x ∧ pm !! x = pm' !! x.
Proof.
  intros Hst Hbr Hbp Hjoints.
  induction Hst as [|cache sorted name j _ IH Hn Hj Hp]; simpl in *; intros x Hx.
  - by apply list_elem_of_singleton in Hx as ->.
  - apply elem_of_app in Hx as [Hx|Hx]; [by apply IH|].
    apply list_elem_of_singleton in Hx as ->.
    destruct (Hjoints name j Hj) as [H1 H2]. unfold joint_resolved_in in H1, H2.
    destruct (IH _ Hp) as [Hr Hq].
    case_bool_decide.
    + destruct H1 as (_ & -> & ->), H2 as (_ & -> & ->). by rewrite Hr, Hq.
    + destruct H1 as [-> ->], H2 as [-> ->]. done.
Qed.

(** C5. Order independence: with the collapse enabled, a well-formed tree
    and the same tree with its joints listed in another order give the
    same two maps; in both runs the sorted list holds every joint exactly
    once, each after the joint that brings its parent. *)
Theorem C5_order_independence (robot robot' : URDF) (fuel : nat) :
  well_formed robot →
  base_link robot' = base_link robot →
  joint_map robot' ≡ₚ joint_map robot →
  (length (joint_map robot) ≤ fuel)%nat →
  ∃ link_root_map link_pose_map sorted sorted',
    collapse_maps robot fuel = Some (Ok (link_root_map, link_pose_map)) ∧
    collapse_maps robot' fuel = Some (Ok (link_root_map, link_pose_map)) ∧
    sort_joints robot fuel = Some (Ok sorted) ∧
    sort_joints robot' fuel = Some (Ok sorted') ∧
    sorted ≡ₚ (joint_map robot).*1 ∧ sorted' ≡ₚ (joint_map robot).*1 ∧
    parent_before_child robot sorted ∧ parent_before_child robot' sorted'.
Proof.
  intros Hwf Hbase Hperm Hfuel.
  pose proof (well_formed_perm robot robot' Hbase Hperm Hwf) as Hwf'.
  destruct (collapse_maps_well_formed robot fuel Hwf Hfuel)
    as (cache & sorted & rm & pm & Hsort & Hrun & Hst & Hp & Hinv).
  destruct (collapse_maps_well_formed robot' fuel Hwf')
    as (cache' & sorted' & rm' & pm' & Hsort' & Hrun' & Hst' & Hp' & Hinv').
  { by rewrite Hperm. }
  assert (∀ name j, (name, j) ∈ joint_map robot →
            joint_resolved_in rm pm j ∧ joint_resolved_in rm' pm' j) as Hjoints.
  { intros name j Hj. split.
    - eapply (ci_joints _ _ _ _ _ Hinv); [|done].
      rewrite Hp. apply list_elem_of_fmap. by exists (name, j).
    - eapply (ci_joints _ _ _ _ _ Hinv'); [|by rewrite Hperm].
      rewrite Hp'. apply list_elem_of_fmap. exists (name, j). by rewrite Hperm. }
  assert (∀ x, x ∈ cache' ↔ x ∈ cache) as Hcache.
  { intros x.
    rewrite (collapse_inv_links robot cache sorted (wf_names _ Hwf) Hst Hp).
    rewrite (collapse_inv_links robot' cache' sorted' (wf_names _ Hwf') Hst' Hp').
    unfold children. by rewrite Hbase, Hperm. }
  assert (rm' = rm ∧ pm' = pm) as [-> ->].
  { split; apply map_eq; intros x.
    - destruct (decide (x ∈ cache)) as [Hx|Hx].
      + symmetry. eapply (resolved_maps_agree robot rm pm rm' pm' _ Hst); try done.
        * rewrite (ci_base_root _ _ _ _ _ Hinv). rewrite <- Hbase at 1 2.
          by rewrite (ci_base_root _ _ _ _ _ Hinv').
        * rewrite (ci_base_pose _ _ _ _ _ Hinv). rewrite <- Hbase.
          by rewrite (ci_base_pose _ _ _ _ _ Hinv').
      + transitivity (@None string); [|symmetry]; apply eq_None_not_Some.
        * by rewrite (ci_root_dom _ _ _ _ _ Hinv'), Hcache.
        * by rewrite (ci_root_dom _ _ _ _ _ Hinv).
    - destruct (decide (x ∈ cache)) as [Hx|Hx].
      + symmetry. eapply (resolved_maps_agree robot rm pm rm' pm' _ Hst); try done.
        * rewrite (ci_base_root _ _ _ _ _ Hinv). rewrite <- Hbase at 1 2.
          by rewrite (ci_base_root _ _ _ _ _ Hinv').
        * rewrite (ci_base_pose _ _ _ _ _ Hinv). rewrite <- Hbase.
          by rewrite (ci_base_pose _ _ _ _ _ Hinv').
      + transitivity (@None ndarray); [|symmetry]; apply eq_None_not_Some.
        * by rewrite (ci_pose_dom _ _ _ _ _ Hinv'), Hcache.
        * by rewrite (ci_pose_dom _ _ _ _ _ Hinv). }
  exists rm, pm, sorted, sorted'. split_and!; try done.
  - by rewrite Hp', Hperm.
  - by apply (resolved_parent_before_child robot (cache, sorted) (wf_names _ Hwf)).
  - by apply (resolved_parent_before_child robot' (cache', sorted') (wf_names _ Hwf')).
Qed.

(** ** Malformed trees (C4) *)

(** C4. The specification asks for a fatal error on a malformed tree and
    for a scan that stops when a full pass makes no progress. The loader
    does neither: with the collapse enabled, the [while] of lines 35-41
    has no exit on a pass without progress, and on every malformed tree
    the call is still inside it whatever the number of passes it was
    given; it raises nothing and returns nothing. *)
Theorem C4_malformed_tree_never_returns (robot : URDF) (urdf_path : string)
    (replace_cylinder_with_capsule use_mesh_materials : bool) (fuel : nat) :
  malformed robot →
  load_robot robot urdf_path true replace_cylinder_with_capsule
    use_mesh_materials fuel = None.
Proof.
  intros [Hnames Hbad]. unfold load_robot, collapse_maps, sort_joints.
  by rewrite (sort_while_diverges robot Hnames fuel _ Hbad (resolved_init robot)).
Qed.

(** ** The asset keys *)

#[local] Arguments visual_visit : simpl never.
#[local] Arguments visual_batch : simpl never.

Lemma emit_spec name geom_id items written last :
  emit name geom_id items = (written, last) →
  last = geom_id + Z.of_nat (length items) ∧
  Forall (fun e => em_link e = name) written ∧
  em_id <$> written = seqZ geom_id (Z.of_nat (length items)) ∧
  (fun e => (em_geometry e, (em_material e, em_pose e))) <$> written = items.
Proof.
  revert geom_id written last.
  induction items as [|[g [m p]] items IH]; intros geom_id written last; simpl.
  - intros [= <- <-]. split_and!; [lia|constructor|done|done].
  - destruct (emit name (geom_id + 1) items) as [rest l] eqn:Hrest.
    intros [= <- <-]. destruct (IH _ _ _ Hrest) as (-> & Hl & Hid & Hit).
    rewrite (seqZ_cons geom_id) by lia.
    split_and!; [lia|by constructor| |].
    + rewrite fmap_cons, Hid. simpl. do 2 f_equal; lia.
    + rewrite fmap_cons, Hit. done.
Qed.

Lemma ids_of_app link (log log' : list Emitted) :
  ids_of link (log ++ log') = ids_of link log ++ ids_of link log'.
Proof. unfold ids_of. by rewrite filter_app, fmap_app. Qed.

Lemma ids_of_same link (log : list Emitted) :
  Forall (fun e => em_link e = link) log → ids_of link log = em_id <$> log.
Proof.
  unfold ids_of. induction 1 as [|e log He _ IH]; [done|].
  rewrite filter_cons_True by done. rewrite !fmap_cons. by f_equal.
Qed.

Lemma ids_of_other link link' (log : list Emitted) :
  link ≠ link' → Forall (fun e => em_link e = link') log → ids_of link log = [].
Proof.
  unfold ids_of. intros Hne. induction 1 as [|e log He _ IH]; [done|].
  rewrite filter_cons_False by congruence. done.
Qed.

Section Loops.
Variable robot : URDF.
Variables collapse_fixed_joints replace_cylinder_with_capsule : bool.
Variable material_map : list (string * Material).
Variable link_root_map : gmap string string.
Variable link_pose_map : gmap string ndarray.

Local Abbreviation visit :=
  (visual_visit robot collapse_fixed_joints replace_cylinder_with_capsule
     material_map link_root_map link_pose_map).
Local Abbreviation batch_of :=
  (visual_batch robot collapse_fixed_joints replace_cylinder_with_capsule
     material_map link_pose_map).
Local Abbreviation over_visuals :=
  (visuals_loop robot collapse_fixed_joints replace_cylinder_with_capsule
     material_map link_root_map link_pose_map).
Local Abbreviation over_links :=
  (links_loop robot collapse_fixed_joints replace_cylinder_with_capsule
     material_map link_root_map link_pose_map).

(** What one visual does to the state: the canonical link it writes
    under, the first index it takes, and its writes. *)
Lemma visual_visit_inv link_name cnt log visual visual' cnt' log' :
  visit link_name (cnt, log) visual = Ok (visual', (cnt', log')) →
  ∃ geometries mats poses meshcat_link_name,
    batch_of link_name visual = Ok (visual', (geometries, mats, poses)) ∧
    (if collapse_fixed_joints
     then link_root_map !! link_name = Some meshcat_link_name
     else meshcat_link_name = link_name) ∧
    let geom_id := match cnt !! meshcat_link_name with
                   | None => 0 | Some c => c + 1 end in
    let items := zip geometries (zip mats poses) in
    cnt' = <[meshcat_link_name := geom_id + Z.of_nat (length items) - 1]>
             (<[meshcat_link_name := geom_id]> cnt) ∧
    log' = log ++ (emit meshcat_link_name geom_id items).1.
Proof.
  unfold visual_visit.
  destruct (batch_of link_name visual) as [[v [[gs ms] ps]]|e] eqn:Hb;
    simpl; [|done].
  intros H.
  assert (∃ name,
    (if collapse_fixed_joints then lookup_or_raise link_root_map link_name
     else Ok link_name) = Ok name ∧
    (if collapse_fixed_joints then link_root_map !! link_name = Some name
     else name = link_name)) as (name & Hname & Hroot).
  { destruct collapse_fixed_joints; [|by eexists].
    unfold lookup_or_raise in *.
    destruct (link_root_map !! link_name) as [r|]; [by eexists|done]. }
  rewrite Hname in H. simpl in H.
  exists gs, ms, ps, name.
  set (geom_id := match cnt !! name with None => 0 | Some c => c + 1 end).
  assert ((match cnt !! name with
           | None => <[name := 0]> cnt
           | Some c => <[name := c + 1]> cnt
           end) = <[name := geom_id]> cnt) as Hcnt.
  { unfold geom_id. by destruct (cnt !! name). }
  rewrite Hcnt in H. unfold lookup_or_raise in H.
  rewrite lookup_insert_eq in H. simpl in H.
  destruct (emit name geom_id (zip gs (zip ms ps))) as [written last] eqn:Hemit.
  destruct (emit_spec _ _ _ _ _ Hemit) as (-> & _).
  simpl in H. injection H as <- <- <-. done.
Qed.

Lemma visual_visit_count_inv link_name cnt log visual visual' cnt' log' :
  count_inv cnt log →
  visit link_name (cnt, log) visual = Ok (visual', (cnt', log')) →
  count_inv cnt' log'.
Proof.
  intros Hinv Hvisit.
  destruct (visual_visit_inv _ _ _ _ _ _ _ Hvisit)
    as (gs & ms & ps & name & _ & _ & Hcnt & Hlog).
  simpl in Hcnt. subst cnt' log'.
  destruct (emit name _ (zip gs (zip ms ps))) as [written last] eqn:Hemit.
  destruct (emit_spec _ _ _ _ _ Hemit) as (_ & Hlinks & Hids & _).
  simpl. intros link. rewrite ids_of_app.
  destruct (decide (link = name)) as [->|Hne].
  - rewrite lookup_insert_eq, (ids_of_same _ _ Hlinks), Hids.
    specialize (Hinv name).
    destruct (cnt !! name) as [c|].
    + destruct Hinv as [Hc ->]. split; [lia|].
      replace (c + 1 + Z.of_nat (length (zip gs (zip ms ps))) - 1 + 1)
        with ((c + 1) + Z.of_nat (length (zip gs (zip ms ps)))) by lia.
      rewrite (seqZ_app 0 (c + 1)) by lia. by rewrite Z.add_0_l.
    + rewrite Hinv. split; [lia|]. simpl. f_equal; lia.
  - rewrite !lookup_insert_ne by done.
    rewrite (ids_of_other _ _ _ Hne Hlinks), app_nil_r. apply Hinv.
Qed.

Lemma visuals_loop_count_inv link_name visuals st visuals' st' :
  count_inv st.1 st.2 →
  over_visuals link_name visuals st = Ok (visuals', st') →
  count_inv st'.1 st'.2.
Proof.
  revert st visuals' st'.
  induction visuals as [|v vs IH]; intros [cnt log] visuals' st'; simpl.
  - intros ? ?. by simplify_eq.
  - intros Hinv.
    destruct (visit link_name (cnt, log) v) as [[v1 [cnt1 log1]]|e] eqn:Hv;
      simpl; [|done].
    destruct (over_visuals link_name vs (cnt1, log1)) as [[rest st1]|e] eqn:Hvs;
      simpl; [|done].
    intros ?. simplify_eq. eapply IH; [|done]. simpl.
    by eapply visual_visit_count_inv.
Qed.

Lemma links_loop_count_inv links st links' st' :
  count_inv st.1 st.2 →
  over_links links st = Ok (links', st') →
  count_inv st'.1 st'.2.
Proof.
  revert st links' st'.
  induction links as [|[name info] ls IH]; intros st links' st'; simpl.
  - intros ? ?. by simplify_eq.
  - intros Hinv.
    destruct (over_visuals name (link_visuals info) st) as [[vs1 st1]|e] eqn:Hv;
      simpl; [|done].
    destruct (over_links ls st1) as [[rest st2]|e] eqn:Hls; simpl; [|done].
    intros ?. simplify_eq. eapply IH; [|done].
    by eapply visuals_loop_count_inv.
Qed.
End Loops.

Lemma count_inv_init : count_inv ∅ [].
Proof. intros link. by rewrite lookup_empty. Qed.

(** What [load_robot] returns comes from the loop over the links. *)
Lemma load_robot_Ok robot urdf_path collapse cap umm fuel out :
  load_robot robot urdf_path collapse cap umm fuel = Some (Ok out) →
  ∃ rm pm cnt,
    (if collapse then collapse_maps robot fuel else Some (Ok (initial_maps robot)))
      = Some (Ok (rm, pm)) ∧
    links_loop robot collapse cap (if umm then [] else _material_map robot)
      rm pm (link_map robot) (∅, [])
      = Ok (links_after out, (cnt, emitted out)) ∧
    resource out = {| filename := urdf_path;
                      visual_data := visual_data_of (emitted out);
                      pose_data := pose_data_of (emitted out) |}.
Proof.
  unfold load_robot.
  destruct (if collapse then collapse_maps robot fuel else Some (Ok (initial_maps robot)))
    as [[[rm pm]|e]|]; [|done..].
  destruct (links_loop _ _ _ _ _ _ _ _) as [[links' [cnt log]]|e] eqn:Hloop;
    simpl; [|done].
  intros [= <-]. simpl. by exists rm, pm, cnt.
Qed.


(** ** The keys of the output dictionaries *)

Lemma pretty_N_go_slash_free x s : slash_free s → slash_free (pretty_N_go x s).
Proof.
  revert s. induction (N.lt_wf_0 x) as [x _ IH]; intros s Hs.
  assert (x = 0 ∨ 0 < x)%N as [->|?] by lia.
  - by rewrite pretty_N_go_0.
  - rewrite pretty_N_go_step by done. apply IH; [by apply N.div_lt|].
    split; [|done]. unfold pretty_N_char. by repeat case_match.
Qed.

Lemma pretty_Z_slash_free (z : Z) : slash_free (pretty z).
Proof.
  assert (∀ p : positive, slash_free (pretty p)) as Hpos.
  { intros p. unfold pretty, pretty_positive, pretty, pretty_N.
    case_decide; [by split|]. by apply pretty_N_go_slash_free. }
  destruct z as [|p|p]; unfold pretty, pretty_Z.
  - by split.
  - apply Hpos.
  - split; [done|apply Hpos].
Qed.

Lemma slash_not_free l d : ¬ slash_free (l +:+ String "/" d).
Proof.
  induction l as [|c l IH]; simpl.
  - by intros [? _].
  - intros [_ ?]. by apply IH.
Qed.

Lemma asset_key_split l1 l2 d1 d2 :
  slash_free d1 → slash_free d2 →
  l1 +:+ String "/" d1 = l2 +:+ String "/" d2 → l1 = l2 ∧ d1 = d2.
Proof.
  intros H1 H2. revert l2.
  induction l1 as [|c l1 IH]; intros [|c' l2]; simpl.
  - by intros [= ->].
  - intros [= <- ->]. by destruct (slash_not_free l2 d2).
  - intros [= -> <-]. by destruct (slash_not_free l1 d1).
  - intros [= -> Heq]. destruct (IH _ Heq) as [-> ->]. done.
Qed.

(** [f"{meshcat_link_name}/{geom_id}"] tells the link and the index. *)
Lemma asset_key_inj l1 l2 (i1 i2 : Z) :
  asset_key l1 i1 = asset_key l2 i2 → l1 = l2 ∧ i1 = i2.
Proof.
  unfold asset_key. intros Heq.
  change (l1 +:+ String "/" (pretty i1) = l2 +:+ String "/" (pretty i2)) in Heq.
  apply asset_key_split in Heq as [-> Heq]; [|apply pretty_Z_slash_free..].
  split; [done|]. by apply (inj pretty).
Qed.

Lemma ids_NoDup_keys (log : list Emitted) :
  (∀ link, NoDup (ids_of link log)) →
  NoDup ((fun e => asset_key (em_link e) (em_id e)) <$> log).
Proof.
  induction log as [|e log IH]; intros Hids; [constructor|].
  rewrite fmap_cons. apply NoDup_cons. split.
  - intros Hin. apply list_elem_of_fmap in Hin as (e' & Hkey & He').
    apply asset_key_inj in Hkey as [Hl Hi].
    specialize (Hids (em_link e)). unfold ids_of in Hids.
    rewrite filter_cons_True, fmap_cons in Hids by done.
    apply NoDup_cons in Hids as [Hnot _]. apply Hnot.
    rewrite Hi. apply list_elem_of_fmap_2. apply list_elem_of_filter. by split.
  - apply IH. intros link. specialize (Hids link). unfold ids_of in *.
    destruct (decide (em_link e = link)) as [Heq|Hne].
    + rewrite filter_cons_True, fmap_cons in Hids by done.
      by apply NoDup_cons in Hids as [_ ?].
    + by rewrite filter_cons_False in Hids.
Qed.

(** A log whose keys are distinct is read back from the dictionary. *)
Lemma foldl_insert_lookup {V} (key : Emitted → string) (val : Emitted → V)
    (log : list Emitted) e :
  NoDup (key <$> log) → e ∈ log →
  foldl (fun (d : gmap string V) e => <[key e := val e]> d) ∅ log !! key e
  = Some (val e).
Proof.
  induction log as [|x log IH] using rev_ind; intros Hnd Hin.
  - by apply elem_of_nil in Hin.
  - rewrite foldl_app. simpl. rewrite fmap_app in Hnd.
    apply NoDup_app in Hnd as (Hnd & Hx & _).
    apply elem_of_app in Hin as [He|Hin].
    + rewrite lookup_insert_ne; [by apply IH|].
      intros Heq. apply (Hx (key e)); [by apply list_elem_of_fmap_2|].
      rewrite <- Heq. simpl. apply list_elem_of_here.
    + apply list_elem_of_singleton in Hin as ->. apply lookup_insert_eq.
Qed.

(** ** The poses of the visuals *)

Lemma for_each_inv {S A} (body : S → A → result S) (I : S → Prop) xs st st' :
  (∀ st x st', x ∈ xs → I st → body st x = Ok st' → I st') →
  I st → for_each body xs st = Ok st' → I st'.
Proof.
  revert st. induction xs as [|x xs IH]; intros st Hbody Hst; simpl.
  - by intros [= <-].
  - destruct (body st x) as [st1|e] eqn:Hx; simpl; [|done].
    apply IH.
    + intros ? y ? Hy. apply Hbody. by right.
    + eapply Hbody; [left|done..].
Qed.

Lemma zip_Forall2 {A B C} (R : A → C → Prop) (gs : list A) (ms : list B)
    (ps : list C) g m p :
  Forall2 R gs ps → (g, (m, p)) ∈ zip gs (zip ms ps) → R g p.
Proof.
  intros H. revert ms. induction H as [|g' p' gs ps Hr _ IH]; intros ms; simpl.
  - intros Hin. by apply elem_of_nil in Hin.
  - destruct ms as [|m' ms]; simpl; [intros Hin; by apply elem_of_nil in Hin|].
    intros Hin. apply elem_of_cons in Hin as [[= -> -> ->]|Hin]; [done|].
    by eapply IH.
Qed.

Lemma Forall2_snoc {A B} (R : A → B → Prop) gs ps g p :
  Forall2 R gs ps → R g p → Forall2 R (gs ++ [g]) (ps ++ [p]).
Proof. intros. apply Forall2_app; [done|]. by apply Forall2_cons. Qed.

Section LocalPoses.
Variable robot : URDF.
Variable visual : Visual.
Variable mesh : Mesh.
Hypothesis Hmesh : geom_mesh (visual_geometry visual) = Some mesh.

Lemma mesh_batch_local urdf_rgba o gs ms ps :
  mesh_batch robot mesh urdf_rgba o = Ok (gs, ms, ps) →
  Forall2 (local_pose robot visual o) gs ps.
Proof.
  unfold mesh_batch.
  set (file := filename_handler robot (mesh_filename mesh)).
  set (I := fun acc : list meshcat_geometry * list (option meshcat_material)
                      * list ndarray =>
              Forall2 (local_pose robot visual o) acc.1.1 acc.2).
  assert (I ([], [], [])) as Hinit by constructor.
  destruct (endswith (lower file) "obj").
  { destruct (trimesh_load file) as [[m|s]|e] eqn:Hload; simpl; [| |done].
    - intros [= <- <- <-]. by apply Forall2_cons.
    - intros Hrun. apply (for_each_inv _ I _ _ _) in Hrun; [done| |done].
      intros [[gs0 ms0] ps0] [name msh] st' _ Hacc. unfold obj_scene_visit.
      destruct (graph_get s name) as [node|e] eqn:Hnode; simpl; [|done].
      intros [= <-]. unfold I in *. simpl in *.
      apply Forall2_snoc; [done|]. right.
      exists node.1. split; [|done].
      exists mesh, s, name, node. split_and!; try done; [by left|].
      unfold graph_get, getitem in Hnode.
      destruct (dict_get (scene_graph s) name) eqn:Hget; [|done].
      injection Hnode as ->. by apply dict_get_elem. }
  destruct (endswith (lower file) "dae").
  { destruct (trimesh_load file) as [[m|s]|e] eqn:Hload; simpl; [done| |done].
    intros Hrun. apply (for_each_inv _ I _ _ _) in Hrun; [done| |done].
    intros [[gs0 ms0] ps0] [name msh] st' _ Hacc. unfold dae_scene_visit.
    destruct (graph_get s name) as [node|e] eqn:Hnode; simpl; [|done].
    intros [= <-]. unfold I in *. simpl in *.
    by apply Forall2_snoc. }
  destruct (endswith (lower file) "stl").
  { destruct (trimesh_load file) as [[m|s]|e] eqn:Hload; simpl; [|done..].
    intros [= <- <- <-]. constructor; [by left|constructor]. }
  destruct (endswith (lower file) "glb"); [|done].
  destruct (trimesh_load_scene file) as [s|e] eqn:Hload; simpl; [|done].
  destruct (geom_name_map_of s) as [names|e]; simpl; [|done].
  intros Hrun. apply (for_each_inv _ I _ _ _) in Hrun; [done| |done].
  intros [[gs0 ms0] ps0] [name msh] st' _ Hacc. unfold glb_scene_visit.
  destruct (lookup_or_raise names (Some name)) as [node_name|e]; simpl; [|done].
  destruct (graph_get s node_name) as [node|e] eqn:Hnode; simpl; [|done].
  intros [= <-]. unfold I in *. simpl in *.
  apply Forall2_snoc; [done|]. right.
  exists node.1. split; [|done].
  exists mesh, s, node_name, node. split_and!; try done; [by right|].
  unfold graph_get, getitem in Hnode.
  destruct (dict_get (scene_graph s) node_name) eqn:Hget; [|done].
  injection Hnode as ->. by apply dict_get_elem.
Qed.
End LocalPoses.

Section OneVisual.
Variable robot : URDF.
Variable replace_cylinder_with_capsule : bool.
Variable material_map : list (string * Material).
Variable link_root_map : gmap string string.
Variable link_pose_map : gmap string ndarray.

Lemma pose_read_origin (visual : Visual) :
  pose_read visual
    (match visual_origin visual with Some _ => OriginOf | None => Local eye4 end)
  = default eye4 (visual_origin visual).
Proof. unfold pose_read. by destruct (visual_origin visual). Qed.


(** With the collapse enabled, [visual_pose] names an array made during
    the call, and the visual is left as it was. *)
Lemma visual_batch_unchanged link_name visual visual' b :
  visual_batch robot true replace_cylinder_with_capsule material_map
    link_pose_map link_name visual = Ok (visual', b) →
  visual' = visual.
Proof.
  unfold visual_batch.
  destruct (resolve_rgba material_map visual) as [urdf_rgba|e]; simpl; [|done].
  destruct (lookup_or_raise link_pose_map link_name) as [link_pose|e]; simpl; [|done].
  destruct (geom_mesh (visual_geometry visual)) as [mesh|].
  - destruct (mesh_batch robot mesh urdf_rgba _) as [b0|e]; simpl; [|done].
    by intros [= <- _].
  - unfold primitive_batch.
    destruct (geom_sphere (visual_geometry visual)) as [sphere|];
      [by intros [= <- _]|].
    destruct (geom_box (visual_geometry visual)) as [box|];
      [by intros [= <- _]|].
    destruct (geom_cylinder (visual_geometry visual)) as [cylinder|]; [|done].
    simpl. by intros [= <- _].
Qed.

(** A visual the dispatch has no branch for makes its visit raise. *)
Lemma visual_batch_unsupported collapse link_name visual :
  unsupported_visual robot visual = true →
  ∃ e, visual_batch robot collapse replace_cylinder_with_capsule material_map
         link_pose_map link_name visual = Raise e.
Proof.
  unfold unsupported_visual, visual_batch. intros Hun.
  destruct (resolve_rgba material_map visual) as [urdf_rgba|e]; simpl; [|by eexists].
  destruct (if collapse then _ else _) as [visual_pose|e]; simpl; [|by eexists].
  destruct (geom_mesh (visual_geometry visual)) as [mesh|].
  - unfold mesh_batch. unfold supported_extension in Hun.
    apply negb_true_iff in Hun.
    repeat (apply orb_false_iff in Hun as [Hun ?]).
    repeat match goal with H : endswith _ _ = false |- _ => rewrite H; clear H end.
    simpl. by eexists.
  - unfold primitive_batch.
    destruct (geom_sphere (visual_geometry visual)); [done|].
    destruct (geom_box (visual_geometry visual)); [done|].
    destruct (geom_cylinder (visual_geometry visual)); [done|].
    by eexists.
Qed.
End OneVisual.

Section AllVisuals.
Variable robot : URDF.
Variables collapse_fixed_joints replace_cylinder_with_capsule : bool.
Variable material_map : list (string * Material).
Variable link_root_map : gmap string string.
Variable link_pose_map : gmap string ndarray.

Local Abbreviation visit :=
  (visual_visit robot collapse_fixed_joints replace_cylinder_with_capsule
     material_map link_root_map link_pose_map).
Local Abbreviation over_visuals :=
  (visuals_loop robot collapse_fixed_joints replace_cylinder_with_capsule
     material_map link_root_map link_pose_map).
Local Abbreviation over_links :=
  (links_loop robot collapse_fixed_joints replace_cylinder_with_capsule
     material_map link_root_map link_pose_map).

(** *** Collapse disabled: own link, local pose *)




(** *** Collapse enabled: the document is left as it was *)

Lemma visuals_loop_unchanged link_name visuals st visuals' st' :
  collapse_fixed_joints = true →
  over_visuals link_name visuals st = Ok (visuals', st') → visuals' = visuals.
Proof.
  intros Hon. revert st visuals' st'.
  induction visuals as [|v vs IH]; intros [cnt log] visuals' st'; simpl.
  - intros Heq. by injection Heq as <- <-.
  - destruct (visit link_name (cnt, log) v) as [[v1 [cnt1 log1]]|e] eqn:Hv;
      simpl; [|done].
    destruct (over_visuals link_name vs (cnt1, log1)) as [[rest st1]|e] eqn:Hvs;
      simpl; [|done].
    intros Heq. injection Heq as <- <-. f_equal; [|by eapply IH].
    destruct (visual_visit_inv _ _ _ _ _ _ _ _ _ _ _ _ _ Hv)
      as (gs & ms & ps & name & Hbatch & _).
    rewrite Hon in Hbatch. by eapply visual_batch_unchanged.
Qed.

Lemma links_loop_unchanged links st links' st' :
  collapse_fixed_joints = true →
  over_links links st = Ok (links', st') → links' = links.
Proof.
  intros Hon. revert st links' st'.
  induction links as [|[name [vs]] ls IH]; intros st links' st'; simpl.
  - intros Heq. by injection Heq as <- <-.
  - destruct (over_visuals name vs st) as [[vs1 st1]|e] eqn:Hv; simpl; [|done].
    destruct (over_links ls st1) as [[rest st2]|e] eqn:Hls; simpl; [|done].
    intros Heq. injection Heq as <- <-.
    apply visuals_loop_unchanged in Hv as ->; [|done].
    apply IH in Hls as ->. done.
Qed.

(** *** A visual without a branch stops the loops *)

Lemma visuals_loop_unsupported link_name visuals st visual :
  visual ∈ visuals → unsupported_visual robot visual = true →
  ∃ e, over_visuals link_name visuals st = Raise e.
Proof.
  intros Hin Hun. revert st.
  induction visuals as [|v vs IH]; intros [cnt log]; simpl.
  - by apply elem_of_nil in Hin.
  - destruct (visit link_name (cnt, log) v) as [[v1 st1]|e] eqn:Hv;
      simpl; [|by eexists].
    apply elem_of_cons in Hin as [->|Hin].
    + destruct st1 as [cnt1 log1].
      destruct (visual_visit_inv _ _ _ _ _ _ _ _ _ _ _ _ _ Hv)
        as (gs & ms & ps & name & Hbatch & _).
      destruct (visual_batch_unsupported robot replace_cylinder_with_capsule
                  material_map link_pose_map collapse_fixed_joints link_name v Hun)
        as [e He].
      congruence.
    + destruct (IH Hin st1) as [e ->]. simpl. by eexists.
Qed.

Lemma links_loop_unsupported links st link_name link_info visual :
  (link_name, link_info) ∈ links → visual ∈ link_visuals link_info →
  unsupported_visual robot visual = true →
  ∃ e, over_links links st = Raise e.
Proof.
  intros Hin Hv Hun. revert st.
  induction links as [|[name info] ls IH]; intros st; simpl.
  - by apply elem_of_nil in Hin.
  - apply elem_of_cons in Hin as [[= <- <-]|Hin].
    + destruct (visuals_loop_unsupported link_name _ st _ Hv Hun) as [e ->].
      simpl. by eexists.
    + destruct (over_visuals name (link_visuals info) st) as [[vs1 st1]|e];
        simpl; [|by eexists].
      destruct (IH Hin st1) as [e ->]. simpl. by eexists.
Qed.
End AllVisuals.

(** ** Every joint treated as movable *)

Section AllMovable.
Variable robot : URDF.







Variable replace_cylinder_with_capsule : bool.
Variable material_map : list (string * Material).


Variable rm : gmap string string.
Variable pm : gmap string ndarray.
Variable rm0 : gmap string string.
Variable pm0 : gmap string ndarray.



End AllMovable.


(** ** Sub-mesh poses (C7) *)

(** Every pose of a dae scene is the pose of the visual: the product with
    the transform of the node is computed (line 112) and not used
    (line 113). *)
Lemma dae_scene_poses (s : Scene tm_mesh) mesh_filename urdf_rgba visual_pose
    items acc gs ms ps :
  for_each (dae_scene_visit s mesh_filename urdf_rgba visual_pose) items acc
    = Ok (gs, ms, ps) →
  ps = acc.2 ++ replicate (length items) visual_pose.
Proof.
  revert acc. induction items as [|[name msh] items IH]; intros [[gs0 ms0] ps0]; simpl.
  - intros [= <- <- <-]. by rewrite app_nil_r.
  - destruct (graph_get s name) as [node|e]; simpl; [|done].
    intros Hrun. apply IH in Hrun as ->. simpl. by rewrite <- app_assoc.
Qed.

(** The obj and glb branches do compose the transform of the node. *)
Lemma obj_scene_poses (s : Scene tm_mesh) mesh_scale urdf_rgba visual_pose
    items acc gs ms ps :
  for_each (obj_scene_visit s mesh_scale urdf_rgba visual_pose) items acc
    = Ok (gs, ms, ps) →
  ∃ nodes,
    Forall2 (fun item node => graph_get s item.1 = Ok node) items nodes ∧
    ps = acc.2 ++ ((fun node => matmul visual_pose node.1) <$> nodes).
Proof.
  revert acc. induction items as [|[name msh] items IH]; intros [[gs0 ms0] ps0]; simpl.
  - intros [= <- <- <-]. exists []. split; [constructor|by rewrite app_nil_r].
  - destruct (graph_get s name) as [node|e] eqn:Hnode; simpl; [|done].
    intros Hrun. apply IH in Hrun as (nodes & Hnodes & ->).
    exists (node :: nodes). split; [by constructor|].
    simpl. by rewrite <- app_assoc.
Qed.

(** ** Collapse disabled (C8) *)


(** ** Unsupported geometry (C9) *)

(** C9. A visual whose mesh file has none of the four extensions the
    loader tests for, or whose geometry is no mesh, sphere, box or
    cylinder, makes the whole load fail: no outcome is ever returned, and
    an exception is raised as soon as the collapse maps are there, that
    is at once with the collapse disabled and after one pass per joint on
    a well-formed tree. *)
Theorem C9_unsupported_geometry_is_fatal (robot : URDF) (urdf_path : string)
    (collapse_fixed_joints replace_cylinder_with_capsule use_mesh_materials : bool)
    (fuel : nat) (link_name : string) (link_info : Link) (visual : Visual) :
  (link_name, link_info) ∈ link_map robot →
  visual ∈ link_visuals link_info →
  unsupported_visual robot visual = true →
  (∀ out, load_robot robot urdf_path collapse_fixed_joints
            replace_cylinder_with_capsule use_mesh_materials fuel
          ≠ Some (Ok out)) ∧
  (collapse_fixed_joints = false ∨
   (well_formed robot ∧ (length (joint_map robot) ≤ fuel)%nat) →
   ∃ e, load_robot robot urdf_path collapse_fixed_joints
          replace_cylinder_with_capsule use_mesh_materials fuel
        = Some (Raise e)).
Proof.
  intros Hlink Hvisual Hun.
  assert (∀ rm pm,
    ∃ e, links_loop robot collapse_fixed_joints replace_cylinder_with_capsule
           (if use_mesh_materials then [] else _material_map robot) rm pm
           (link_map robot) (∅, []) = Raise e) as Hloop.
  { intros rm pm. by eapply links_loop_unsupported. }
  split.
  - intros out Hload.
    destruct (load_robot_Ok _ _ _ _ _ _ _ Hload) as (rm & pm & cnt & _ & Hrun & _).
    destruct (Hloop rm pm) as [e He]. congruence.
  - unfold load_robot. intros [->|[Hwf Hfuel]].
    + destruct (Hloop (initial_maps robot).1 (initial_maps robot).2) as [e He].
      simpl in *. rewrite He. by eexists.
    + destruct (collapse_maps_well_formed robot fuel Hwf Hfuel)
        as (cache & sorted & rm & pm & _ & Hrun & _).
      destruct (Hloop rm pm) as [e He].
      destruct collapse_fixed_joints.
      * rewrite Hrun, He. by eexists.
      * destruct (Hloop (initial_maps robot).1 (initial_maps robot).2) as [e' He'].
        simpl in *. rewrite He'. by eexists.
Qed.

(** ** The document after the call (C10) *)

(** With the collapse enabled the link table is left as it was parsed:
    [visual_pose] then names the result of line 77, not the origin. *)
Lemma load_robot_collapse_leaves_document (robot : URDF) (urdf_path : string)
    (replace_cylinder_with_capsule use_mesh_materials : bool) (fuel : nat)
    (out : Outcome) :
  load_robot robot urdf_path true replace_cylinder_with_capsule
    use_mesh_materials fuel = Some (Ok out) →
  links_after out = link_map robot.
Proof.
  intros Hload.
  destruct (load_robot_Ok _ _ _ _ _ _ _ Hload) as (rm & pm & cnt & _ & Hloop & _).
  by eapply links_loop_unchanged.
Qed.

(** * Further properties of [load_urdf_with_yourdfpy] *)

(** ** The keys and the two dictionaries *)

(** X1. The key [f"{meshcat_link_name}/{geom_id}"] of lines 167-168 tells the
    link and the index apart, also for a link name that has a slash
    in it: two keys are equal only for the same link and the same index. *)
Theorem asset_key_determines_link_and_index (l1 l2 : string) (i1 i2 : Z) :
  asset_key l1 i1 = asset_key l2 i2 ↔ l1 = l2 ∧ i1 = i2.
Proof.
  split; [apply asset_key_inj|]. by intros [-> ->].
Qed.

Lemma foldl_insert_dom {V} (key : Emitted → string) (val : Emitted → V)
    (log : list Emitted) (k : string) :
  k ∈ dom (foldl (fun (d : gmap string V) e => <[key e := val e]> d) ∅ log)
  ↔ k ∈ key <$> log.
Proof.
  induction log as [|x log IH] using rev_ind.
  - simpl. rewrite dom_empty_L. split; [set_solver|].
    intros H. by apply elem_of_nil in H.
  - rewrite foldl_app, fmap_app. simpl.
    rewrite dom_insert_L, elem_of_union, elem_of_singleton, IH, elem_of_app,
      list_elem_of_singleton. tauto.
Qed.

Lemma foldl_insert_size {V} (key : Emitted → string) (val : Emitted → V)
    (log : list Emitted) :
  NoDup (key <$> log) →
  size (foldl (fun (d : gmap string V) e => <[key e := val e]> d) ∅ log)
  = length log.
Proof.
  induction log as [|x log IH] using rev_ind; intros Hnd; [done|].
  rewrite foldl_app, length_app. simpl. rewrite fmap_app in Hnd.
  apply NoDup_app in Hnd as (Hnd & Hx & _).
  rewrite map_size_insert_None; [rewrite IH by done; lia|].
  apply not_elem_of_dom. rewrite foldl_insert_dom. intros Hin.
  apply (Hx _ Hin). simpl. apply list_elem_of_here.
Qed.

(** X2. Lines 166-176. When the load returns, the two dictionaries of the
    resource have the same keys, these are the keys of the writes and no
    other, and there are as many of them as writes: the geometry
    dictionary and the pose dictionary never get out of step. *)
Theorem dictionaries_hold_the_writes (robot : URDF) (urdf_path : string)
    (collapse_fixed_joints replace_cylinder_with_capsule use_mesh_materials : bool)
    (fuel : nat) (out : Outcome) :
  load_robot robot urdf_path collapse_fixed_joints replace_cylinder_with_capsule
    use_mesh_materials fuel = Some (Ok out) →
  dom (visual_data (resource out)) = dom (pose_data (resource out)) ∧
  (∀ key, key ∈ dom (pose_data (resource out))
          ↔ ∃ e, e ∈ emitted out ∧ key = asset_key (em_link e) (em_id e)) ∧
  size (visual_data (resource out)) = length (emitted out) ∧
  size (pose_data (resource out)) = length (emitted out).
Proof.
  intros Hload.
  destruct (load_robot_Ok _ _ _ _ _ _ _ Hload) as (rm & pm & cnt & _ & Hloop & Hres).
  pose proof (links_loop_count_inv _ _ _ _ _ _ _ (∅, []) _ _ count_inv_init Hloop)
    as Hinv. simpl in Hinv.
  assert (NoDup ((fun e => asset_key (em_link e) (em_id e)) <$> emitted out)) as Hnd.
  { apply ids_NoDup_keys. intros link. specialize (Hinv link).
    destruct (cnt !! link) as [c|].
    - destruct Hinv as [_ ->]. apply NoDup_seqZ.
    - rewrite Hinv. constructor. }
  rewrite Hres. simpl. unfold visual_data_of, pose_data_of. split_and!.
  - apply set_eq. intros k. by rewrite !foldl_insert_dom.
  - intros k. rewrite foldl_insert_dom, list_elem_of_fmap.
    split; [intros (e & -> & He)|intros (e & He & ->)]; by exists e.
  - by apply (foldl_insert_size (fun e => asset_key (em_link e) (em_id e))).
  - by apply (foldl_insert_size (fun e => asset_key (em_link e) (em_id e))).
Qed.

(** ** One visual *)

Section FurtherVisual.
Variable robot : URDF.
Variables collapse_fixed_joints replace_cylinder_with_capsule : bool.
Variable material_map : list (string * Material).
Variable link_root_map : gmap string string.
Variable link_pose_map : gmap string ndarray.

Lemma mesh_batch_lengths mesh urdf_rgba o gs ms ps :
  mesh_batch robot mesh urdf_rgba o = Ok (gs, ms, ps) →
  length ms = length gs ∧ length ps = length gs.
Proof.
  unfold mesh_batch.
  set (file := filename_handler robot (mesh_filename mesh)).
  set (I := fun acc : list meshcat_geometry * list (option meshcat_material)
                      * list ndarray =>
              length acc.1.2 = length acc.1.1 ∧ length acc.2 = length acc.1.1).
  assert (I ([], [], [])) as Hinit by done.
  assert (∀ (gs0 : list meshcat_geometry) (ms0 : list (option meshcat_material))
            (ps0 : list ndarray) g m p,
            I (gs0, ms0, ps0) → I (gs0 ++ [g], ms0 ++ [m], ps0 ++ [p])) as Hstep.
  { unfold I. simpl. intros ?????? [??]. rewrite !length_app. simpl. lia. }
  destruct (endswith (lower file) "obj").
  { destruct (trimesh_load file) as [[m|s]|e]; simpl; [| |done].
    - by intros [= <- <- <-].
    - intros Hrun. apply (for_each_inv _ I _ _ _) in Hrun; [done| |done].
      intros [[gs0 ms0] ps0] [name msh] st' _ Hacc. unfold obj_scene_visit.
      destruct (graph_get s name) as [node|e]; simpl; [|done].
      intros [= <-]. by apply Hstep. }
  destruct (endswith (lower file) "dae").
  { destruct (trimesh_load file) as [[m|s]|e]; simpl; [done| |done].
    intros Hrun. apply (for_each_inv _ I _ _ _) in Hrun; [done| |done].
    intros [[gs0 ms0] ps0] [name msh] st' _ Hacc. unfold dae_scene_visit.
    destruct (graph_get s name) as [node|e]; simpl; [|done].
    intros [= <-]. by apply Hstep. }
  destruct (endswith (lower file) "stl").
  { destruct (trimesh_load file) as [[m|s]|e]; simpl; [|done..].
    by intros [= <- <- <-]. }
  destruct (endswith (lower file) "glb"); [|done].
  destruct (trimesh_load_scene file) as [s|e]; simpl; [|done].
  destruct (geom_name_map_of s) as [names|e]; simpl; [|done].
  intros Hrun. apply (for_each_inv _ I _ _ _) in Hrun; [done| |done].
  intros [[gs0 ms0] ps0] [name msh] st' _ Hacc. unfold glb_scene_visit.
  destruct (lookup_or_raise names (Some name)) as [node_name|e]; simpl; [|done].
  destruct (graph_get s node_name) as [node|e]; simpl; [|done].
  intros [= <-]. by apply Hstep.
Qed.

Lemma visual_batch_lengths link_name visual visual' gs ms ps :
  visual_batch robot collapse_fixed_joints replace_cylinder_with_capsule
    material_map link_pose_map link_name visual = Ok (visual', (gs, ms, ps)) →
  length ms = length gs ∧ length ps = length gs.
Proof.
  unfold visual_batch.
  destruct (resolve_rgba material_map visual) as [urdf_rgba|e]; simpl; [|done].
  destruct (if collapse_fixed_joints then _ else _) as [visual_pose|e]; simpl; [|done].
  destruct (geom_mesh (visual_geometry visual)) as [mesh|].
  - destruct (mesh_batch robot mesh urdf_rgba _) as [[[gs0 ms0] ps0]|e] eqn:Hb;
      simpl; [|done].
    intros [= <- <- <- <-]. by eapply mesh_batch_lengths.
  - unfold primitive_batch.
    destruct (geom_sphere (visual_geometry visual)); [by intros [= <- <- <- <-]|].
    destruct (geom_box (visual_geometry visual)); [by intros [= <- <- <- <-]|].
    destruct (geom_cylinder (visual_geometry visual)); [|done].
    destruct (pose_assign_block visual visual_pose). by intros [= <- <- <- <-].
Qed.

(** X3. Lines 59-170. The [zip] of line 166 drops nothing: when the visit of a
    visual goes through, the writes it adds are, in order, the geometries
    of the visual, each with the material and the pose computed for it. *)
Theorem every_geometry_is_written (link_name : string)
    (st st' : gmap string Z * list Emitted) (visual visual' : Visual) :
  visual_visit robot collapse_fixed_joints replace_cylinder_with_capsule
    material_map link_root_map link_pose_map link_name st visual
    = Ok (visual', st') →
  ∃ geometries mats poses new,
    visual_batch robot collapse_fixed_joints replace_cylinder_with_capsule
      material_map link_pose_map link_name visual
      = Ok (visual', (geometries, mats, poses)) ∧
    st'.2 = st.2 ++ new ∧
    em_geometry <$> new = geometries ∧
    em_material <$> new = mats ∧
    em_pose <$> new = poses.
Proof.
  destruct st as [cnt log], st' as [cnt' log']. intros Hvisit.
  destruct (visual_visit_inv _ _ _ _ _ _ _ _ _ _ _ _ _ Hvisit)
    as (gs & ms & ps & name & Hbatch & _ & _ & ->).
  destruct (visual_batch_lengths _ _ _ _ _ _ Hbatch) as [Hms Hps].
  destruct (emit name _ (zip gs (zip ms ps))) as [new last] eqn:Hemit.
  destruct (emit_spec _ _ _ _ _ Hemit) as (_ & _ & _ & Hitems).
  exists gs, ms, ps, new. split_and!; [done..| | |].
  - transitivity ((zip gs (zip ms ps)).*1).
    + rewrite <- Hitems, <- list_fmap_compose. by apply list_fmap_ext.
    + apply fst_zip. rewrite length_zip. lia.
  - transitivity ((zip gs (zip ms ps)).*2.*1).
    + rewrite <- Hitems, <- !list_fmap_compose. by apply list_fmap_ext.
    + rewrite snd_zip by (rewrite length_zip; lia). apply fst_zip. lia.
  - transitivity ((zip gs (zip ms ps)).*2.*2).
    + rewrite <- Hitems, <- !list_fmap_compose. by apply list_fmap_ext.
    + rewrite snd_zip by (rewrite length_zip; lia). apply snd_zip. lia.
Qed.

(** With the collapse disabled, the only visuals the call changes are the
    cylinders, whose origin gets the axis rotation. *)
Lemma visual_batch_after_disabled link_name visual visual' b :
  visual_batch robot false replace_cylinder_with_capsule material_map
    link_pose_map link_name visual = Ok (visual', b) →
  visual' = visual_after_disabled visual.
Proof.
  unfold visual_batch, visual_after_disabled, is_cylinder_visual.
  destruct (resolve_rgba material_map visual) as [urdf_rgba|e]; simpl; [|done].
  destruct (geom_mesh (visual_geometry visual)) as [mesh|].
  - destruct (mesh_batch robot mesh urdf_rgba _) as [b0|e]; simpl; [|done].
    by intros [= <- _].
  - unfold primitive_batch.
    destruct (geom_sphere (visual_geometry visual)); [by intros [= <- _]|].
    destruct (geom_box (visual_geometry visual)); [by intros [= <- _]|].
    destruct (geom_cylinder (visual_geometry visual)); [|done].
    destruct visual as [g [a|] m]; simpl; by intros [= <- _].
Qed.
End FurtherVisual.

(** ** The counter and the geometries of the visuals (C6) *)

Local Abbreviation entry :=
  (meshcat_geometry * (option meshcat_material * ndarray))%type.

Lemma filter_fmap_length {A B} (f : A → B) (P : B → Prop)
    `{∀ y, Decision (P y)} (l : list A) :
  length (filter P (f <$> l)) = length (filter (fun x => P (f x)) l).
Proof.
  induction l as [|x l IH]; [done|].
  rewrite fmap_cons, !filter_cons. destruct (decide (P (f x))); simpl; by rewrite IH.
Qed.

Lemma emit_entries name geom_id (items : list entry) :
  entry_of <$> (emit name geom_id items).1 = (fun en => (name, en)) <$> items.
Proof.
  destruct (emit name geom_id items) as [written last] eqn:Hemit.
  destruct (emit_spec _ _ _ _ _ Hemit) as (_ & Hl & _ & Hit). simpl.
  rewrite <- Hit, <- list_fmap_compose. apply Forall_fmap_ext_1.
  eapply Forall_impl; [exact Hl|]. intros e He. unfold entry_of. simpl.
  by rewrite He.
Qed.

Lemma entries_of_app (groups groups' : list (string * list entry)) :
  entries_of (groups ++ groups') = entries_of groups ++ entries_of groups'.
Proof. unfold entries_of. apply bind_app. Qed.

Section Yields.
Variable robot : URDF.
Variables collapse_fixed_joints replace_cylinder_with_capsule : bool.
Variable material_map : list (string * Material).
Variable link_root_map : gmap string string.
Variable link_pose_map : gmap string ndarray.

Lemma visual_visit_yields link_name cnt log visual visual' cnt' log' :
  visual_visit robot collapse_fixed_joints replace_cylinder_with_capsule
    material_map link_root_map link_pose_map link_name (cnt, log) visual
    = Ok (visual', (cnt', log')) →
  ∃ group,
    yields robot collapse_fixed_joints replace_cylinder_with_capsule
      material_map link_root_map link_pose_map (link_name, visual) group ∧
    entry_of <$> log' = (entry_of <$> log) ++ entries_of [group].
Proof.
  intros Hvisit.
  destruct (visual_visit_inv _ _ _ _ _ _ _ _ _ _ _ _ _ Hvisit)
    as (gs & ms & ps & name & Hbatch & Hname & _ & ->).
  destruct (visual_batch_lengths _ _ _ _ _ _ _ _ _ _ _ Hbatch) as [Hms Hps].
  exists (name, zip gs (zip ms ps)). split.
  - exists visual', gs, ms, ps. by split_and!.
  - rewrite fmap_app, emit_entries. unfold entries_of. simpl.
    by rewrite app_nil_r.
Qed.

Lemma visuals_loop_yields link_name visuals st visuals' st' :
  visuals_loop robot collapse_fixed_joints replace_cylinder_with_capsule
    material_map link_root_map link_pose_map link_name visuals st
    = Ok (visuals', st') →
  ∃ groups,
    Forall2 (yields robot collapse_fixed_joints replace_cylinder_with_capsule
               material_map link_root_map link_pose_map)
      ((fun visual => (link_name, visual)) <$> visuals) groups ∧
    entry_of <$> st'.2 = (entry_of <$> st.2) ++ entries_of groups.
Proof.
  revert st visuals' st'.
  induction visuals as [|v vs IH]; intros [cnt log] visuals' st'; simpl.
  - intros Heq. injection Heq as <- <-. exists []. split; [constructor|].
    simpl. by rewrite app_nil_r.
  - destruct (visual_visit _ _ _ _ _ _ link_name (cnt, log) v)
      as [[v1 [cnt1 log1]]|e] eqn:Hv; simpl; [|done].
    destruct (visuals_loop _ _ _ _ _ _ link_name vs (cnt1, log1))
      as [[rest st1]|e] eqn:Hvs; simpl; [|done].
    intros Heq. injection Heq as <- <-.
    apply visual_visit_yields in Hv as (group & Hgroup & Hlog).
    apply IH in Hvs as (groups & Hgroups & Hlogs). simpl in Hlogs.
    exists (group :: groups). split; [by constructor|].
    rewrite Hlogs, Hlog, <- app_assoc. f_equal.
    by rewrite <- entries_of_app.
Qed.

Lemma links_loop_yields links st links' st' :
  links_loop robot collapse_fixed_joints replace_cylinder_with_capsule
    material_map link_root_map link_pose_map links st = Ok (links', st') →
  ∃ groups,
    Forall2 (yields robot collapse_fixed_joints replace_cylinder_with_capsule
               material_map link_root_map link_pose_map)
      (scanned links) groups ∧
    entry_of <$> st'.2 = (entry_of <$> st.2) ++ entries_of groups.
Proof.
  revert st links' st'.
  induction links as [|[name info] ls IH]; intros st links' st'; simpl.
  - intros Heq. injection Heq as <- <-. exists []. split; [constructor|].
    simpl. by rewrite app_nil_r.
  - destruct (visuals_loop _ _ _ _ _ _ name (link_visuals info) st)
      as [[vs1 st1]|e] eqn:Hv; simpl; [|done].
    destruct (links_loop _ _ _ _ _ _ ls st1) as [[rest st2]|e] eqn:Hls;
      simpl; [|done].
    intros Heq. injection Heq as <- <-.
    apply visuals_loop_yields in Hv as (groups1 & Hgroups1 & Hlog1).
    apply IH in Hls as (groups2 & Hgroups2 & Hlog2).
    exists (groups1 ++ groups2). split.
    + change (scanned ((name, info) :: ls))
        with (((fun visual => (name, visual)) <$> link_visuals info) ++ scanned ls).
      by apply Forall2_app.
    + by rewrite Hlog2, Hlog1, <- app_assoc, entries_of_app.
Qed.
End Yields.

(** C6. Per-link indices: whatever the flags, when the load returns, the
    writes are, in order, the entries that the visuals of the document
    give in the order of the scan of the link map, one write for each
    geometry of each visual, the sub-meshes of a mesh file included, each
    under the canonical link of the link that owns the visual. The
    indices written under each canonical link are, in the order of the
    writes, 0, 1, 2, ... up to the number of entries given for that link
    less one: the counter goes up once per entry. In particular they are
    pairwise distinct, and every write is read back from the two returned
    dictionaries under its key: no key was written twice. *)
Theorem C6_indices_contiguous (robot : URDF) (urdf_path : string)
    (collapse_fixed_joints replace_cylinder_with_capsule use_mesh_materials : bool)
    (fuel : nat) (out : Outcome) :
  load_robot robot urdf_path collapse_fixed_joints replace_cylinder_with_capsule
    use_mesh_materials fuel = Some (Ok out) →
  (∃ link_root_map link_pose_map groups,
     (if collapse_fixed_joints then collapse_maps robot fuel
      else Some (Ok (initial_maps robot)))
       = Some (Ok (link_root_map, link_pose_map)) ∧
     Forall2 (yields robot collapse_fixed_joints replace_cylinder_with_capsule
                (if use_mesh_materials then [] else _material_map robot)
                link_root_map link_pose_map)
       (scanned (link_map robot)) groups ∧
     entry_of <$> emitted out = entries_of groups ∧
     ∀ link,
       ids_of link (emitted out)
       = seqZ 0 (Z.of_nat (length (filter (fun en => en.1 = link)
                                     (entries_of groups))))) ∧
  (∀ link,
     ids_of link (emitted out)
       = seqZ 0 (Z.of_nat (length (ids_of link (emitted out)))) ∧
     NoDup (ids_of link (emitted out))) ∧
  (∀ e, e ∈ emitted out →
     visual_data (resource out) !! asset_key (em_link e) (em_id e)
       = Some (em_geometry e, em_material e) ∧
     pose_data (resource out) !! asset_key (em_link e) (em_id e)
       = Some (em_pose e)).
Proof.
  intros Hload.
  destruct (load_robot_Ok _ _ _ _ _ _ _ Hload) as (rm & pm & cnt & Hmaps & Hloop & Hres).
  assert (∀ link,
     ids_of link (emitted out)
       = seqZ 0 (Z.of_nat (length (ids_of link (emitted out)))) ∧
     NoDup (ids_of link (emitted out))) as Hids.
  { intros link.
    pose proof (links_loop_count_inv _ _ _ _ _ _ _ (∅, []) _ _ count_inv_init Hloop link)
      as H.
    simpl in H.
    assert (∃ n, 0 ≤ n ∧ ids_of link (emitted out) = seqZ 0 n) as (n & Hn & ->).
    { destruct (cnt !! link) as [c|].
      - exists (c + 1). split; [lia|]. apply H.
      - exists 0. split; [lia|]. by rewrite H. }
    split; [|apply NoDup_seqZ].
    rewrite length_seqZ. f_equal. lia. }
  split_and!; [|done|].
  - destruct (links_loop_yields _ _ _ _ _ _ _ _ _ _ Hloop)
      as (groups & Hgroups & Hlog).
    simpl in Hlog. exists rm, pm, groups. split_and!; [done..|].
    intros link. destruct (Hids link) as [-> _]. do 2 f_equal.
    rewrite <- Hlog, filter_fmap_length. unfold ids_of.
    by rewrite length_fmap.
  - intros e He. rewrite Hres. simpl.
    assert (NoDup ((fun e => asset_key (em_link e) (em_id e)) <$> emitted out)) as Hnd
      by (apply ids_NoDup_keys; intros link; apply Hids).
    split.
    + by apply (foldl_insert_lookup (fun e => asset_key (em_link e) (em_id e))
                  (fun e => (em_geometry e, em_material e))).
    + by apply (foldl_insert_lookup (fun e => asset_key (em_link e) (em_id e)) em_pose).
Qed.

(** ** The loops over the links and their visuals *)

Section FurtherLoops.
Variable robot : URDF.
Variables collapse_fixed_joints replace_cylinder_with_capsule : bool.
Variable material_map : list (string * Material).
Variable link_root_map : gmap string string.
Variable link_pose_map : gmap string ndarray.

Local Abbreviation visit :=
  (visual_visit robot collapse_fixed_joints replace_cylinder_with_capsule
     material_map link_root_map link_pose_map).
Local Abbreviation batch_of :=
  (visual_batch robot collapse_fixed_joints replace_cylinder_with_capsule
     material_map link_pose_map).
Local Abbreviation over_visuals :=
  (visuals_loop robot collapse_fixed_joints replace_cylinder_with_capsule
     material_map link_root_map link_pose_map).
Local Abbreviation over_links :=
  (links_loop robot collapse_fixed_joints replace_cylinder_with_capsule
     material_map link_root_map link_pose_map).

(** A visual whose three lists cannot be made stops the two loops. *)
Lemma visuals_loop_raises link_name visuals st visual :
  visual ∈ visuals → (∃ e, batch_of link_name visual = Raise e) →
  ∃ e, over_visuals link_name visuals st = Raise e.
Proof.
  intros Hin [e0 Hraise]. revert st.
  induction visuals as [|v vs IH]; intros [cnt log]; simpl.
  - by apply elem_of_nil in Hin.
  - destruct (visit link_name (cnt, log) v) as [[v1 st1]|e] eqn:Hv;
      simpl; [|by eexists].
    apply elem_of_cons in Hin as [->|Hin].
    + destruct st1 as [cnt1 log1].
      destruct (visual_visit_inv _ _ _ _ _ _ _ _ _ _ _ _ _ Hv)
        as (gs & ms & ps & name & Hbatch & _).
      congruence.
    + destruct (IH Hin st1) as [e ->]. simpl. by eexists.
Qed.

Lemma links_loop_raises links st link_name link_info visual :
  (link_name, link_info) ∈ links → visual ∈ link_visuals link_info →
  (∃ e, batch_of link_name visual = Raise e) →
  ∃ e, over_links links st = Raise e.
Proof.
  intros Hin Hv Hraise. revert st.
  induction links as [|[name info] ls IH]; intros st; simpl.
  - by apply elem_of_nil in Hin.
  - apply elem_of_cons in Hin as [[= <- <-]|Hin].
    + destruct (visuals_loop_raises link_name _ st _ Hv Hraise) as [e ->].
      simpl. by eexists.
    + destruct (over_visuals name (link_visuals info) st) as [[vs1 st1]|e];
        simpl; [|by eexists].
      destruct (IH Hin st1) as [e ->]. simpl. by eexists.
Qed.

(** A property of the writes that every visit keeps is kept by the loops. *)
Lemma visuals_loop_log_inv (P : Emitted → Prop) link_name visuals st visuals' st' :
  (∀ visual st0 visual' st1, visual ∈ visuals → Forall P st0.2 →
     visit link_name st0 visual = Ok (visual', st1) → Forall P st1.2) →
  Forall P st.2 →
  over_visuals link_name visuals st = Ok (visuals', st') →
  Forall P st'.2.
Proof.
  revert st visuals' st'.
  induction visuals as [|v vs IH]; intros st visuals' st' Hstep; simpl.
  - intros ? Heq. by injection Heq as <- <-.
  - intros Hlog.
    destruct (visit link_name st v) as [[v1 st1]|e] eqn:Hv; simpl; [|done].
    destruct (over_visuals link_name vs st1) as [[rest st2]|e] eqn:Hvs;
      simpl; [|done].
    intros Heq. injection Heq as <- <-. eapply IH; [| |done].
    + intros ? ? ? ? ?. apply Hstep. by right.
    + eapply Hstep; [left|done..].
Qed.

Lemma links_loop_log_inv (P : Emitted → Prop) links st links' st' :
  (∀ link_name link_info visual st0 visual' st1,
     (link_name, link_info) ∈ links → visual ∈ link_visuals link_info →
     Forall P st0.2 →
     visit link_name st0 visual = Ok (visual', st1) → Forall P st1.2) →
  Forall P st.2 →
  over_links links st = Ok (links', st') →
  Forall P st'.2.
Proof.
  revert st links' st'.
  induction links as [|[name info] ls IH]; intros st links' st' Hstep; simpl.
  - intros ? Heq. by injection Heq as <- <-.
  - intros Hlog.
    destruct (over_visuals name (link_visuals info) st) as [[vs1 st1]|e] eqn:Hv;
      simpl; [|done].
    destruct (over_links ls st1) as [[rest st2]|e] eqn:Hls; simpl; [|done].
    intros Heq. injection Heq as <- <-. eapply IH; [| |done].
    + intros ? ? ? ? ? ? ?. apply Hstep. by right.
    + eapply visuals_loop_log_inv; [|done..].
      intros ? ? ? ? ?. by apply (Hstep name info); [left|].
Qed.
End FurtherLoops.

Section FurtherDisabled.
Variable robot : URDF.
Variable replace_cylinder_with_capsule : bool.
Variable material_map : list (string * Material).
Variable link_root_map : gmap string string.
Variable link_pose_map : gmap string ndarray.

Lemma visuals_loop_after_disabled link_name visuals st visuals' st' :
  visuals_loop robot false replace_cylinder_with_capsule material_map
    link_root_map link_pose_map link_name visuals st = Ok (visuals', st') →
  visuals' = visual_after_disabled <$> visuals.
Proof.
  revert st visuals' st'.
  induction visuals as [|v vs IH]; intros [cnt log] visuals' st'; simpl.
  - intros Heq. by injection Heq as <- <-.
  - destruct (visual_visit robot false _ _ _ _ link_name (cnt, log) v)
      as [[v1 [cnt1 log1]]|e] eqn:Hv; simpl; [|done].
    destruct (visuals_loop robot false _ _ _ _ link_name vs (cnt1, log1))
      as [[rest st1]|e] eqn:Hvs; simpl; [|done].
    intros Heq. injection Heq as <- <-. f_equal; [|by eapply IH].
    destruct (visual_visit_inv _ _ _ _ _ _ _ _ _ _ _ _ _ Hv)
      as (gs & ms & ps & name & Hbatch & _).
    by eapply visual_batch_after_disabled.
Qed.

Lemma links_loop_after_disabled links st links' st' :
  links_loop robot false replace_cylinder_with_capsule material_map
    link_root_map link_pose_map links st = Ok (links', st') →
  links' = links_after_disabled links.
Proof.
  revert st links' st'.
  induction links as [|[name info] ls IH]; intros st links' st'; simpl.
  - intros Heq. by injection Heq as <- <-.
  - destruct (visuals_loop robot false _ _ _ _ name (link_visuals info) st)
      as [[vs1 st1]|e] eqn:Hv; simpl; [|done].
    destruct (links_loop robot false _ _ _ _ ls st1) as [[rest st2]|e] eqn:Hls;
      simpl; [|done].
    intros Heq. injection Heq as <- <-.
    apply visuals_loop_after_disabled in Hv as ->.
    apply IH in Hls as ->. done.
Qed.
End FurtherDisabled.

(** ** The document after the call *)

(** X4. Lines 61, 76-77. With the collapse enabled the load never writes the
    parsed document: when it returns, every link has the visuals it had,
    origins included. *)
Theorem collapse_enabled_leaves_document (robot : URDF) (urdf_path : string)
    (replace_cylinder_with_capsule use_mesh_materials : bool) (fuel : nat)
    (out : Outcome) :
  load_robot robot urdf_path true replace_cylinder_with_capsule
    use_mesh_materials fuel = Some (Ok out) →
  links_after out = link_map robot.
Proof.
  intros Hload.
  destruct (load_robot_Ok _ _ _ _ _ _ _ Hload) as (rm & pm & cnt & _ & Hloop & _).
  by apply (links_loop_unchanged _ _ _ _ _ _ _ _ _ _ eq_refl Hloop).
Qed.

(** X5. Lines 61, 139, 142. With the collapse disabled the load writes the
    parsed document, and this is all it writes: when it returns, the origin
    of every visual that went through a cylinder branch has had the axis
    rotation applied to its 3x3 block (an absent origin stays absent), and
    every other field of every visual is as it was parsed. *)
Theorem collapse_disabled_rotates_cylinder_origins (robot : URDF)
    (urdf_path : string)
    (replace_cylinder_with_capsule use_mesh_materials : bool) (fuel : nat)
    (out : Outcome) :
  load_robot robot urdf_path false replace_cylinder_with_capsule
    use_mesh_materials fuel = Some (Ok out) →
  links_after out = links_after_disabled (link_map robot).
Proof.
  intros Hload.
  destruct (load_robot_Ok _ _ _ _ _ _ _ Hload) as (rm & pm & cnt & _ & Hloop & _).
  by eapply links_loop_after_disabled.
Qed.

(** ** What the load reads *)

Section FurtherIndependence.
Variables robot robot' : URDF.
Hypothesis Hhandler : filename_handler robot' = filename_handler robot.
Variable replace_cylinder_with_capsule : bool.
Variable material_map : list (string * Material).
Variables rm rm' : gmap string string.
Variables pm pm' : gmap string ndarray.

Lemma visual_batch_disabled_same link_name visual :
  visual_batch robot' false replace_cylinder_with_capsule material_map pm'
    link_name visual
  = visual_batch robot false replace_cylinder_with_capsule material_map pm
      link_name visual.
Proof.
  unfold visual_batch.
  destruct (resolve_rgba material_map visual) as [urdf_rgba|e]; simpl; [|done].
  destruct (geom_mesh (visual_geometry visual)) as [mesh|]; [|done].
  unfold mesh_batch. by rewrite Hhandler.
Qed.

Lemma visual_visit_disabled_same link_name st visual :
  visual_visit robot' false replace_cylinder_with_capsule material_map rm' pm'
    link_name st visual
  = visual_visit robot false replace_cylinder_with_capsule material_map rm pm
      link_name st visual.
Proof. unfold visual_visit. by rewrite visual_batch_disabled_same. Qed.

Lemma visuals_loop_disabled_same link_name visuals st :
  visuals_loop robot' false replace_cylinder_with_capsule material_map rm' pm'
    link_name visuals st
  = visuals_loop robot false replace_cylinder_with_capsule material_map rm pm
      link_name visuals st.
Proof.
  revert st. induction visuals as [|v vs IH]; intros st; simpl; [done|].
  rewrite visual_visit_disabled_same.
  destruct (visual_visit robot false _ _ _ _ _ _ _) as [[v1 st1]|e]; simpl; [|done].
  by rewrite IH.
Qed.

Lemma links_loop_disabled_same links st :
  links_loop robot' false replace_cylinder_with_capsule material_map rm' pm'
    links st
  = links_loop robot false replace_cylinder_with_capsule material_map rm pm
      links st.
Proof.
  revert st. induction links as [|[name info] ls IH]; intros st; simpl; [done|].
  rewrite visuals_loop_disabled_same.
  destruct (visuals_loop robot false _ _ _ _ _ _ _) as [[vs1 st1]|e]; simpl; [|done].
  by rewrite IH.
Qed.
End FurtherIndependence.

(** X6. Lines 30, 76, 154. With the collapse disabled the load reads neither
    the joints nor the base link: two documents with the same links, the
    same material table and the same file name handler give the same
    outcome, the same exception included, whatever their joints, and
    without a single pass of the joint sort. *)
Theorem collapse_disabled_ignores_joints (robot robot' : URDF) (urdf_path : string)
    (replace_cylinder_with_capsule use_mesh_materials : bool) (fuel fuel' : nat) :
  link_map robot' = link_map robot →
  _material_map robot' = _material_map robot →
  filename_handler robot' = filename_handler robot →
  load_robot robot' urdf_path false replace_cylinder_with_capsule
    use_mesh_materials fuel'
  = load_robot robot urdf_path false replace_cylinder_with_capsule
      use_mesh_materials fuel.
Proof.
  intros Hlinks Hmat Hhandler. unfold load_robot. simpl.
  rewrite Hlinks, Hmat.
  by rewrite (links_loop_disabled_same robot robot' Hhandler _ _
                {[base_link robot := base_link robot]} _
                {[base_link robot := eye4]}).
Qed.

(** ** Links the tree does not hold *)

(** X7. Line 77. With the collapse enabled, a link that carries a visual but is
    neither the base link nor the child of a joint has no entry in the pose
    map: on a well-formed tree the load raises and returns nothing. *)
Theorem link_outside_tree_is_fatal (robot : URDF) (urdf_path : string)
    (replace_cylinder_with_capsule use_mesh_materials : bool) (fuel : nat)
    (link_name : string) (link_info : Link) (visual : Visual) :
  well_formed robot → (length (joint_map robot) ≤ fuel)%nat →
  (link_name, link_info) ∈ link_map robot →
  visual ∈ link_visuals link_info →
  link_name ∉ base_link robot :: children robot →
  ∃ e, load_robot robot urdf_path true replace_cylinder_with_capsule
         use_mesh_materials fuel = Some (Raise e).
Proof.
  intros Hwf Hfuel Hlink Hvisual Hout.
  destruct (collapse_maps_well_formed robot fuel Hwf Hfuel)
    as (cache & sorted & rm & pm & _ & Hrun & Hst & Hperm & Hinv).
  assert (pm !! link_name = None) as Hnone.
  { apply eq_None_not_Some. rewrite (ci_pose_dom _ _ _ _ _ Hinv).
    by rewrite (collapse_inv_links robot cache sorted (wf_names _ Hwf) Hst Hperm). }
  unfold load_robot. rewrite Hrun.
  destruct (links_loop_raises robot true replace_cylinder_with_capsule
              (if use_mesh_materials then [] else _material_map robot) rm pm
              (link_map robot) (∅, []) link_name link_info visual Hlink Hvisual)
    as [e He].
  { unfold visual_batch.
    destruct (resolve_rgba _ visual) as [urdf_rgba|e]; simpl; [|by eexists].
    unfold lookup_or_raise. rewrite Hnone. simpl. by eexists. }
  rewrite He. simpl. by eexists.
Qed.

(** ** The writes of a collapsed load *)

Lemma visual_batch_collapsed (robot : URDF) cap material_map pm link_name
    visual visual' gs ms ps :
  visual_batch robot true cap material_map pm link_name visual
    = Ok (visual', (gs, ms, ps)) →
  ∃ link_pose,
    pm !! link_name = Some link_pose ∧
    Forall2 (local_pose robot visual
               (matmul link_pose (default eye4 (visual_origin visual)))) gs ps.
Proof.
  unfold visual_batch.
  destruct (resolve_rgba material_map visual) as [urdf_rgba|e]; simpl; [|done].
  unfold lookup_or_raise.
  destruct (pm !! link_name) as [link_pose|]; simpl; [|done].
  rewrite pose_read_origin. intros H. exists link_pose. split; [done|].
  destruct (geom_mesh (visual_geometry visual)) as [mesh|] eqn:Hmesh.
  - destruct (mesh_batch robot mesh urdf_rgba _) as [[[gs0 ms0] ps0]|e] eqn:Hb;
      simpl in H; [|done].
    injection H as <- <- <- <-. by eapply mesh_batch_local.
  - unfold primitive_batch in H. simpl in H.
    destruct (geom_sphere (visual_geometry visual)).
    { injection H as <- <- <- <-. by repeat constructor. }
    destruct (geom_box (visual_geometry visual)).
    { injection H as <- <- <- <-. by repeat constructor. }
    destruct (geom_cylinder (visual_geometry visual)); [|done].
    injection H as <- <- <- <-. constructor; [|constructor].
    by destruct cap.
Qed.

(** X8. Lines 76-77, 154-155, 166-168. With the collapse enabled, every write
    of a load that returns is made for a visual of a link of the document,
    under the root the root map records for that link, and its pose is made
    from the pose the pose map records for the link times the origin of
    the visual: that product for a sphere, a box and a single mesh, the
    product after the axis rotation for a cylinder, the product times a
    node transform of the mesh file for a sub-mesh. *)
Theorem collapsed_writes_go_under_the_root (robot : URDF) (urdf_path : string)
    (replace_cylinder_with_capsule use_mesh_materials : bool) (fuel : nat)
    (out : Outcome) :
  load_robot robot urdf_path true replace_cylinder_with_capsule
    use_mesh_materials fuel = Some (Ok out) →
  ∃ link_root_map link_pose_map,
    collapse_maps robot fuel = Some (Ok (link_root_map, link_pose_map)) ∧
    Forall (written_under_root robot link_root_map link_pose_map) (emitted out).
Proof.
  intros Hload.
  destruct (load_robot_Ok _ _ _ _ _ _ _ Hload) as (rm & pm & cnt & Hmaps & Hloop & _).
  exists rm, pm. split; [done|].
  apply (links_loop_log_inv _ _ _ _ _ _ (written_under_root robot rm pm) _
           (∅, []) _ _) in Hloop; [done| |constructor].
  intros link_name link_info visual [cnt0 log0] visual' [cnt1 log1] Hlink Hvisual
    Hlog Hvisit.
  destruct (visual_visit_inv _ _ _ _ _ _ _ _ _ _ _ _ _ Hvisit)
    as (gs & ms & ps & name & Hbatch & Hname & _ & ->).
  apply visual_batch_collapsed in Hbatch as (link_pose & Hpose & Hlocal).
  destruct (emit name _ (zip gs (zip ms ps))) as [new last] eqn:Hemit.
  destruct (emit_spec _ _ _ _ _ Hemit) as (_ & Hlinks & _ & Hitems).
  simpl in *. apply Forall_app. split; [done|].
  rewrite Forall_forall in Hlinks. apply Forall_forall. intros e He.
  exists link_name, link_info, visual, name, link_pose.
  split_and!; try done; [by apply Hlinks|].
  eapply (zip_Forall2 _ gs ms ps _ (em_material e)); [done|].
  rewrite <- Hitems.
  by apply (list_elem_of_fmap_2
              (fun e => (em_geometry e, (em_material e, em_pose e)))).
Qed.

(** ** Materials *)

(** X9. Lines 72-74. A visual whose material has no colour of its own and names
    an entry of the material table that has no colour either makes the
    whole load fail when the table is in use: line 74 reads [.rgba] of
    [None]. No outcome is returned, and an exception is raised as soon as
    the collapse maps are there. *)
Theorem colourless_named_material_is_fatal (robot : URDF) (urdf_path : string)
    (collapse_fixed_joints replace_cylinder_with_capsule : bool)
    (fuel : nat) (link_name : string) (link_info : Link) (visual : Visual) :
  (link_name, link_info) ∈ link_map robot →
  visual ∈ link_visuals link_info →
  names_colourless_material (_material_map robot) visual = true →
  (∀ out, load_robot robot urdf_path collapse_fixed_joints
            replace_cylinder_with_capsule false fuel ≠ Some (Ok out)) ∧
  (collapse_fixed_joints = false ∨
   (well_formed robot ∧ (length (joint_map robot) ≤ fuel)%nat) →
   ∃ e, load_robot robot urdf_path collapse_fixed_joints
          replace_cylinder_with_capsule false fuel = Some (Raise e)).
Proof.
  intros Hlink Hvisual Hbad.
  assert (∀ rm pm,
    ∃ e, links_loop robot collapse_fixed_joints replace_cylinder_with_capsule
           (_material_map robot) rm pm (link_map robot) (∅, []) = Raise e) as Hloop.
  { intros rm pm. eapply links_loop_raises; [done..|].
    exists AttributeError. unfold visual_batch, resolve_rgba.
    unfold names_colourless_material in Hbad.
    destruct (visual_material visual) as [material|]; [|done].
    destruct (material_color material); [done|].
    destruct (material_name material) as [name|]; [|done].
    destruct (dict_get (_material_map robot) name) as [named|]; [|done].
    by destruct (material_color named). }
  split.
  - intros out Hload.
    destruct (load_robot_Ok _ _ _ _ _ _ _ Hload) as (rm & pm & cnt & _ & Hrun & _).
    destruct (Hloop rm pm) as [e He]. simpl in Hrun. congruence.
  - unfold load_robot. intros [->|[Hwf Hfuel]].
    + destruct (Hloop (initial_maps robot).1 (initial_maps robot).2) as [e He].
      simpl in *. rewrite He. by eexists.
    + destruct (collapse_maps_well_formed robot fuel Hwf Hfuel)
        as (cache & sorted & rm & pm & _ & Hrun & _).
      destruct (Hloop rm pm) as [e He].
      destruct collapse_fixed_joints.
      * rewrite Hrun, He. by eexists.
      * destruct (Hloop (initial_maps robot).1 (initial_maps robot).2) as [e' He'].
        simpl in *. rewrite He'. by eexists.
Qed.

(** ** Documents of primitives *)

Section FurtherPrimitives.
Variable robot : URDF.
Variable replace_cylinder_with_capsule : bool.
Variable material_map : list (string * Material).
Variable rm : gmap string string.
Variable pm : gmap string ndarray.

Lemma visual_batch_plain link_name visual :
  plain_primitive visual = true →
  ∃ visual' g p,
    visual_batch robot false replace_cylinder_with_capsule material_map pm
      link_name visual = Ok (visual', ([g], [own_colour_material visual], [p])).
Proof.
  unfold plain_primitive, visual_batch, resolve_rgba, own_colour_material,
    primitive_batch.
  destruct (geom_mesh (visual_geometry visual)); [done|].
  destruct (visual_material visual) as [material|];
    [destruct (material_color material) eqn:Hc|];
    destruct (geom_sphere (visual_geometry visual)),
      (geom_box (visual_geometry visual)),
      (geom_cylinder (visual_geometry visual));
    simpl; rewrite ?Hc; try done; intros _;
    try destruct (pose_assign_block _ _); by eexists _, _, _.
Qed.

Lemma visual_visit_plain link_name cnt log visual :
  plain_primitive visual = true →
  ∃ visual' cnt' e,
    visual_visit robot false replace_cylinder_with_capsule material_map rm pm
      link_name (cnt, log) visual = Ok (visual', (cnt', log ++ [e])) ∧
    em_link e = link_name ∧ em_material e = own_colour_material visual.
Proof.
  intros Hplain.
  destruct (visual_batch_plain link_name visual Hplain) as (v' & g & p & Hb).
  unfold visual_visit. rewrite Hb. simpl.
  unfold lookup_or_raise.
  destruct (cnt !! link_name) as [c|]; rewrite lookup_insert_eq; simpl;
    by eexists _, _, _.
Qed.

Lemma visuals_loop_plain link_name visuals cnt log :
  (∀ visual, visual ∈ visuals → plain_primitive visual = true) →
  ∃ visuals' cnt' new,
    visuals_loop robot false replace_cylinder_with_capsule material_map rm pm
      link_name visuals (cnt, log) = Ok (visuals', (cnt', log ++ new)) ∧
    em_link <$> new = replicate (length visuals) link_name ∧
    em_material <$> new = own_colour_material <$> visuals.
Proof.
  revert cnt log. induction visuals as [|v vs IH]; intros cnt log Hplain; simpl.
  - exists [], cnt, []. by rewrite app_nil_r.
  - destruct (visual_visit_plain link_name cnt log v) as (v' & cnt1 & e & -> & Hl & Hm);
      [apply Hplain; left|]. simpl.
    destruct (IH cnt1 (log ++ [e])) as (vs' & cnt2 & new & -> & Hls & Hms);
      [intros ? ?; apply Hplain; by right|]. simpl.
    exists (v' :: vs'), cnt2, (e :: new). rewrite <- app_assoc. simpl.
    split_and!; [done|simpl; by f_equal..].
Qed.

Lemma links_loop_plain links cnt log :
  (∀ link_name link_info visual, (link_name, link_info) ∈ links →
     visual ∈ link_visuals link_info → plain_primitive visual = true) →
  ∃ links' cnt' new,
    links_loop robot false replace_cylinder_with_capsule material_map rm pm
      links (cnt, log) = Ok (links', (cnt', log ++ new)) ∧
    em_link <$> new = owners links ∧
    em_material <$> new = own_colour_material <$> all_visuals links.
Proof.
  revert cnt log. induction links as [|[name info] ls IH]; intros cnt log Hplain; simpl.
  - exists [], cnt, []. by rewrite app_nil_r.
  - destruct (visuals_loop_plain name (link_visuals info) cnt log)
      as (vs' & cnt1 & new1 & -> & Hl1 & Hm1); [intros ? ?; by eapply Hplain; [left|]|].
    simpl.
    destruct (IH cnt1 (log ++ new1)) as (ls' & cnt2 & new2 & -> & Hl2 & Hm2);
      [intros ? ? ? ? ?; eapply Hplain; [by right|done]|]. simpl.
    eexists _, cnt2, (new1 ++ new2). rewrite <- app_assoc.
    split_and!; [done| |].
    + rewrite fmap_app, Hl1, Hl2. reflexivity.
    + rewrite fmap_app, Hm1, Hm2.
      change (all_visuals ((name, info) :: ls))
        with (link_visuals info ++ all_visuals ls).
      by rewrite fmap_app.
Qed.
End FurtherPrimitives.

(** X10. Lines 58-170. A document whose visuals are all spheres, boxes or
    cylinders, each without material or with a colour of its own, always
    loads with the collapse disabled: there is exactly one write per
    visual, under the name of its link and in the order of the document,
    with the Phong material made from the colour of the visual, or no
    material at all when it has none. *)
Theorem plain_primitives_always_load (robot : URDF) (urdf_path : string)
    (replace_cylinder_with_capsule use_mesh_materials : bool) (fuel : nat) :
  (∀ link_name link_info visual, (link_name, link_info) ∈ link_map robot →
     visual ∈ link_visuals link_info → plain_primitive visual = true) →
  ∃ out,
    load_robot robot urdf_path false replace_cylinder_with_capsule
      use_mesh_materials fuel = Some (Ok out) ∧
    em_link <$> emitted out = owners (link_map robot) ∧
    em_material <$> emitted out = own_colour_material <$> all_visuals (link_map robot).
Proof.
  intros Hplain. unfold load_robot. simpl.
  destruct (links_loop_plain robot replace_cylinder_with_capsule
              (if use_mesh_materials then [] else _material_map robot)
              {[base_link robot := base_link robot]} {[base_link robot := eye4]}
              (link_map robot) ∅ [] Hplain) as (links' & cnt' & new & -> & Hl & Hm).
  simpl. by eexists.
Qed.

(** ** Joints listed parents first *)

Lemma sort_pass_ordered (robot : URDF) (rest before cache : list string) :
  NoDup (joint_map robot).*1 →
  parent_before_child robot (joint_map robot).*1 →
  (joint_map robot).*1 = before ++ rest →
  resolved robot (cache, before) →
  ∃ cache',
    for_each (sort_visit robot) rest (cache, before)
      = Ok (cache', (joint_map robot).*1) ∧
    resolved robot (cache', (joint_map robot).*1).
Proof.
  intros Hnames Hord. revert before cache.
  induction rest as [|n rest IH]; intros before cache Heq Hst; simpl.
  - rewrite app_nil_r in Heq. rewrite Heq. by exists cache.
  - assert (n ∉ before) as Hn.
    { rewrite Heq in Hnames. apply NoDup_app in Hnames as (_ & Hdis & _).
      intros Hin. apply (Hdis n Hin). left. }
    rewrite bool_decide_eq_false_2 by done.
    assert (n ∈ (joint_map robot).*1) as Hin.
    { rewrite Heq. apply elem_of_app. right. left. }
    destruct (dict_get_key _ _ Hin) as [j Hj]. unfold getitem. rewrite Hj. simpl.
    apply dict_get_elem in Hj.
    assert (joint_parent j ∈ cache) as Hp.
    { apply (resolved_cache robot Hnames _ Hst). simpl.
      destruct (Hord (length before) n j) as [?|(i' & n' & j' & Hlt & Hi' & Hj' & Hc)];
        [|done|by left|].
      - rewrite Heq. by rewrite list_lookup_middle.
      - right. exists n', j'. split_and!; [|done..].
        rewrite Heq, lookup_app_l in Hi' by done.
        by eapply list_elem_of_lookup_2. }
    rewrite bool_decide_eq_true_2 by done.
    apply IH.
    + by rewrite <- app_assoc.
    + by eapply resolved_joint.
Qed.

(** X11. Lines 32-41. When the joints are listed parents first (each joint
    hangs from the base link or from the child of a joint listed before
    it), the sort needs a single pass and leaves the joints in the order
    they were listed. *)
Theorem ordered_joints_are_sorted_in_one_pass (robot : URDF) (fuel : nat) :
  NoDup (joint_map robot).*1 →
  parent_before_child robot (joint_map robot).*1 →
  sort_joints robot (S fuel) = Some (Ok (joint_map robot).*1).
Proof.
  intros Hnames Hord. unfold sort_joints. simpl.
  case_bool_decide as Hlen.
  - destruct (sort_pass_ordered robot (joint_map robot).*1 [] [base_link robot]
                Hnames Hord eq_refl (resolved_init robot)) as (cache' & -> & _).
    destruct fuel; simpl; by rewrite bool_decide_eq_false_2 by lia.
  - destruct ((joint_map robot).*1); [done|simpl in Hlen; lia].
Qed.

(** ** Mesh files: the dispatch on the extension and the scenes *)

Lemma substring_all (s : string) : String.substring 0 (String.length s) s = s.
Proof. induction s as [|c s IH]; simpl; [done|by rewrite IH]. Qed.

Lemma substring_app_r (a b : string) :
  String.substring (String.length a) (String.length b) (a +:+ b) = b.
Proof. induction a as [|c a IH]; simpl; [apply substring_all|done]. Qed.

Lemma string_length_app (a b : string) :
  String.length (a +:+ b) = (String.length a + String.length b)%nat.
Proof. induction a as [|c a IH]; simpl; [done|by rewrite IH]. Qed.

Lemma lower_app (a b : string) : lower (a +:+ b) = lower a +:+ lower b.
Proof. induction a as [|c a IH]; simpl; [done|by rewrite IH]. Qed.

Lemma endswith_app (a b : string) : endswith (a +:+ b) b = true.
Proof.
  unfold endswith. rewrite string_length_app.
  rewrite bool_decide_eq_true_2 by lia. simpl.
  replace (String.length a + String.length b - String.length b)%nat
    with (String.length a) by lia.
  rewrite substring_app_r. by rewrite bool_decide_eq_true_2.
Qed.

Lemma endswith_unique (s a b : string) :
  String.length a = String.length b →
  endswith s a = true → endswith s b = true → a = b.
Proof.
  unfold endswith. intros Hlen Ha Hb.
  apply andb_true_iff in Ha as [_ Ha]. apply andb_true_iff in Hb as [_ Hb].
  apply bool_decide_eq_true in Ha, Hb. rewrite <- Ha, <- Hb. by rewrite Hlen.
Qed.

Lemma endswith_other (s a b : string) :
  String.length a = String.length b → a ≠ b →
  endswith s a = true → endswith s b = false.
Proof.
  intros Hlen Hne Ha. destruct (endswith s b) eqn:Hb; [|done].
  destruct Hne. by eapply endswith_unique.
Qed.

(** X12. Lines 83, 100, 114 and 120. The test of the extension looks at the end
    of the file name only, in lower case: a name that ends in obj, dae,
    stl or glb in any mix of cases has a branch, with or without a dot
    before the extension. *)
Theorem extension_test_ignores_case_and_dot (stem ext : string) :
  lower ext ∈ ["obj"; "dae"; "stl"; "glb"] →
  supported_extension (stem +:+ ext) = true.
Proof.
  intros Hext. unfold supported_extension. rewrite lower_app.
  repeat (apply elem_of_cons in Hext as [->|Hext]);
    [rewrite endswith_app..|by apply elem_of_nil in Hext];
    by rewrite ?orb_true_r.
Qed.

Lemma obj_scene_run (s : Scene tm_mesh) mesh_scale urdf_rgba visual_pose
    items gs0 ms0 ps0 :
  for_each (obj_scene_visit s mesh_scale urdf_rgba visual_pose) items
      (gs0, ms0, ps0)
  = match mapM (fun item : string * tm_mesh => dict_get (scene_graph s) item.1)
            items with
    | Some nodes =>
        Ok (gs0 ++ ((fun item => TriangularMeshGeometry item.2 mesh_scale)
                      <$> items),
            ms0 ++ ((fun item => Some (TrimeshGeometryMaterial item.2 urdf_rgba))
                      <$> items),
            ps0 ++ ((fun node => matmul visual_pose node.1) <$> nodes))
    | None => Raise KeyError
    end.
Proof.
  revert gs0 ms0 ps0.
  induction items as [|[name msh] items IH]; intros gs0 ms0 ps0; simpl.
  - by rewrite !app_nil_r.
  - unfold graph_get, getitem.
    destruct (dict_get (scene_graph s) name) as [node|]; simpl; [|done].
    rewrite IH.
    destruct (mapM _ items) as [nodes|]; simpl; [|done].
    by rewrite <- !app_assoc.
Qed.

Lemma dae_scene_run (s : Scene tm_mesh) mesh_filename urdf_rgba visual_pose
    items gs0 ms0 ps0 :
  for_each (dae_scene_visit s mesh_filename urdf_rgba visual_pose) items
      (gs0, ms0, ps0)
  = match mapM (fun item : string * tm_mesh => dict_get (scene_graph s) item.1)
            items with
    | Some nodes =>
        Ok (gs0 ++ replicate (length items) (DaeMeshGeometry mesh_filename),
            ms0 ++ ((fun item => Some (TrimeshGeometryMaterial item.2 urdf_rgba))
                      <$> items),
            ps0 ++ replicate (length items) visual_pose)
    | None => Raise KeyError
    end.
Proof.
  revert gs0 ms0 ps0.
  induction items as [|[name msh] items IH]; intros gs0 ms0 ps0; simpl.
  - by rewrite !app_nil_r.
  - unfold graph_get, getitem.
    destruct (dict_get (scene_graph s) name) as [node|]; simpl; [|done].
    rewrite IH.
    destruct (mapM _ items) as [nodes|]; simpl; [|done].
    by rewrite <- !app_assoc.
Qed.

(** X13. Lines 83-99. An obj file that loads as a scene in which every
    geometry has a node of its name gives one triangular mesh per
    geometry of the scene, in the order of the scene, each with the
    material of its own mesh and posed at the pose of the visual times
    the transform of the node named like the geometry. *)
Theorem obj_scene_is_expanded (robot : URDF) (mesh : Mesh)
    (urdf_rgba : option rgba) (visual_pose : ndarray) (s : Scene tm_mesh)
    (nodes : list (ndarray * option string)) :
  endswith (lower (filename_handler robot (mesh_filename mesh))) "obj" = true →
  trimesh_load (filename_handler robot (mesh_filename mesh)) = Ok (TScene s) →
  nodes_named s = Some nodes →
  mesh_batch robot mesh urdf_rgba visual_pose
  = Ok ((fun item => TriangularMeshGeometry item.2
                       (default ones3 (mesh_scale mesh)))
          <$> scene_geometry s,
        (fun item => Some (TrimeshGeometryMaterial item.2 urdf_rgba))
          <$> scene_geometry s,
        (fun node => matmul visual_pose node.1) <$> nodes).
Proof.
  intros Hext Hload Hnodes. unfold mesh_batch. unfold nodes_named in Hnodes.
  rewrite Hext, Hload. simpl. by rewrite obj_scene_run, Hnodes.
Qed.

(** X14. Lines 100-113. A dae file that loads as a single mesh is refused
    by the [assert] of line 103. One that loads as a scene of n
    geometries, each with a node of its name, gives n times the whole
    file, each at the pose of the visual and with the material of one
    sub-mesh: the transforms of the nodes do not enter. *)
Theorem dae_scene_repeats_the_file (robot : URDF) (mesh : Mesh)
    (urdf_rgba : option rgba) (visual_pose : ndarray)
    (file : loaded tm_mesh) :
  endswith (lower (filename_handler robot (mesh_filename mesh))) "dae" = true →
  trimesh_load (filename_handler robot (mesh_filename mesh)) = Ok file →
  match file with
  | Trimesh _ =>
      mesh_batch robot mesh urdf_rgba visual_pose = Raise AssertionError
  | TScene s =>
      is_Some (nodes_named s) →
      mesh_batch robot mesh urdf_rgba visual_pose
      = Ok (replicate (length (scene_geometry s))
              (DaeMeshGeometry (filename_handler robot (mesh_filename mesh))),
            (fun item => Some (TrimeshGeometryMaterial item.2 urdf_rgba))
              <$> scene_geometry s,
            replicate (length (scene_geometry s)) visual_pose)
  end.
Proof.
  intros Hext Hload. unfold mesh_batch, nodes_named.
  rewrite (endswith_other _ "dae" "obj") by done.
  rewrite Hext, Hload. simpl. destruct file as [m|s]; [done|].
  intros [nodes Hnodes]. by rewrite dae_scene_run, Hnodes.
Qed.

Lemma geom_name_map_run (s : Scene tm_mesh)
    (nodes : list (string * (ndarray * option string)))
    (m0 : gmap (option string) string) :
  (∀ nd, nd ∈ nodes → dict_get (scene_graph s) nd.1 = Some nd.2) →
  for_each
    (fun (m : gmap (option string) string) node_name =>
       node ← graph_get s node_name;
       Ok (<[node.2 := node_name]> m))
    nodes.*1 m0
  = Ok (foldl (fun m nd => <[nd.2.2 := nd.1]> m) m0 nodes).
Proof.
  revert m0. induction nodes as [|nd nodes IH]; intros m0 Hget; simpl; [done|].
  unfold graph_get, getitem. rewrite (Hget nd) by left. simpl.
  apply IH. intros nd' Hin. apply Hget. by right.
Qed.

Lemma foldl_insert_last (nodes : list (string * (ndarray * option string)))
    (m0 : gmap (option string) string) (k : option string) :
  foldl (fun m nd => <[nd.2.2 := nd.1]> m) m0 nodes !! k
  = match last (filter (fun nd => nd.2.2 = k) nodes) with
    | Some nd => Some nd.1
    | None => m0 !! k
    end.
Proof.
  revert m0. induction nodes as [|nd nodes IH]; intros m0; simpl; [done|].
  rewrite IH. rewrite filter_cons. destruct (decide (nd.2.2 = k)) as [Hk|Hk].
  - destruct (filter _ nodes) as [|nd' rest] eqn:Hf; simpl.
    + by rewrite Hk, lookup_insert_eq.
    + change (last (nd :: nd' :: rest)) with (last (nd' :: rest)).
      destruct (last (nd' :: rest)) eqn:Hl; [done|].
      by apply last_None in Hl.
  - destruct (last _); [done|]. by rewrite lookup_insert_ne.
Qed.

Lemma glb_scene_run (s : Scene tm_mesh) mesh_scale urdf_rgba visual_pose
    items gs0 ms0 ps0 :
  NoDup (scene_graph s).*1 →
  for_each
    (glb_scene_visit s
       (foldl (fun m nd => <[nd.2.2 := nd.1]> m) ∅ (scene_graph s))
       mesh_scale urdf_rgba visual_pose) items (gs0, ms0, ps0)
  = match mapM (fun item : string * tm_mesh => snd <$> node_showing s item.1)
            items with
    | Some nodes =>
        Ok (gs0 ++ ((fun item => TriangularMeshGeometry item.2 mesh_scale)
                      <$> items),
            ms0 ++ ((fun item => Some (TrimeshGeometryMaterial item.2 urdf_rgba))
                      <$> items),
            ps0 ++ ((fun node => matmul visual_pose node.1) <$> nodes))
    | None => Raise KeyError
    end.
Proof.
  intros Hnd. revert gs0 ms0 ps0.
  induction items as [|[name msh] items IH]; intros gs0 ms0 ps0; simpl.
  - by rewrite !app_nil_r.
  - unfold lookup_or_raise. rewrite foldl_insert_last, lookup_empty.
    unfold node_showing.
    destruct (last _) as [nd|] eqn:Hlast; simpl; [|done].
    assert (nd ∈ scene_graph s) as Hin.
    { apply last_Some in Hlast as [l' Hl'].
      assert (nd ∈ filter (fun nd => nd.2.2 = Some name) (scene_graph s)) as H
        by (rewrite Hl'; apply elem_of_app; right; left).
      by apply list_elem_of_filter in H as [_ H]. }
    unfold graph_get, getitem.
    rewrite (dict_get_NoDup (scene_graph s) nd.1 nd.2 Hnd)
      by (by destruct nd).
    simpl. rewrite IH.
    destruct (mapM _ items) as [nodes|]; simpl; [|done].
    by rewrite <- !app_assoc.
Qed.

(** X15. Lines 120-128. For a glb file the node of a geometry is found through
    the geometry it shows, not through its name: each geometry of the
    scene is posed at the pose of the visual times the transform of the
    last node that shows it, in the order in which the graph lists its
    nodes, and a geometry that no node shows is a [KeyError]. *)
Theorem glb_geometry_follows_its_last_node (robot : URDF) (mesh : Mesh)
    (urdf_rgba : option rgba) (visual_pose : ndarray) (s : Scene tm_mesh) :
  endswith (lower (filename_handler robot (mesh_filename mesh))) "glb" = true →
  trimesh_load_scene (filename_handler robot (mesh_filename mesh)) = Ok s →
  NoDup (scene_graph s).*1 →
  mesh_batch robot mesh urdf_rgba visual_pose
  = match nodes_showing s with
    | Some nodes =>
        Ok ((fun item => TriangularMeshGeometry item.2
                           (default ones3 (mesh_scale mesh)))
              <$> scene_geometry s,
            (fun item => Some (TrimeshGeometryMaterial item.2 urdf_rgba))
              <$> scene_geometry s,
            (fun node => matmul visual_pose node.1) <$> nodes)
    | None => Raise KeyError
    end.
Proof.
  intros Hext Hload Hnd. unfold mesh_batch, nodes_showing.
  rewrite (endswith_other _ "glb" "obj"), (endswith_other _ "glb" "dae"),
    (endswith_other _ "glb" "stl") by done.
  rewrite Hext, Hload. simpl. unfold geom_name_map_of.
  rewrite geom_name_map_run.
  - simpl. by rewrite glb_scene_run.
  - intros [n node] Hin. by apply dict_get_NoDup.
Qed.
End Proofs.

(** * Proofs: [load_urdf_into_viewer_pin] *)

Section PinProofs.
Context `{lib : Pin.Libraries}.

Lemma pin_enumerate_lookup {A} (xs : list A) (i : nat) (x : A) :
  (i, x) ∈ Pin.enumerate xs → xs !! i = Some x.
Proof.
  unfold Pin.enumerate. intros Hin.
  apply list_elem_of_lookup in Hin as [j Hj].
  apply lookup_zip_with_Some in Hj as (a & b & [= -> ->] & Ha & Hb).
  apply lookup_seq in Ha as [-> _]. done.
Qed.

Lemma pin_frame_id_map_skip (frames : list Pin.Frame) (k i : nat)
    (m0 : gmap nat string) :
  (i < k)%nat →
  foldl (fun m (item : nat * Pin.Frame) => <[item.1 := Pin.frame_name item.2]> m)
    m0 (zip (seq k (length frames)) frames) !! i = m0 !! i.
Proof.
  revert k m0. induction frames as [|f frames IH]; intros k m0 Hlt; simpl; [done|].
  rewrite IH by lia. apply lookup_insert_ne. lia.
Qed.

Lemma pin_frame_id_map_at (frames : list Pin.Frame) (k i : nat)
    (m0 : gmap nat string) (f : Pin.Frame) :
  frames !! i = Some f →
  foldl (fun m (item : nat * Pin.Frame) => <[item.1 := Pin.frame_name item.2]> m)
    m0 (zip (seq k (length frames)) frames) !! (k + i)%nat
  = Some (Pin.frame_name f).
Proof.
  revert k i m0. induction frames as [|f0 frames IH]; intros k i m0 Hi; [done|].
  simpl. destruct i as [|i]; simpl in Hi.
  - injection Hi as ->. rewrite pin_frame_id_map_skip by lia.
    rewrite Nat.add_0_r. apply lookup_insert_eq.
  - replace (k + S i)%nat with (S k + i)%nat by lia. by apply IH.
Qed.

Lemma pin_frame_id_map_lookup (frames : list Pin.Frame) (i : nat) (f : Pin.Frame) :
  frames !! i = Some f →
  Pin.frame_id_map_of frames !! i = Some (Pin.frame_name f).
Proof.
  intros Hi. unfold Pin.frame_id_map_of, Pin.enumerate.
  by apply (pin_frame_id_map_at frames 0 i).
Qed.

Lemma pin_parent_frame_map_last (names : list string)
    (items : list (nat * Pin.Frame)) (m0 : gmap nat nat) (joint : nat) :
  foldl (Pin.parent_frame_visit names) m0 items !! joint
  = match last (filter (fun item : nat * Pin.Frame =>
                          Pin.frame_type item.2 = Pin.BODY ∧
                          Pin.frame_name item.2 ∈ names ∧
                          Pin.frame_parent item.2 = joint) items) with
    | Some item => Some item.1
    | None => m0 !! joint
    end.
Proof.
  revert m0. induction items as [|[i f] items IH]; intros m0; simpl; [done|].
  rewrite IH. rewrite filter_cons. simpl.
  destruct (decide (Pin.frame_type f = Pin.BODY ∧ Pin.frame_name f ∈ names ∧
                    Pin.frame_parent f = joint)) as [(Hb & Hn & Hp)|Hno].
  - destruct (filter _ items) as [|it rest] eqn:Hf; simpl.
    + rewrite bool_decide_eq_false_2 by (by intros ?).
      rewrite bool_decide_eq_true_2 by done.
      rewrite Hp. apply lookup_insert_eq.
    + change (last ((i, f) :: it :: rest)) with (last (it :: rest)).
      destruct (last (it :: rest)) eqn:Hl; [done|]. by apply last_None in Hl.
  - destruct (last _); [done|].
    case_bool_decide as Hb; [done|].
    case_bool_decide as Hn; [|done].
    apply lookup_insert_ne. intros Hp. apply Hno.
    split_and!; [|done..]. by destruct (decide (Pin.frame_type f = Pin.BODY)).
Qed.

Lemma pin_parent_frame_map_lookup (frames : list Pin.Frame)
    (names : list string) (joint : nat) :
  Pin.parent_frame_map_of frames names !! joint
  = fst <$> Pin.target_frame frames names joint.
Proof.
  unfold Pin.parent_frame_map_of, Pin.target_frame.
  rewrite pin_parent_frame_map_last, lookup_empty. by destruct (last _).
Qed.

Lemma pin_target_frame_elem (frames : list Pin.Frame) (names : list string)
    (joint i : nat) (f : Pin.Frame) :
  Pin.target_frame frames names joint = Some (i, f) →
  frames !! i = Some f ∧ Pin.frame_type f = Pin.BODY ∧
  Pin.frame_name f ∈ names ∧ Pin.frame_parent f = joint.
Proof.
  unfold Pin.target_frame. intros Hlast.
  apply last_Some in Hlast as [l' Hl'].
  assert ((i, f) ∈ filter (fun item : nat * Pin.Frame =>
                  Pin.frame_type item.2 = Pin.BODY ∧
                  Pin.frame_name item.2 ∈ names ∧
                  Pin.frame_parent item.2 = joint) (Pin.enumerate frames)) as Hin
    by (rewrite Hl'; apply elem_of_app; right; left).
  apply list_elem_of_filter in Hin as [(? & ? & ?) Hin].
  split; [by apply pin_enumerate_lookup|done].
Qed.

(** With the collapse off the body of the loop never gets to the viewer:
    the name found at line 251 is looked up among the integer keys at
    line 252. *)
Lemma pin_visit_without_map (frames : list Pin.Frame) (m : gmap nat string)
    (st : gmap string Z * list Pin.call) (geom : Pin.GeometryObject) :
  Pin.geometry_visit frames m None st geom
  = Pin.Fail (match Pin.built geom with
              | Pin.Fail e => e
              | Pin.Done _ => Pin.KeyError
              end).
Proof.
  unfold Pin.geometry_visit, Pin.built. destruct st as [cnt viewer].
  destruct (Pin.object_of geom) as [[g mat]|e]; simpl; [|done].
  destruct (Pin.material_of geom mat) as [mat'|e]; simpl; [|done].
  unfold Pin.lookup_or_fail. by destruct (m !! Pin.parentFrame geom).
Qed.

Lemma pin_ids_under_app (link : string) (ds ds' : list Pin.Drawn) :
  Pin.ids_under link (ds ++ ds') = Pin.ids_under link ds ++ Pin.ids_under link ds'.
Proof. unfold Pin.ids_under. by rewrite filter_app, fmap_app. Qed.

Lemma pin_ids_under_one (link : string) (d : Pin.Drawn) :
  Pin.ids_under link [d]
  = if decide (Pin.dr_link d = link) then [Pin.dr_id d] else [].
Proof.
  unfold Pin.ids_under. rewrite filter_cons, filter_nil.
  by destruct (decide (Pin.dr_link d = link)).
Qed.

Lemma pin_counted_step (cnt : gmap string Z) (ds : list Pin.Drawn) (d : Pin.Drawn) :
  Pin.counted cnt ds →
  Pin.dr_id d = match cnt !! Pin.dr_link d with
                | None => 0
                | Some c => c + 1
                end →
  Pin.counted (<[Pin.dr_link d := Pin.dr_id d]> cnt) (ds ++ [d]).
Proof.
  intros Hinv Hid link. rewrite pin_ids_under_app, pin_ids_under_one.
  specialize (Hinv link).
  destruct (decide (Pin.dr_link d = link)) as [<-|Hne].
  - rewrite lookup_insert_eq.
    destruct (cnt !! Pin.dr_link d) as [c|].
    + destruct Hinv as [Hc ->]. split; [lia|].
      rewrite Hid. rewrite (seqZ_app 0 (c + 1) 1) by lia.
      by rewrite Z.add_0_l.
    + rewrite Hinv, Hid. done.
  - rewrite lookup_insert_ne by done. by rewrite app_nil_r.
Qed.

Lemma pin_visit_Done (frames : list Pin.Frame) (names : list string)
    (cnt cnt' : gmap string Z) (viewer viewer' : list Pin.call)
    (geom : Pin.GeometryObject) :
  Pin.geometry_visit frames (Pin.frame_id_map_of frames)
    (Some (Pin.parent_frame_map_of frames names)) (cnt, viewer) geom
    = Pin.Done (cnt', viewer') →
  ∃ d,
    viewer' = viewer ++ Pin.calls_of d ∧
    cnt' = <[Pin.dr_link d := Pin.dr_id d]> cnt ∧
    Pin.dr_id d = match cnt !! Pin.dr_link d with
                  | None => 0
                  | Some c => c + 1
                  end ∧
    Pin.built geom = Pin.Done (Pin.dr_geometry d, Pin.dr_material d) ∧
    Pin.drawn_under_target frames names geom d.
Proof.
  unfold Pin.geometry_visit, Pin.built.
  destruct (Pin.object_of geom) as [[g mat]|e]; simpl; [|done].
  destruct (Pin.material_of geom mat) as [mat'|e]; simpl; [|done].
  unfold Pin.lookup_or_fail. rewrite pin_parent_frame_map_lookup.
  destruct (Pin.target_frame frames names (Pin.parentJoint geom))
    as [[i f]|] eqn:Ht; simpl; [|done].
  destruct (pin_target_frame_elem _ _ _ _ _ Ht) as (Hi & Hb & Hn & Hp).
  unfold Pin.lookup_or_fail. rewrite (pin_frame_id_map_lookup _ _ _ Hi). simpl.
  rewrite Hi. simpl.
  destruct (cnt !! Pin.frame_name f) as [c|] eqn:Hc; rewrite lookup_insert_eq; simpl;
    intros Heq; injection Heq as <- <-.
  - exists {| Pin.dr_link := Pin.frame_name f; Pin.dr_id := c + 1;
              Pin.dr_geometry := g; Pin.dr_material := mat';
              Pin.dr_pose := Pin.homogeneous
                (Pin.se3_mul (Pin.se3_inverse (Pin.frame_placement f))
                   (Pin.placement geom)) |}.
    simpl. rewrite Hc. split_and!; [done..|]. by exists i, f.
  - exists {| Pin.dr_link := Pin.frame_name f; Pin.dr_id := 0;
              Pin.dr_geometry := g; Pin.dr_material := mat';
              Pin.dr_pose := Pin.homogeneous
                (Pin.se3_mul (Pin.se3_inverse (Pin.frame_placement f))
                   (Pin.placement geom)) |}.
    simpl. rewrite Hc. split_and!; [done..|]. by exists i, f.
Qed.

#[local] Arguments Pin.geometry_visit : simpl never.

Lemma pin_loop_collapsed (frames : list Pin.Frame) (names : list string)
    (geoms : list Pin.GeometryObject) (cnt cnt' : gmap string Z)
    (ds0 : list Pin.Drawn) (viewer' : list Pin.call) (raised : option Pin.error) :
  Pin.geometry_loop frames (Pin.frame_id_map_of frames)
    (Some (Pin.parent_frame_map_of frames names)) geoms
    (cnt, ds0 ≫= Pin.calls_of) = ((cnt', viewer'), raised) →
  Pin.counted cnt ds0 →
  ∃ ds,
    viewer' = (ds0 ++ ds) ≫= Pin.calls_of ∧
    Pin.counted cnt' (ds0 ++ ds) ∧
    (length ds ≤ length geoms)%nat ∧
    (raised = None ↔ length ds = length geoms) ∧
    Forall2 (fun geom d =>
               Pin.built geom = Pin.Done (Pin.dr_geometry d, Pin.dr_material d) ∧
               Pin.drawn_under_target frames names geom d)
      (take (length ds) geoms) ds.
Proof.
  revert cnt ds0. induction geoms as [|geom geoms IH]; intros cnt ds0; simpl.
  - intros [= <- <- <-] Hinv. exists []. rewrite app_nil_r.
    split_and!; [done..|constructor].
  - destruct (Pin.geometry_visit frames (Pin.frame_id_map_of frames)
                (Some (Pin.parent_frame_map_of frames names))
                (cnt, ds0 ≫= Pin.calls_of) geom) as [[cnt1 viewer1]|e] eqn:Hvisit.
    + apply pin_visit_Done in Hvisit as (d & -> & -> & Hid & Hbuilt & Htarget).
      intros Hloop Hinv.
      replace ((ds0 ≫= Pin.calls_of) ++ Pin.calls_of d)
        with ((ds0 ++ [d]) ≫= Pin.calls_of) in Hloop
        by (rewrite bind_app; simpl; by rewrite ?app_nil_r).
      apply IH in Hloop as (ds & -> & Hinv' & Hlen & Hnone & Hall);
        [|by apply pin_counted_step].
      exists (d :: ds). rewrite <- app_assoc in *. simpl.
      split_and!; [done|done|lia| |by constructor].
      rewrite Hnone. lia.
    + intros [= <- <- <-] Hinv. exists []. rewrite app_nil_r. simpl.
      split_and!; [done|done|lia| |constructor].
      split; [done|lia].
Qed.

Lemma pin_counted_seq (cnt : gmap string Z) (ds : list Pin.Drawn) (link : string) :
  Pin.counted cnt ds →
  Pin.ids_under link ds = seqZ 0 (Z.of_nat (length (Pin.ids_under link ds))).
Proof.
  intros Hinv. specialize (Hinv link). destruct (cnt !! link) as [c|].
  - destruct Hinv as [Hc ->]. rewrite length_seqZ. f_equal. lia.
  - by rewrite Hinv.
Qed.

(** X16. Lines 199-252. Without collapsed link names the loader draws nothing:
    the name found for the parent frame of the first geometry object is
    looked up as a key of the table it came from (line 252), whose keys
    are the frame indices. The call ends at the first geometry object
    with [KeyError], or earlier with the exception of building its
    geometry or material, and the viewer is left untouched. *)
Theorem pin_needs_collapsed_link_names (frames : list Pin.Frame)
    (geom : Pin.GeometryObject) (geoms : list Pin.GeometryObject) :
  Pin.load_urdf_into_viewer_pin frames (geom :: geoms) []
  = ([], Some (match Pin.built geom with
               | Pin.Fail e => e
               | Pin.Done _ => Pin.KeyError
               end)).
Proof.
  unfold Pin.load_urdf_into_viewer_pin. simpl.
  by rewrite pin_visit_without_map.
Qed.

(** X17. Lines 211-265. Whatever the input, the viewer holds whole objects
    only: its calls are, for the geometry objects before the first one
    that raised (all of them when none did), one [set_object] followed by
    one [set_transform] on the same path. Under each link name the
    indices of the paths are 0, 1, 2, ... in the order drawn. An
    exception keeps what was drawn before it. *)
Theorem pin_viewer_holds_whole_objects (frames : list Pin.Frame)
    (geoms : list Pin.GeometryObject) (names : list string) :
  ∃ ds,
    (Pin.load_urdf_into_viewer_pin frames geoms names).1 = ds ≫= Pin.calls_of ∧
    (length ds ≤ length geoms)%nat ∧
    ((Pin.load_urdf_into_viewer_pin frames geoms names).2 = None
       ↔ length ds = length geoms) ∧
    Forall2 (fun geom d =>
               Pin.built geom = Pin.Done (Pin.dr_geometry d, Pin.dr_material d))
      (take (length ds) geoms) ds ∧
    ∀ link_name,
      Pin.ids_under link_name ds
      = seqZ 0 (Z.of_nat (length (Pin.ids_under link_name ds))).
Proof.
  destruct names as [|name names].
  - exists []. destruct geoms as [|geom geoms].
    + simpl. split_and!; [done..|constructor|done].
    + unfold Pin.load_urdf_into_viewer_pin. simpl.
      rewrite pin_visit_without_map. simpl.
      split_and!; [done|lia| |constructor|done].
      split; [done|lia].
  - unfold Pin.load_urdf_into_viewer_pin.
    rewrite bool_decide_eq_true_2 by (simpl; lia).
    destruct (Pin.geometry_loop _ _ _ geoms _) as [[cnt viewer] raised] eqn:Hloop.
    apply (pin_loop_collapsed frames (name :: names) geoms ∅ cnt []) in Hloop
      as (ds & -> & Hinv & Hlen & Hnone & Hall); [|by intros link].
    exists ds. simpl. split_and!; [done..| |].
    + eapply Forall2_impl; [exact Hall|]. by intros ? ? [? _].
    + intros link. by eapply pin_counted_seq.
Qed.

(** X18. Lines 199-208 and 249-263. With collapsed link names, every object is
    drawn under the name of one of them: the name of the last body frame
    of the model that is named in [collapsed_link_names] and has the
    parent joint of the geometry object as its parent, and at the
    placement of the geometry seen from that frame. *)
Theorem pin_draws_under_last_collapsed_body_frame (frames : list Pin.Frame)
    (geoms : list Pin.GeometryObject) (names : list string) :
  names ≠ [] →
  ∃ ds,
    (Pin.load_urdf_into_viewer_pin frames geoms names).1 = ds ≫= Pin.calls_of ∧
    Forall2 (Pin.drawn_under_target frames names) (take (length ds) geoms) ds.
Proof.
  intros Hnames. unfold Pin.load_urdf_into_viewer_pin.
  rewrite bool_decide_eq_true_2 by (destruct names; [done|simpl; lia]).
  destruct (Pin.geometry_loop _ _ _ geoms _) as [[cnt viewer] raised] eqn:Hloop.
  apply (pin_loop_collapsed frames names geoms ∅ cnt []) in Hloop
    as (ds & -> & Hinv & Hlen & Hnone & Hall); [|by intros link].
  exists ds. simpl. split; [done|].
  eapply Forall2_impl; [exact Hall|]. by intros ? ? [_ ?].
Qed.

(** X19. Lines 251-252. With collapsed link names, a geometry object whose
    parent joint is the parent of no collapsed body frame ends the call
    with [KeyError] when it is reached; what was drawn before stays. *)
Theorem pin_geometry_without_target_is_fatal (frames : list Pin.Frame)
    (before : list Pin.GeometryObject) (geom : Pin.GeometryObject)
    (after : list Pin.GeometryObject) (names : list string)
    (g : Pin.viewer_geometry) (mat : option Pin.viewer_material) :
  names ≠ [] →
  (Pin.load_urdf_into_viewer_pin frames before names).2 = None →
  Pin.built geom = Pin.Done (g, mat) →
  Pin.target_frame frames names (Pin.parentJoint geom) = None →
  Pin.load_urdf_into_viewer_pin frames (before ++ geom :: after) names
  = ((Pin.load_urdf_into_viewer_pin frames before names).1, Some Pin.KeyError).
Proof.
  intros Hnames Hbefore Hbuilt Htarget. revert Hbefore.
  unfold Pin.load_urdf_into_viewer_pin.
  rewrite bool_decide_eq_true_2 by (destruct names; [done|simpl; lia]).
  generalize (∅ : gmap string Z, [] : list Pin.call).
  induction before as [|b before IH]; intros st; simpl.
  - intros _. destruct st as [cnt viewer].
    unfold Pin.geometry_visit. unfold Pin.built in Hbuilt.
    destruct (Pin.object_of geom) as [[g' mat']|e]; simpl in *; [|done].
    destruct (Pin.material_of geom mat') as [mat''|e]; simpl in *; [|done].
    unfold Pin.lookup_or_fail. rewrite pin_parent_frame_map_lookup, Htarget.
    done.
  - destruct (Pin.geometry_visit _ _ _ st b) as [st'|e]; [apply IH|].
    destruct st as [cnt viewer]. simpl. discriminate.
Qed.
End PinProofs.

(** * The scenarios of the specification, evaluated *)

#[local] Existing Instance Exact.trimesh.

Lemma scenario_A_well_formed : well_formed Exact.scenario_A.
Proof.
  assert (reachable Exact.scenario_A "B") as HB by apply reachable_base.
  assert (reachable Exact.scenario_A "L1") as H1.
  { apply (reachable_child Exact.scenario_A "j1"
             (Exact.joint "B" "L1" "fixed" (Exact.translation 1 0 0))); [|done].
    do 2 apply list_elem_of_further. apply list_elem_of_here. }
  assert (reachable Exact.scenario_A "L2") as H2.
  { apply (reachable_child Exact.scenario_A "j2"
             (Exact.joint "L1" "L2" "fixed" (Exact.turn_z 0 2 0))); [|done].
    apply list_elem_of_further, list_elem_of_here. }
  split.
  - compute_done.
  - compute_done.
  - repeat constructor; done.
Qed.

Lemma C1_witness :
  well_formed Exact.scenario_A ∧ (length (joint_map Exact.scenario_A) ≤ 3)%nat ∧
  ∃ link_root_map link_pose_map,
    collapse_maps Exact.scenario_A 3 = Some (Ok (link_root_map, link_pose_map)) ∧
    ∀ name j, (name, j) ∈ joint_map Exact.scenario_A → joint_type j = "fixed" →
      ∃ parent_pose,
        link_pose_map !! joint_parent j = Some parent_pose ∧
        link_pose_map !! joint_child j
          = Some (matmul parent_pose (joint_origin j)).
Proof.
  split; [apply scenario_A_well_formed|]. split; [simpl; lia|].
  apply (C1_composition_law Exact.scenario_A 3); [apply scenario_A_well_formed|simpl; lia].
Defined.

Lemma C2_witness :
  well_formed Exact.scenario_A ∧ (length (joint_map Exact.scenario_A) ≤ 3)%nat ∧
  ∃ link_root_map link_pose_map,
    collapse_maps Exact.scenario_A 3 = Some (Ok (link_root_map, link_pose_map)) ∧
    (∀ x, is_Some (link_root_map !! x)
          ↔ x ∈ base_link Exact.scenario_A :: children Exact.scenario_A) ∧
    ∀ x root, link_root_map !! x = Some root → link_root_map !! root = Some root.
Proof.
  split; [apply scenario_A_well_formed|]. split; [simpl; lia|].
  apply (C2_root_idempotent Exact.scenario_A 3); [apply scenario_A_well_formed|simpl; lia].
Defined.

Lemma C3_witness :
  well_formed Exact.scenario_A ∧ (length (joint_map Exact.scenario_A) ≤ 3)%nat ∧
  ∃ link_root_map link_pose_map,
    collapse_maps Exact.scenario_A 3 = Some (Ok (link_root_map, link_pose_map)) ∧
    link_pose_map !! base_link Exact.scenario_A = Some eye4 ∧
    (∀ name j, (name, j) ∈ joint_map Exact.scenario_A → joint_type j ≠ "fixed" →
       link_root_map !! joint_child j = Some (joint_child j) ∧
       link_pose_map !! joint_child j = Some eye4) ∧
    ∀ x root, link_root_map !! x = Some root → link_pose_map !! root = Some eye4.
Proof.
  split; [apply scenario_A_well_formed|]. split; [simpl; lia|].
  apply (C3_identity_at_root Exact.scenario_A 3); [apply scenario_A_well_formed|simpl; lia].
Defined.

(** Scenario A: the roots and the poses the specification expects. *)
Example scenario_A_maps :
  match collapse_maps Exact.scenario_A 3 with
  | Some (Ok (link_root_map, link_pose_map)) =>
      (fun x => (link_root_map !! x, link_pose_map !! x)) <$> ["B"; "L1"; "L2"; "L3"]
  | _ => []
  end
  = [(Some "B", Some Exact.identity);
     (Some "B", Some (Exact.translation 1 0 0));
     (Some "B", Some (Exact.mat_mul (Exact.translation 1 0 0) (Exact.turn_z 0 2 0)));
     (Some "L3", Some Exact.identity)].
Proof. vm_compute. reflexivity. Qed.

Lemma scenario_D_malformed : malformed Exact.scenario_D.
Proof.
  split; [compute_done|].
  apply Exists_cons_hd. simpl. intros H.
  inversion H as [|name j Hj Hp Hc].
  apply list_elem_of_singleton in Hj as [= -> ->]. discriminate Hc.
Qed.

Lemma C4_witness :
  malformed Exact.scenario_D ∧
  load_robot Exact.scenario_D "scenario_D.urdf" true false false 1000 = None.
Proof.
  split; [apply scenario_D_malformed|].
  apply C4_malformed_tree_never_returns, scenario_D_malformed.
Defined.

Lemma C5_witness :
  well_formed Exact.scenario_A ∧
  base_link Exact.scenario_A_root_first = base_link Exact.scenario_A ∧
  joint_map Exact.scenario_A_root_first ≡ₚ joint_map Exact.scenario_A ∧
  (length (joint_map Exact.scenario_A) ≤ 3)%nat ∧
  ∃ link_root_map link_pose_map sorted sorted',
    collapse_maps Exact.scenario_A 3 = Some (Ok (link_root_map, link_pose_map)) ∧
    collapse_maps Exact.scenario_A_root_first 3
      = Some (Ok (link_root_map, link_pose_map)) ∧
    sort_joints Exact.scenario_A 3 = Some (Ok sorted) ∧
    sort_joints Exact.scenario_A_root_first 3 = Some (Ok sorted') ∧
    sorted ≡ₚ (joint_map Exact.scenario_A).*1 ∧
    sorted' ≡ₚ (joint_map Exact.scenario_A).*1 ∧
    parent_before_child Exact.scenario_A sorted ∧
    parent_before_child Exact.scenario_A_root_first sorted'.
Proof.
  split; [apply scenario_A_well_formed|]. split; [reflexivity|].
  split; [apply reverse_Permutation|]. split; [simpl; lia|].
  apply (C5_order_independence Exact.scenario_A Exact.scenario_A_root_first 3).
  - apply scenario_A_well_formed.
  - reflexivity.
  - apply reverse_Permutation.
  - simpl; lia.
Defined.

(** The leaf-first list needs its three passes; listed root first, the same
    joints are sorted in one. *)
Example scenario_A_passes :
  sort_joints Exact.scenario_A 2 = None ∧
  sort_joints Exact.scenario_A 3 = Some (Ok ["j1"; "j2"; "j3"]) ∧
  sort_joints Exact.scenario_A_root_first 1 = Some (Ok ["j1"; "j2"; "j3"]).
Proof. by vm_compute. Qed.

Lemma C6_witness :
  ∃ out,
    load_robot Exact.scenario_A "scenario_A.urdf" true false false 3 = Some (Ok out) ∧
    (∃ link_root_map link_pose_map groups,
       collapse_maps Exact.scenario_A 3 = Some (Ok (link_root_map, link_pose_map)) ∧
       Forall2 (yields Exact.scenario_A true false (_material_map Exact.scenario_A)
                  link_root_map link_pose_map)
         (scanned (link_map Exact.scenario_A)) groups ∧
       entry_of <$> emitted out = entries_of groups ∧
       ∀ link,
         ids_of link (emitted out)
         = seqZ 0 (Z.of_nat (length (filter (fun en => en.1 = link)
                                       (entries_of groups))))) ∧
    (∀ link,
       ids_of link (emitted out)
         = seqZ 0 (Z.of_nat (length (ids_of link (emitted out)))) ∧
       NoDup (ids_of link (emitted out))) ∧
    (∀ e, e ∈ emitted out →
       visual_data (resource out) !! asset_key (em_link e) (em_id e)
         = Some (em_geometry e, em_material e) ∧
       pose_data (resource out) !! asset_key (em_link e) (em_id e)
         = Some (em_pose e)).
Proof.
  assert (returned (load_robot Exact.scenario_A "scenario_A.urdf" true false false 3)
          = true) as Hok by (vm_compute; reflexivity).
  destruct (load_robot Exact.scenario_A "scenario_A.urdf" true false false 3)
    as [[out|e]|] eqn:Hload; [|discriminate Hok..].
  exists out. split; [reflexivity|].
  exact (C6_indices_contiguous Exact.scenario_A "scenario_A.urdf" true false false 3
           out Hload).
Defined.

(** Scenario A, collapsed: the five geometries of B, L1 and L2 are written
    under B with the indices 0 to 4, the cylinder of L3 under L3; the
    parts of the hand carry the pose of L1 and the sphere of L2 the pose of
    L2. *)
Example scenario_A_collapsed :
  written (load_robot Exact.scenario_A "scenario_A.urdf" true false false 3)
  = [("B/0", Exact.identity);
     ("B/1", Exact.translation 0 0 3);
     ("B/2", Exact.translation 5 0 1);
     ("B/3", Exact.translation 5 2 1);
     ("B/4", Exact.turn_z 1 2 0);
     ("L3/0", rot_block (Exact.translation 0 6 0))].
Proof. vm_compute. reflexivity. Qed.

(** C7. The specification composes the local transform of every sub-mesh,
    for every mesh format with several geometries. The dae branch does not:
    the arm placed at (1, 0, 0), whose only sub-mesh sits at (0, 0, 7) in
    its file, is written with the pose of the visual, (1, 0, 0), and not
    with the product, (1, 0, 7). The glb hand of scenario A, placed at
    (4, 0, 0), has its two parts written with the products. *)
Theorem C7_dae_submesh_pose_dropped :
  (pose_at "arm/0" (load_robot Exact.scenario_dae "arm.urdf" false false false 0)
     = Some (Exact.translation 1 0 0) ∧
   pose_at "arm/0" (load_robot Exact.scenario_dae "arm.urdf" false false false 0)
     ≠ Some (matmul (Exact.translation 1 0 0) (Exact.translation 0 0 7))) ∧
  (pose_at "L1/0" (load_robot Exact.scenario_A "scenario_A.urdf" false false false 0)
     = Some (matmul (Exact.translation 4 0 0) (Exact.translation 0 0 1)) ∧
   pose_at "L1/1" (load_robot Exact.scenario_A "scenario_A.urdf" false false false 0)
     = Some (matmul (Exact.translation 4 0 0) (Exact.translation 0 2 1))).
Proof.
  split; split; by vm_compute.
Qed.





(** Scenario A with the collapse disabled: every link keeps its name and
    every pose is local; the same writes come out of the document with
    every joint movable, loaded with the collapse enabled. *)
Example scenario_A_disabled :
  written (load_robot Exact.scenario_A "scenario_A.urdf" false false false 0)
  = [("B/0", Exact.identity);
     ("B/1", Exact.translation 0 0 3);
     ("L1/0", Exact.translation 4 0 1);
     ("L1/1", Exact.translation 4 2 1);
     ("L2/0", Exact.identity);
     ("L3/0", rot_block (Exact.translation 0 6 0))] ∧
  written (load_robot (all_movable Exact.scenario_A) "scenario_A.urdf"
             true false false 3)
  = written (load_robot Exact.scenario_A "scenario_A.urdf" false false false 0).
Proof. split; vm_compute; reflexivity. Qed.

Lemma C9_witness :
  ("B", Exact.link [Exact.sphere 1 None; Exact.mesh "wheel.ply" None])
    ∈ link_map Exact.scenario_ply ∧
  Exact.mesh "wheel.ply" None
    ∈ link_visuals (Exact.link [Exact.sphere 1 None; Exact.mesh "wheel.ply" None]) ∧
  unsupported_visual Exact.scenario_ply (Exact.mesh "wheel.ply" None) = true ∧
  (∀ out, load_robot Exact.scenario_ply "wheel.urdf" false false false 0
          ≠ Some (Ok out)) ∧
  (false = false ∨
   (well_formed Exact.scenario_ply ∧ (length (joint_map Exact.scenario_ply) ≤ 0)%nat) →
   ∃ e, load_robot Exact.scenario_ply "wheel.urdf" false false false 0
        = Some (Raise e)).
Proof.
  assert (("B", Exact.link [Exact.sphere 1 None; Exact.mesh "wheel.ply" None])
            ∈ link_map Exact.scenario_ply) as Hl by apply list_elem_of_here.
  assert (Exact.mesh "wheel.ply" None
            ∈ link_visuals (Exact.link [Exact.sphere 1 None; Exact.mesh "wheel.ply" None]))
    as Hv by apply list_elem_of_further, list_elem_of_here.
  assert (unsupported_visual Exact.scenario_ply (Exact.mesh "wheel.ply" None) = true)
    as Hun by reflexivity.
  split; [exact Hl|]. split; [exact Hv|]. split; [exact Hun|].
  exact (C9_unsupported_geometry_is_fatal Exact.scenario_ply
           "wheel.urdf" false false false 0 _ _ _ Hl Hv Hun).
Defined.

(** The two failures of C9, evaluated: both raise [NotImplementedError],
    with the collapse disabled or enabled. *)
Example scenario_unsupported_raises :
  raised (load_robot Exact.scenario_ply "wheel.urdf" false false false 0)
    = Some NotImplementedError ∧
  raised (load_robot Exact.scenario_ply "wheel.urdf" true false false 0)
    = Some NotImplementedError ∧
  raised (load_robot Exact.scenario_no_kind "shape.urdf" false false false 0)
    = Some NotImplementedError.
Proof. split_and!; vm_compute; reflexivity. Qed.

(** C10. The specification has the parsed document read-only. With the
    collapse disabled, [visual_pose] is the very array held in
    [visual.origin], and the slice assignment of the cylinder branches
    (lines 139 and 142) writes it: after the load of scenario C the origin
    of the cylinder is no longer (0, 6, 0) but that matrix after the axis
    rotation, with or without the capsule. The same document loaded with
    the collapse enabled is left as it was parsed. *)
Theorem C10_cylinder_origin_overwritten :
  origins_of (link_map Exact.scenario_C) = [("B", [Some (Exact.translation 0 6 0)])] ∧
  (∀ replace_cylinder_with_capsule,
     match load_robot Exact.scenario_C "scenario_C.urdf" false
             replace_cylinder_with_capsule false 0 with
     | Some (Ok out) =>
         origins_of (links_after out)
           = [("B", [Some (rot_block (Exact.translation 0 6 0))])] ∧
         links_after out ≠ link_map Exact.scenario_C
     | _ => False
     end) ∧
  match load_robot Exact.scenario_C "scenario_C.urdf" true false false 0 with
  | Some (Ok out) => links_after out = link_map Exact.scenario_C
  | _ => False
  end.
Proof.
  split; [reflexivity|]. split.
  - intros cap.
    assert (match load_robot Exact.scenario_C "scenario_C.urdf" false cap false 0 with
            | Some (Ok out) => Some (origins_of (links_after out))
            | _ => None
            end = Some [("B", [Some (rot_block (Exact.translation 0 6 0))])]) as Ho
      by (destruct cap; vm_compute; reflexivity).
    destruct (load_robot Exact.scenario_C "scenario_C.urdf" false cap false 0)
      as [[out|e]|]; [|discriminate Ho..].
    injection Ho as Ho. split; [exact Ho|].
    intros Heq. rewrite Heq in Ho. vm_compute in Ho. discriminate Ho.
  - assert (returned (load_robot Exact.scenario_C "scenario_C.urdf" true false false 0)
            = true) as Hok by (vm_compute; reflexivity).
    destruct (load_robot Exact.scenario_C "scenario_C.urdf" true false false 0)
      as [[out|e]|] eqn:Hload; [|discriminate Hok..].
    by eapply load_robot_collapse_leaves_document.
Qed.

(** * The further properties, evaluated *)

#[local] Existing Instance Samples.pin_lib.

Lemma dictionaries_hold_the_writes_witness :
  ∃ out,
    load_robot Exact.scenario_A "scenario_A.urdf" true false false 3 = Some (Ok out) ∧
    dom (visual_data (resource out)) = dom (pose_data (resource out)) ∧
    (∀ key, key ∈ dom (pose_data (resource out))
            ↔ ∃ e, e ∈ emitted out ∧ key = asset_key (em_link e) (em_id e)) ∧
    size (visual_data (resource out)) = length (emitted out) ∧
    size (pose_data (resource out)) = length (emitted out).
Proof.
  assert (returned (load_robot Exact.scenario_A "scenario_A.urdf" true false false 3)
          = true) as Hok by (vm_compute; reflexivity).
  destruct (load_robot Exact.scenario_A "scenario_A.urdf" true false false 3)
    as [[out|e]|] eqn:Hload; [|discriminate Hok..].
  exists out. split; [reflexivity|].
  exact (dictionaries_hold_the_writes Exact.scenario_A "scenario_A.urdf" true false
           false 3 out Hload).
Defined.

Lemma every_geometry_is_written_witness :
  ∃ visual' st',
    visual_visit Exact.scenario_A false false [] ∅ ∅ "L1" (∅, [])
      (Exact.mesh "hand.glb" (Some (Exact.translation 4 0 0)))
      = Ok (visual', st') ∧
    ∃ geometries mats poses new,
      visual_batch Exact.scenario_A false false [] ∅ "L1"
        (Exact.mesh "hand.glb" (Some (Exact.translation 4 0 0)))
        = Ok (visual', (geometries, mats, poses)) ∧
      st'.2 = (∅ : gmap string Z, [] : list Emitted).2 ++ new ∧
      em_geometry <$> new = geometries ∧
      em_material <$> new = mats ∧
      em_pose <$> new = poses.
Proof.
  assert (match visual_visit Exact.scenario_A false false [] ∅ ∅ "L1" (∅, [])
                  (Exact.mesh "hand.glb" (Some (Exact.translation 4 0 0))) with
          | Ok _ => true
          | Raise _ => false
          end = true) as Hok by (vm_compute; reflexivity).
  destruct (visual_visit Exact.scenario_A false false [] ∅ ∅ "L1" (∅, [])
              (Exact.mesh "hand.glb" (Some (Exact.translation 4 0 0))))
    as [[visual' st']|e] eqn:Hvisit; [|discriminate Hok].
  exists visual', st'. split; [reflexivity|].
  exact (every_geometry_is_written Exact.scenario_A false false [] ∅ ∅ "L1"
           (∅, []) st' _ visual' Hvisit).
Defined.

Lemma collapse_enabled_leaves_document_witness :
  ∃ out,
    load_robot Exact.scenario_A "scenario_A.urdf" true false false 3 = Some (Ok out) ∧
    links_after out = link_map Exact.scenario_A.
Proof.
  assert (returned (load_robot Exact.scenario_A "scenario_A.urdf" true false false 3)
          = true) as Hok by (vm_compute; reflexivity).
  destruct (load_robot Exact.scenario_A "scenario_A.urdf" true false false 3)
    as [[out|e]|] eqn:Hload; [|discriminate Hok..].
  exists out. split; [reflexivity|].
  exact (collapse_enabled_leaves_document Exact.scenario_A "scenario_A.urdf" false
           false 3 out Hload).
Defined.

Lemma collapse_disabled_rotates_cylinder_origins_witness :
  ∃ out,
    load_robot Exact.scenario_A "scenario_A.urdf" false true false 0 = Some (Ok out) ∧
    links_after out = links_after_disabled (link_map Exact.scenario_A).
Proof.
  assert (returned (load_robot Exact.scenario_A "scenario_A.urdf" false true false 0)
          = true) as Hok by (vm_compute; reflexivity).
  destruct (load_robot Exact.scenario_A "scenario_A.urdf" false true false 0)
    as [[out|e]|] eqn:Hload; [|discriminate Hok..].
  exists out. split; [reflexivity|].
  exact (collapse_disabled_rotates_cylinder_origins Exact.scenario_A
           "scenario_A.urdf" true false 0 out Hload).
Defined.

(** The cylinder of L3 is the one origin the load rewrites. *)
Example scenario_A_origins_after :
  origins_of (links_after_disabled (link_map Exact.scenario_A))
  = [("B", [None; Some (Exact.translation 0 0 3)]);
     ("L1", [Some (Exact.translation 4 0 0)]);
     ("L2", [None]);
     ("L3", [Some (rot_block (Exact.translation 0 6 0))])].
Proof. vm_compute. reflexivity. Qed.

Lemma collapse_disabled_ignores_joints_witness :
  link_map Samples.scenario_A_broken = link_map Exact.scenario_A ∧
  _material_map Samples.scenario_A_broken = _material_map Exact.scenario_A ∧
  filename_handler Samples.scenario_A_broken = filename_handler Exact.scenario_A ∧
  load_robot Samples.scenario_A_broken "scenario_A.urdf" false false false 0
  = load_robot Exact.scenario_A "scenario_A.urdf" false false false 3.
Proof.
  split; [reflexivity|]. split; [reflexivity|]. split; [reflexivity|].
  apply (collapse_disabled_ignores_joints Exact.scenario_A Samples.scenario_A_broken
           "scenario_A.urdf" false false 3 0); reflexivity.
Defined.

Lemma stray_well_formed : well_formed Samples.stray.
Proof. split; [compute_done|compute_done|constructor]. Qed.

Lemma stray_outside : "floating" ∉ base_link Samples.stray :: children Samples.stray.
Proof. compute_done. Qed.

Lemma link_outside_tree_is_fatal_witness :
  well_formed Samples.stray ∧
  (length (joint_map Samples.stray) ≤ 0)%nat ∧
  ("floating", Exact.link [Exact.sphere 2 None]) ∈ link_map Samples.stray ∧
  Exact.sphere 2 None ∈ link_visuals (Exact.link [Exact.sphere 2 None]) ∧
  ("floating" ∉ base_link Samples.stray :: children Samples.stray) ∧
  ∃ e, load_robot Samples.stray "stray.urdf" true false false 0 = Some (Raise e).
Proof.
  assert (("floating", Exact.link [Exact.sphere 2 None]) ∈ link_map Samples.stray)
    as Hl by apply list_elem_of_further, list_elem_of_here.
  assert (Exact.sphere 2 None ∈ link_visuals (Exact.link [Exact.sphere 2 None]))
    as Hv by apply list_elem_of_here.
  split; [apply stray_well_formed|]. split; [simpl; lia|].
  split; [exact Hl|]. split; [exact Hv|]. split; [apply stray_outside|].
  apply (link_outside_tree_is_fatal Samples.stray "stray.urdf" false false 0
           "floating" (Exact.link [Exact.sphere 2 None]) (Exact.sphere 2 None)
           stray_well_formed); [simpl; lia|exact Hl|exact Hv|].
  apply stray_outside.
Defined.

(** The first link of the stray document is drawn before the second is
    reached; the call gives nothing all the same. *)
Example stray_raises :
  raised (load_robot Samples.stray "stray.urdf" true false false 0) = Some KeyError ∧
  written (load_robot Samples.stray "stray.urdf" false false false 0)
  = [("B/0", Exact.identity); ("floating/0", Exact.identity)].
Proof. split; vm_compute; reflexivity. Qed.

Lemma collapsed_writes_go_under_the_root_witness :
  ∃ out link_root_map link_pose_map,
    load_robot Exact.scenario_A "scenario_A.urdf" true false false 3 = Some (Ok out) ∧
    collapse_maps Exact.scenario_A 3 = Some (Ok (link_root_map, link_pose_map)) ∧
    Forall (written_under_root Exact.scenario_A link_root_map link_pose_map)
      (emitted out).
Proof.
  assert (returned (load_robot Exact.scenario_A "scenario_A.urdf" true false false 3)
          = true) as Hok by (vm_compute; reflexivity).
  destruct (load_robot Exact.scenario_A "scenario_A.urdf" true false false 3)
    as [[out|e]|] eqn:Hload; [|discriminate Hok..].
  destruct (collapsed_writes_go_under_the_root Exact.scenario_A "scenario_A.urdf"
              false false 3 out Hload) as (rm & pm & Hmaps & Hall).
  exists out, rm, pm. split; [reflexivity|]. split; [exact Hmaps|exact Hall].
Defined.

Lemma colourless_named_material_is_fatal_witness :
  ("B", Exact.link [Samples.steel_sphere]) ∈ link_map Samples.colourless ∧
  Samples.steel_sphere ∈ link_visuals (Exact.link [Samples.steel_sphere]) ∧
  names_colourless_material (_material_map Samples.colourless) Samples.steel_sphere
    = true ∧
  (∀ out, load_robot Samples.colourless "steel.urdf" false false false 0
          ≠ Some (Ok out)) ∧
  (false = false ∨
   (well_formed Samples.colourless ∧
    (length (joint_map Samples.colourless) ≤ 0)%nat) →
   ∃ e, load_robot Samples.colourless "steel.urdf" false false false 0
        = Some (Raise e)).
Proof.
  assert (("B", Exact.link [Samples.steel_sphere]) ∈ link_map Samples.colourless)
    as Hl by apply list_elem_of_here.
  assert (Samples.steel_sphere ∈ link_visuals (Exact.link [Samples.steel_sphere]))
    as Hv by apply list_elem_of_here.
  assert (names_colourless_material (_material_map Samples.colourless)
            Samples.steel_sphere = true) as Hm by reflexivity.
  split; [exact Hl|]. split; [exact Hv|]. split; [exact Hm|].
  exact (colourless_named_material_is_fatal Samples.colourless "steel.urdf" false
           false 0 _ _ _ Hl Hv Hm).
Defined.

(** The exception is the [AttributeError] of line 74; with the colours of
    the mesh files asked for, the table is not read and the sphere is
    drawn. *)
Example colourless_raises :
  raised (load_robot Samples.colourless "steel.urdf" false false false 0)
    = Some AttributeError ∧
  written (load_robot Samples.colourless "steel.urdf" false false true 0)
    = [("B/0", Exact.identity)].
Proof. split; vm_compute; reflexivity. Qed.

Lemma primitives_plain link_name link_info visual :
  (link_name, link_info) ∈ link_map Samples.primitives →
  visual ∈ link_visuals link_info → plain_primitive visual = true.
Proof.
  intros Hl Hv. simpl in Hl.
  repeat (apply elem_of_cons in Hl as [[= -> ->]|Hl];
          [simpl in Hv;
           repeat (apply elem_of_cons in Hv as [->|Hv]; [reflexivity|]);
           by apply elem_of_nil in Hv|]).
  by apply elem_of_nil in Hl.
Qed.

Lemma plain_primitives_always_load_witness :
  (∀ link_name link_info visual,
     (link_name, link_info) ∈ link_map Samples.primitives →
     visual ∈ link_visuals link_info → plain_primitive visual = true) ∧
  ∃ out,
    load_robot Samples.primitives "primitives.urdf" false true false 0
      = Some (Ok out) ∧
    em_link <$> emitted out = owners (link_map Samples.primitives) ∧
    em_material <$> emitted out
      = own_colour_material <$> all_visuals (link_map Samples.primitives).
Proof.
  split; [exact primitives_plain|].
  exact (plain_primitives_always_load Samples.primitives "primitives.urdf" true
           false 0 primitives_plain).
Defined.

Lemma root_first_ordered :
  parent_before_child Exact.scenario_A_root_first
    (joint_map Exact.scenario_A_root_first).*1.
Proof.
  intros i name j Hi Hj.
  change (joint_map Exact.scenario_A_root_first)
    with [("j1", Exact.joint "B" "L1" "fixed" (Exact.translation 1 0 0));
          ("j2", Exact.joint "L1" "L2" "fixed" (Exact.turn_z 0 2 0));
          ("j3", Exact.joint "L2" "L3" "revolute" (Exact.translation 0 0 5))]
    in *.
  apply elem_of_cons in Hj as [[= -> ->]|Hj]; [by left|].
  apply elem_of_cons in Hj as [[= -> ->]|Hj].
  { right. exists 0%nat, "j1", (Exact.joint "B" "L1" "fixed" (Exact.translation 1 0 0)).
    destruct i as [|i]; [discriminate Hi|].
    split_and!; [lia|done|apply list_elem_of_here|done]. }
  apply elem_of_cons in Hj as [[= -> ->]|Hj]; [|by apply elem_of_nil in Hj].
  right. exists 1%nat, "j2", (Exact.joint "L1" "L2" "fixed" (Exact.turn_z 0 2 0)).
  destruct i as [|[|i]]; [discriminate Hi..|].
  split_and!; [lia|done|apply list_elem_of_further, list_elem_of_here|done].
Qed.

Lemma root_first_names : NoDup (joint_map Exact.scenario_A_root_first).*1.
Proof. compute_done. Qed.

Lemma ordered_joints_are_sorted_in_one_pass_witness :
  NoDup (joint_map Exact.scenario_A_root_first).*1 ∧
  parent_before_child Exact.scenario_A_root_first
    (joint_map Exact.scenario_A_root_first).*1 ∧
  sort_joints Exact.scenario_A_root_first 1
    = Some (Ok (joint_map Exact.scenario_A_root_first).*1).
Proof.
  split; [exact root_first_names|]. split; [exact root_first_ordered|].
  exact (ordered_joints_are_sorted_in_one_pass Exact.scenario_A_root_first 0
           root_first_names root_first_ordered).
Defined.

Lemma extension_test_ignores_case_and_dot_witness :
  lower "STL" ∈ ["obj"; "dae"; "stl"; "glb"] ∧
  supported_extension ("MODEL" +:+ "STL") = true.
Proof.
  assert (lower "STL" ∈ ["obj"; "dae"; "stl"; "glb"]) as Hext
    by (do 2 apply list_elem_of_further; apply list_elem_of_here).
  split; [exact Hext|].
  exact (extension_test_ignores_case_and_dot "MODEL" "STL" Hext).
Defined.

Lemma obj_scene_is_expanded_witness :
  endswith (lower (filename_handler Samples.stray (mesh_filename Samples.crate)))
    "obj" = true ∧
  @trimesh_load _ Samples.files
    (filename_handler Samples.stray (mesh_filename Samples.crate))
    = Ok (TScene Samples.crate_obj) ∧
  @nodes_named _ Samples.files Samples.crate_obj
    = Some [(Exact.translation 0 0 2, Some "lid");
            (Exact.translation 0 0 1, Some "body")] ∧
  @mesh_batch _ Samples.files Samples.stray Samples.crate None
    (Exact.translation 4 0 0)
  = Ok ((fun item : string * string =>
           @TriangularMeshGeometry Exact.numpy Samples.files item.2
             (default ones3 (mesh_scale Samples.crate)))
          <$> scene_geometry Samples.crate_obj,
        (fun item : string * string =>
           Some (@TrimeshGeometryMaterial Exact.numpy Samples.files item.2 None))
          <$> scene_geometry Samples.crate_obj,
        (fun node : @ndarray Exact.numpy * option string =>
           matmul (Exact.translation 4 0 0) node.1)
          <$> [(Exact.translation 0 0 2, Some "lid");
               (Exact.translation 0 0 1, Some "body")]).
Proof.
  split; [reflexivity|]. split; [reflexivity|]. split; [reflexivity|].
  apply (@obj_scene_is_expanded _ Samples.files); reflexivity.
Defined.

(** The two parts of the crate, in the order of the scene, each at the
    place of its own node. *)
Example crate_poses :
  match @mesh_batch _ Samples.files Samples.stray Samples.crate None
          (Exact.translation 4 0 0) with
  | Ok (_, _, poses) => poses
  | Raise _ => []
  end = [Exact.translation 4 0 2; Exact.translation 4 0 1].
Proof. vm_compute. reflexivity. Qed.

Lemma arm_nodes : is_Some (@nodes_named _ Samples.files Exact.arm_dae).
Proof. by eexists. Qed.

Lemma dae_scene_repeats_the_file_witness :
  endswith (lower (filename_handler Samples.stray (mesh_filename Samples.arm)))
    "dae" = true ∧
  @trimesh_load _ Samples.files
    (filename_handler Samples.stray (mesh_filename Samples.arm))
    = Ok (TScene Exact.arm_dae) ∧
  is_Some (@nodes_named _ Samples.files Exact.arm_dae) ∧
  @mesh_batch _ Samples.files Samples.stray Samples.arm None
    (Exact.translation 1 0 0)
  = Ok (replicate (length (scene_geometry Exact.arm_dae))
          (@DaeMeshGeometry Exact.numpy Samples.files
             (filename_handler Samples.stray (mesh_filename Samples.arm))),
        (fun item : string * string =>
           Some (@TrimeshGeometryMaterial Exact.numpy Samples.files item.2 None))
          <$> scene_geometry Exact.arm_dae,
        replicate (length (scene_geometry Exact.arm_dae))
          (Exact.translation 1 0 0)).
Proof.
  split; [reflexivity|]. split; [reflexivity|]. split; [exact arm_nodes|].
  apply (@dae_scene_repeats_the_file _ Samples.files Samples.stray Samples.arm None
           (Exact.translation 1 0 0) (TScene Exact.arm_dae));
    [reflexivity|reflexivity|exact arm_nodes].
Defined.

Lemma axle_nodes : NoDup (scene_graph Samples.axle_glb).*1.
Proof. compute_done. Qed.

Lemma glb_geometry_follows_its_last_node_witness :
  endswith (lower (filename_handler Samples.stray (mesh_filename Samples.axle)))
    "glb" = true ∧
  @trimesh_load_scene _ Samples.files
    (filename_handler Samples.stray (mesh_filename Samples.axle))
    = Ok Samples.axle_glb ∧
  NoDup (scene_graph Samples.axle_glb).*1 ∧
  @mesh_batch _ Samples.files Samples.stray Samples.axle None
    (Exact.translation 0 1 0)
  = match @nodes_showing _ Samples.files Samples.axle_glb with
    | Some nodes =>
        Ok ((fun item => TriangularMeshGeometry item.2
                           (default ones3 (mesh_scale Samples.axle)))
              <$> scene_geometry Samples.axle_glb,
            (fun item => Some (TrimeshGeometryMaterial item.2 None))
              <$> scene_geometry Samples.axle_glb,
            (fun node => matmul (Exact.translation 0 1 0) node.1) <$> nodes)
    | None => Raise KeyError
    end.
Proof.
  split; [reflexivity|]. split; [reflexivity|]. split; [exact axle_nodes|].
  apply (@glb_geometry_follows_its_last_node _ Samples.files);
    [reflexivity|reflexivity|exact axle_nodes].
Defined.

(** The wheel is drawn once, at the rear node: the front node that shows
    the same geometry is not drawn. *)
Example axle_poses :
  match @mesh_batch _ Samples.files Samples.stray Samples.axle None
          (Exact.translation 0 1 0) with
  | Ok (_, _, poses) => poses
  | Raise _ => []
  end = [Exact.translation (-3) 1 0].
Proof. vm_compute. reflexivity. Qed.

Lemma pin_draws_under_last_collapsed_body_frame_witness :
  ["base"; "arm"; "mount"] ≠ [] ∧
  ∃ ds,
    (Pin.load_urdf_into_viewer_pin Samples.frames Samples.geometryObjects
       ["base"; "arm"; "mount"]).1 = ds ≫= Pin.calls_of ∧
    Forall2 (Pin.drawn_under_target Samples.frames ["base"; "arm"; "mount"])
      (take (length ds) Samples.geometryObjects) ds.
Proof.
  assert (["base"; "arm"; "mount"] ≠ @nil string) as Hnames by discriminate.
  split; [exact Hnames|].
  exact (@pin_draws_under_last_collapsed_body_frame Samples.pin_lib Samples.frames
           Samples.geometryObjects ["base"; "arm"; "mount"] Hnames).
Defined.

(** The base and its mount share their parent joint: the geometry of the
    base is drawn under the mount, the later of the two frames, and seen
    from there. Without collapsed names nothing is drawn. *)
Example pin_sample_calls :
  Pin.load_urdf_into_viewer_pin Samples.frames Samples.geometryObjects
    ["base"; "arm"; "mount"]
  = ([Pin.set_object "mount/0" (Pin.Sphere 1) None; Pin.set_transform "mount/0" (-2);
      Pin.set_object "arm/0" (Pin.Sphere 1) None; Pin.set_transform "arm/0" 1;
      Pin.set_object "mount/1" (Pin.Sphere 1) None; Pin.set_transform "mount/1" 5],
     None) ∧
  Pin.load_urdf_into_viewer_pin Samples.frames Samples.geometryObjects []
  = ([], Some Pin.KeyError).
Proof. split; vm_compute; reflexivity. Qed.

Lemma pin_geometry_without_target_is_fatal_witness :
  ["base"] ≠ [] ∧
  (Pin.load_urdf_into_viewer_pin Samples.frames [Samples.ball 2 0 0] ["base"]).2
    = None ∧
  Pin.built (Samples.ball 4 1 1) = Pin.Done (Pin.Sphere 1, None) ∧
  Pin.target_frame Samples.frames ["base"] (Pin.parentJoint (Samples.ball 4 1 1))
    = None ∧
  Pin.load_urdf_into_viewer_pin Samples.frames
    ([Samples.ball 2 0 0] ++ Samples.ball 4 1 1 :: [Samples.ball 6 0 7]) ["base"]
  = ((Pin.load_urdf_into_viewer_pin Samples.frames [Samples.ball 2 0 0] ["base"]).1,
     Some Pin.KeyError).
Proof.
  assert (["base"] ≠ @nil string) as Hnames by discriminate.
  split; [exact Hnames|]. split; [vm_compute; reflexivity|].
  split; [reflexivity|]. split; [vm_compute; reflexivity|].
  apply (@pin_geometry_without_target_is_fatal Samples.pin_lib Samples.frames [Samples.ball 2 0 0]
           (Samples.ball 4 1 1) [Samples.ball 6 0 7] ["base"]
           (@Pin.Sphere Samples.pin_lib 1) None Hnames); [vm_compute; reflexivity|reflexivity|vm_compute; reflexivity].
Defined.
